(** * Subpixel text rendering demo (main.c): UTF-8 iterator, glyph atlas, text layout

    A shallow embedding of the parts of [main.c] that carry the program's
    logic: the UTF-8 iterator [utf8_next] / [utf8_first], the mock glyph
    atlas with its LCD filter, and the body of the text layout loop; then
    the loop over the text with the draw call, the listing of a shader
    source, [fload], and [gl_load_shader_program].

    Conventions.
    - C integers are [Z]; where the C type wraps (the [uint32_t] code
      point, the [uint8_t] byte) the wrap-around is written out.
    - A C object (the text buffer, an array) is a [list]; a dereference
      outside of the object is reported as a fault instead of a value.
    - Pointers into the text buffer are byte offsets from its start, as if
      the buffer were at address 0.
    - [float] is kept abstract: the layout is parametric in the operations
      on it, and so is it in the font that stb_truetype has loaded.
    - The C library and OpenGL are outside of the program: a function that
      calls them is run against a record of what they answer, and yields
      the calls it made, in program order. *)

From stdpp Require Import base list numbers.
From Stdlib Require Import ZArith Lia.

Local Open Scope Z_scope.

(** ** Small helpers shared by all parts *)

(** Conversion to [uint8_t] and [uint32_t]. *)
Definition uint8 (x : Z) : Z := x mod 2 ^ 8.
Definition uint32 (x : Z) : Z := x mod 2 ^ 32.
(** Conversion to [int16_t] (two's complement). *)
Definition int16 (x : Z) : Z := (x + 2 ^ 15) mod 2 ^ 16 - 2 ^ 15.

(** Bounded universal quantification over an integer interval, decided by
    running the test on every element. *)
Definition all_in_range (lo len : Z) (P : Z → bool) : bool :=
  forallb P (seqZ lo len).

(** * The UTF-8 iterator *)

Module Utf8.

(** [utf8_iterator_t]: cursor, end bound and the code point last decoded. *)
Record utf8_iterator_t := Utf8Iterator {
  buffer : Z;
  end_ : Z;
  codepoint : Z
}.

Definition set_buffer (it : utf8_iterator_t) (b : Z) : utf8_iterator_t :=
  {| buffer := b; end_ := end_ it; codepoint := codepoint it |}.
Definition set_codepoint (it : utf8_iterator_t) (c : Z) : utf8_iterator_t :=
  {| buffer := buffer it; end_ := end_ it; codepoint := c |}.

(** A computation that dereferences the text buffer: the offsets it
    dereferenced, in program order, and its value; [None] when a
    dereference fell outside of the object. *)
Record Rd (A : Type) := MkRd { reads : list Z; value : option A }.
Arguments MkRd {A} _ _.
Arguments reads {A} _.
Arguments value {A} _.

#[export] Instance Rd_ret : MRet Rd := λ A a, MkRd [] (Some a).
#[export] Instance Rd_bind : MBind Rd := λ A B f m,
  match value m with
  | Some a => MkRd (reads m ++ reads (f a)) (value (f a))
  | None => MkRd (reads m) None
  end.

(** [*p] on the object [mem]. *)
Definition deref (mem : list Z) (p : Z) : Rd Z :=
  MkRd [p] (if p <? 0 then None else mem !! Z.to_nat p).

(** [UINTPTR_MAX] of a 64 bit target. *)
Definition UINTPTR_MAX : Z := 2 ^ 64 - 1.

Section Decoder.

(** [__builtin_clz(0)] is left undefined by the compiler; the value it
    happens to produce is a parameter of the model. *)
Variable clz_zero : Z.

(** [__builtin_clz] on a 32 bit [unsigned int]. *)
Definition builtin_clz (x : Z) : Z :=
  if x =? 0 then clz_zero else 31 - Z.log2 x.

(** [__builtin_clz(~byte << 24)] *)
Definition leading_ones_of (byte : Z) : Z :=
  builtin_clz (uint32 (Z.shiftl (Z.lnot byte) 24)).

(** [byte & ~(0xFFFFFFFF << data_bits_in_first_byte)], in [unsigned int].
    The shift count is negative only for the byte 0xFF, where it comes from
    [clz_zero]; [Z.shiftl] shifts to the right then. *)
Definition first_byte_data (byte data_bits_in_first_byte : Z) : Z :=
  Z.land byte
    (uint32 (Z.lnot (uint32 (Z.shiftl 0xFFFFFFFF data_bits_in_first_byte)))).

Variable mem : list Z.

(** The [for] loop over the additional bytes of a code point; [n] is the
    number of iterations left. *)
Fixpoint decode_loop (n : nat) (it : utf8_iterator_t) : Rd utf8_iterator_t :=
  match n with
  | O => mret it
  | S n' =>
      c ← deref mem (buffer it);
      let byte := uint8 c in
      if Z.land byte 0xC0 =? 0x80 then
        let it := set_codepoint it (uint32 (Z.shiftl (codepoint it) 6)) in
        let it := set_codepoint it (Z.lor (codepoint it) (Z.land byte 0x3F)) in
        decode_loop n' (set_buffer it (buffer it + 1))
      else
        mret (set_codepoint it 0xFFFD)
  end.

(** The [while] loop that skips intermediate bytes. [rest] is the part of
    the object from the cursor on, so that its head is [*(it.buffer)] and
    there is nothing to dereference when it is empty; the dereference is
    evaluated before the comparison with the end bound, as in the source. *)
Fixpoint skip_loop (rest : list Z) (it : utf8_iterator_t) : Rd utf8_iterator_t :=
  match rest with
  | [] => MkRd [buffer it] None
  | c :: rest' =>
      MkRd [buffer it] (Some c) ≫= λ c,
      if (Z.land c 0xC0 =? 0x80) && (buffer it <? end_ it) then
        skip_loop rest' (set_buffer it (buffer it + 1))
      else
        mret it
  end.

Definition utf8_next (it : utf8_iterator_t) : Rd utf8_iterator_t :=
  let it := set_codepoint it 0 in
  if buffer it =? end_ it then mret it
  else
    c ← deref mem (buffer it);
    let byte := uint8 c in
    if byte =? 0 then mret it
    else
      let it := set_buffer it (buffer it + 1) in
      let leading_ones := leading_ones_of byte in
      if negb (leading_ones =? 1) then
        let data_bits_in_first_byte := 8 - 1 - leading_ones in
        let it := set_codepoint it (first_byte_data byte data_bits_in_first_byte) in
        let additional_bytes := leading_ones - 1 in
        if buffer it + additional_bytes <=? end_ it then
          decode_loop (Z.to_nat additional_bytes) it
        else
          mret (set_buffer (set_codepoint it 0xFFFD) (end_ it))
      else
        it ← skip_loop (drop (Z.to_nat (buffer it)) mem) it;
        mret (set_codepoint it 0xFFFD).

Definition utf8_first (buffer : Z) : Rd utf8_iterator_t :=
  utf8_next {| buffer := buffer; end_ := UINTPTR_MAX; codepoint := 0 |}.

(** The iteration of the layout pass,
    [for (it = utf8_first(text); it.codepoint != 0; it = utf8_next(it))],
    as the list of code points its body is run on. [fuel] bounds the number
    of calls of [utf8_next]. *)
Inductive loop_result :=
  | Finished (codepoints : list Z)
  | Faulted
  | OutOfFuel.

Fixpoint codepoints_from (fuel : nat) (it : utf8_iterator_t) : loop_result :=
  if codepoint it =? 0 then Finished []
  else
    match fuel with
    | O => OutOfFuel
    | S fuel' =>
        match value (utf8_next it) with
        | None => Faulted
        | Some it' =>
            match codepoints_from fuel' it' with
            | Finished l => Finished (codepoint it :: l)
            | r => r
            end
        end
    end.

Definition utf8_codepoints (fuel : nat) (text : Z) : loop_result :=
  match value (utf8_first text) with
  | None => Faulted
  | Some it => codepoints_from fuel it
  end.

(** Predicates of the statements below. [stop] is an offset inside the
    object at which every scan comes to a halt: the end bound itself, or a
    byte that is zero. *)
Definition halts_at (stop e : Z) : Prop :=
  0 ≤ stop < Z.of_nat (length mem) ∧
  (stop = e ∨ ∃ c, mem !! Z.to_nat stop = Some c ∧ uint8 c = 0).

Definition cursor_ok (stop : Z) (it : utf8_iterator_t) : Prop :=
  0 ≤ buffer it ≤ end_ it ∧ (buffer it = end_ it ∨ buffer it ≤ stop).

End Decoder.

(** [Z.lor x0 x] is a lead byte with [k] leading ones and payload [x]. *)
Definition lead_byte_ok (k x0 x : Z) : bool :=
  let b := Z.lor x0 x in
  let w := uint32 (Z.shiftl (Z.lnot b) 24) in
  (uint8 b =? b) && negb (b =? 0) && negb (w =? 0) && (31 - Z.log2 w =? k)
  && (first_byte_data b (8 - 1 - k) =? x).

(** [Z.lor 0x80 p] is an intermediate byte with payload [p]. *)
Definition cont_byte_ok (p : Z) : bool :=
  let b := Z.lor 0x80 p in
  (uint8 b =? b) && (Z.land b 0xC0 =? 0x80) && (Z.land b 0x3F =? p).

(** The canonical UTF-8 encoding of a code point, after table 3-6 of the
    Unicode Standard. The program has no encoder; this one is the
    reference the decoder is compared with. *)
Definition utf8_encode (c : Z) : list Z :=
  if c <? 0x80 then [c]
  else if c <? 0x800 then
    [Z.lor 0xC0 (Z.shiftr c 6); Z.lor 0x80 (Z.land c 0x3F)]
  else if c <? 0x10000 then
    [Z.lor 0xE0 (Z.shiftr c 12);
     Z.lor 0x80 (Z.land (Z.shiftr c 6) 0x3F);
     Z.lor 0x80 (Z.land c 0x3F)]
  else
    [Z.lor 0xF0 (Z.shiftr c 18);
     Z.lor 0x80 (Z.land (Z.shiftr c 12) 0x3F);
     Z.lor 0x80 (Z.land (Z.shiftr c 6) 0x3F);
     Z.lor 0x80 (Z.land c 0x3F)].

(** Unicode scalar values: the code points except the surrogates. *)
Definition unicode_scalar (c : Z) : Prop :=
  0 ≤ c ≤ 0x10FFFF ∧ ¬ (0xD800 ≤ c ≤ 0xDFFF).

End Utf8.

(** * The glyph atlas and the layout loop of [main] *)

Module Main.

(** How a piece of [main] ends: with a value, in a failed [assert], or in
    an access outside of an array. *)
Inductive outcome (A : Type) :=
  | Ok (a : A)
  | AssertionFailed
  | OutOfBounds.
Arguments Ok {A} _.
Arguments AssertionFailed {A}.
Arguments OutOfBounds {A}.

#[export] Instance outcome_ret : MRet outcome := λ A a, Ok a.
#[export] Instance outcome_bind : MBind outcome := λ A B f m,
  match m with
  | Ok a => f a
  | AssertionFailed => AssertionFailed
  | OutOfBounds => OutOfBounds
  end.

Definition assert (b : bool) : outcome unit :=
  if b then Ok () else AssertionFailed.

(** [a[i]] *)
Definition index {A} (a : list A) (i : Z) : outcome A :=
  if i <? 0 then OutOfBounds
  else match a !! Z.to_nat i with Some x => Ok x | None => OutOfBounds end.

(** [a[i] = x] *)
Definition store {A} (a : list A) (i : Z) (x : A) : outcome (list A) :=
  if (0 <=? i) && (i <? Z.of_nat (length a)) then Ok (<[Z.to_nat i := x]> a)
  else OutOfBounds.

Fixpoint for_steps {St} (n : nat) (i : Z) (body : Z → St → outcome St) (s : St)
    : outcome St :=
  match n with
  | O => Ok s
  | S n' => s' ← body i s; for_steps n' (i + 1) body s'
  end.

(** [for (int i = lo; i < hi; i++) body] *)
Definition for_loop {St} (lo hi : Z) (body : Z → St → outcome St) (s : St)
    : outcome St :=
  for_steps (Z.to_nat (hi - lo)) lo body s.

(** ** The LCD filter *)

Definition atlas_item_width : Z := 32.
Definition atlas_item_height : Z := 32.
Definition horizontal_resolution : Z := 3.
Definition bitmap_stride : Z := atlas_item_width * horizontal_resolution.
Definition bitmap_size : Z := bitmap_stride * atlas_item_height.
Definition filter_weights : list Z := [0x08; 0x4D; 0x56; 0x4D; 0x08].

Section Filter.
Variable glyph_bitmap : list Z.
Variables padded_glyph_width_px padded_glyph_height_px : Z.

(** The loop over the filter taps; its state is [sum] and
    [filter_weight_index]. *)
Definition kernel_body (x_end y kernel_x : Z) (acc : Z * Z) : outcome (Z * Z) :=
  let '(sum, filter_weight_index) := acc in
  _ ← assert ((0 <=? kernel_x) && (kernel_x <? x_end + 1));
  _ ← assert ((0 <=? y) && (y <? padded_glyph_height_px));
  let offset := kernel_x + y * bitmap_stride in
  _ ← assert ((0 <=? offset) && (offset <? bitmap_size));
  coverage ← index glyph_bitmap offset;
  weight ← index filter_weights filter_weight_index;
  Ok (sum + coverage * weight, filter_weight_index + 1).

(** The loop over the subpixel columns of one row. *)
Definition column_body (x_end y x : Z) (atlas_item_bitmap : list Z)
    : outcome (list Z) :=
  let kernel_x_end := if x =? x_end - 1 then x + 1 else x + 2 in
  '(sum, _) ← for_loop (x - 2) (kernel_x_end + 1) (kernel_body x_end y) (0, 0);
  let sum := Z.quot sum 255 in
  store atlas_item_bitmap (x + y * bitmap_stride)
    (uint8 (if 255 <? sum then 255 else sum)).

(** The loop over the rows. *)
Definition row_body (y : Z) (atlas_item_bitmap : list Z) : outcome (list Z) :=
  let x_end := padded_glyph_width_px * horizontal_resolution - 1 in
  for_loop 4 x_end (column_body x_end y) atlas_item_bitmap.

Definition lcd_filter (atlas_item_bitmap : list Z) : outcome (list Z) :=
  for_loop 0 padded_glyph_height_px row_body atlas_item_bitmap.

(** The value the filter computes for column [x] of row [y]: [taps] taps
    of the kernel, starting two columns to the left. Reference for the
    statements below. *)
Fixpoint kernel_sum (y x : Z) (taps : nat) : Z :=
  match taps with
  | O => 0
  | S k =>
      kernel_sum y x k +
      glyph_bitmap !!! Z.to_nat (x - 2 + Z.of_nat k + y * bitmap_stride) *
      filter_weights !!! k
  end.

Definition filtered (y x : Z) : Z :=
  let x_end := padded_glyph_width_px * horizontal_resolution - 1 in
  let sum := Z.quot (kernel_sum y x (if x =? x_end - 1 then 4 else 5)) 255 in
  uint8 (Z.min 255 sum).

(** The content of [atlas_item_bitmap] when the loops have reached row [Y]
    and column [X]: the filtered value where the loops have been, 0 where
    they have not been yet or never get. *)
Definition expected (Y X x y : Z) : Z :=
  let x_end := padded_glyph_width_px * horizontal_resolution - 1 in
  if (y <? padded_glyph_height_px) && (4 <=? x) && (x <? x_end)
     && ((y <? Y) || ((y =? Y) && (x <? X)))
  then filtered y x else 0.

Definition bitmap_is (Y X : Z) (atlas_item_bitmap : list Z) : Prop :=
  length atlas_item_bitmap = Z.to_nat bitmap_size ∧
  ∀ x y, 0 ≤ x < bitmap_stride → 0 ≤ y < atlas_item_height →
    atlas_item_bitmap !! Z.to_nat (x + y * bitmap_stride) = Some (expected Y X x y).

End Filter.

(** ** The font library and floating point numbers *)

(** The operations on [float] that the layout uses. The model is
    parametric in them. *)
Class FloatOps (F : Type) := {
  fadd : F → F → F;
  fsub : F → F → F;
  fmul : F → F → F;
  of_int : Z → F;          (* conversion of an [int] *)
  to_int16 : F → Z;        (* conversion to [int16_t] *)
  round : F → F;           (* [round()] *)
  modff : F → F * F        (* [modff()]: fractional and integral part *)
}.

(** The calls into stb_truetype, for the font that was loaded.
    [stbtt_MakeGlyphBitmap output offset ...] is the content of the array
    [output] after the glyph was rendered at [output + offset]. *)
Record stbtt_fontinfo (F : Type) := {
  stbtt_FindGlyphIndex : Z → Z;
  stbtt_GetGlyphBitmapBox : Z → F → F → Z * Z * Z * Z;
  stbtt_MakeGlyphBitmap : list Z → Z → Z → Z → Z → F → F → Z → list Z;
  stbtt_GetGlyphHMetrics : Z → Z * Z;
  stbtt_GetCodepointKernAdvance : Z → Z → Z;
  stbtt_MakeGlyphBitmap_length :
    ∀ output offset out_w out_h out_stride scale_x scale_y glyph,
      length (stbtt_MakeGlyphBitmap output offset out_w out_h out_stride
                scale_x scale_y glyph) = length output
}.
Arguments stbtt_FindGlyphIndex {F} _ _.
Arguments stbtt_GetGlyphBitmapBox {F} _ _ _ _.
Arguments stbtt_MakeGlyphBitmap {F} _ _ _ _ _ _ _ _ _.
Arguments stbtt_GetGlyphHMetrics {F} _ _.
Arguments stbtt_GetCodepointKernAdvance {F} _ _ _.

(** ** Data of the layout *)

Record int16_rect_t := {
  left : Z; top : Z; right : Z; bottom : Z
}.

Record color_t := { r : Z; g : Z; b : Z; a : Z }.

Record rect_instance_t (F : Type) := {
  pos : int16_rect_t;
  rect_tex_coords : int16_rect_t;
  color : color_t;
  subpixel_shift : F
}.
Arguments pos {F} _.
Arguments rect_tex_coords {F} _.
Arguments color {F} _.
Arguments subpixel_shift {F} _.

Record glyph_atlas_item_t := {
  filled : bool;
  tex_coords : int16_rect_t;
  glyph_index : Z;
  distance_from_baseline_to_top_px : Z
}.

(** The calls that rasterize a glyph and upload it to the atlas texture,
    with the arguments that matter here. *)
Inductive call (F : Type) :=
  | MakeGlyphBitmap (glyph_index : Z) (scale_x scale_y : F)
  | TextureSubImage2D (xoffset yoffset width height : Z) (pixels : list Z).
Arguments MakeGlyphBitmap {F} _ _ _.
Arguments TextureSubImage2D {F} _ _ _ _ _.

(** The glyph atlas: the table [glyph_atlas_items] and, for the atlas
    texture, the calls made so far. *)
Record atlas_t (F : Type) := {
  glyph_atlas_items : list glyph_atlas_item_t;
  calls : list (call F)
}.
Arguments glyph_atlas_items {F} _.
Arguments calls {F} _.

(** [glyph_atlas_item_t glyph_atlas_items[127] = {}] *)
Definition glyph_atlas_items_init : list glyph_atlas_item_t :=
  replicate 127
    {| filled := false;
       tex_coords := {| left := 0; top := 0; right := 0; bottom := 0 |};
       glyph_index := 0; distance_from_baseline_to_top_px := 0 |}.

(** The state of the loop over the code points of the text. [rect_buffer]
    holds the [rect_buffer_filled] instances written so far. *)
Record layout_t (F : Type) := {
  current_x : F;
  current_y : F;
  prev_codepoint : Z;
  atlas : atlas_t F;
  rect_buffer : list (rect_instance_t F)
}.
Arguments current_x {F} _.
Arguments current_y {F} _.
Arguments prev_codepoint {F} _.
Arguments atlas {F} _.
Arguments rect_buffer {F} _.

Definition glyph_atlas_width : Z := 512.
Definition glyph_atlas_height : Z := 512.
(** [rect_instance_t rect_buffer[255]] *)
Definition rect_buffer_size : Z := 255.

Section Layout.
Context {F : Type} `{FloatOps F}.
Variable font_info : stbtt_fontinfo F.
(** What is computed before the loop over the text starts. *)
Variables font_scale line_height pos_x : F.
Variable text_color : color_t.

Definition horizontal_filter_padding : Z := 1.
Definition subpixel_positioning_left_padding : Z := 1.

(** The branch "the atlas item is not yet filled": rasterize the glyph of
    [codepoint], filter it and upload it. Yields the finished atlas item and
    the calls made, [calls] being the calls made before. *)
Definition fill_atlas_item (calls : list (call F)) (codepoint : Z)
    : outcome (glyph_atlas_item_t * list (call F)) :=
  let glyph_index := stbtt_FindGlyphIndex font_info codepoint in
  let '(x0, y0, x1, y1) :=
    stbtt_GetGlyphBitmapBox font_info glyph_index font_scale font_scale in
  let glyph_width_px := x1 - x0 in
  let glyph_height_px := y1 - y0 in
  let distance_from_baseline_to_top_px := - y0 in
  '(tex_coords, calls) ←
    (if (0 <? glyph_width_px) && (0 <? glyph_height_px) then
       let padded_glyph_width_px :=
         subpixel_positioning_left_padding + horizontal_filter_padding
         + glyph_width_px + horizontal_filter_padding in
       let padded_glyph_height_px := glyph_height_px in
       let atlas_item_x :=
         codepoint mod (glyph_atlas_width / atlas_item_width) * atlas_item_width in
       let atlas_item_y :=
         codepoint / (glyph_atlas_height / atlas_item_height) * atlas_item_height in
       _ ← assert ((padded_glyph_width_px <=? atlas_item_width)
                    && (padded_glyph_height_px <=? atlas_item_height));
       let glyph_bitmap := replicate (Z.to_nat bitmap_size) 0 in
       let glyph_offset_x :=
         (subpixel_positioning_left_padding + horizontal_filter_padding)
         * horizontal_resolution in
       let glyph_bitmap :=
         stbtt_MakeGlyphBitmap font_info glyph_bitmap glyph_offset_x
           (atlas_item_width * horizontal_resolution) atlas_item_height
           bitmap_stride (fmul font_scale (of_int horizontal_resolution))
           font_scale glyph_index in
       let atlas_item_bitmap := replicate (Z.to_nat bitmap_size) 0 in
       atlas_item_bitmap ←
         lcd_filter glyph_bitmap padded_glyph_width_px padded_glyph_height_px
           atlas_item_bitmap;
       Ok ({| left := int16 atlas_item_x;
              top := int16 atlas_item_y;
              right := int16 (atlas_item_x + padded_glyph_width_px);
              bottom := int16 (atlas_item_y + padded_glyph_height_px) |},
           calls ++
           [MakeGlyphBitmap glyph_index
              (fmul font_scale (of_int horizontal_resolution)) font_scale;
            TextureSubImage2D atlas_item_x atlas_item_y
              atlas_item_width atlas_item_height atlas_item_bitmap])
     else
       Ok ({| left := int16 (-1); top := int16 (-1);
              right := int16 (-1); bottom := int16 (-1) |},
           calls));
  Ok ({| filled := true;
         tex_coords := tex_coords;
         glyph_index := glyph_index;
         distance_from_baseline_to_top_px := distance_from_baseline_to_top_px |},
      calls).

(** The block "Check if that glyph is already in the glyph atlas": the
    atlas item for [codepoint], from the table when it is filled there,
    made and put into the table otherwise. *)
Definition get_or_create (atl : atlas_t F) (codepoint : Z)
    : outcome (glyph_atlas_item_t * atlas_t F) :=
  _ ← assert (codepoint <=? 127);
  glyph_atlas_item ← index (glyph_atlas_items atl) codepoint;
  if filled glyph_atlas_item then Ok (glyph_atlas_item, atl)
  else
    '(glyph_atlas_item, calls) ← fill_atlas_item (calls atl) codepoint;
    items ← store (glyph_atlas_items atl) codepoint glyph_atlas_item;
    Ok (glyph_atlas_item, {| glyph_atlas_items := items; calls := calls |}).

(** The step "Apply kerning": the pen position after it. *)
Definition kerned_x (st : layout_t F) (codepoint : Z) : F :=
  if negb (prev_codepoint st =? 0) then
    fadd (current_x st)
      (fmul (of_int (stbtt_GetCodepointKernAdvance font_info
                       (prev_codepoint st) codepoint)) font_scale)
  else current_x st.

(** The body of the loop over the code points of the text. *)
Definition layout_body (st : layout_t F) (codepoint : Z) : outcome (layout_t F) :=
  let current_x := kerned_x st codepoint in
  let prev_codepoint := codepoint in
  if codepoint =? 10 then
    Ok {| current_x := pos_x;
          current_y := fadd (current_y st) (round line_height);
          prev_codepoint := prev_codepoint;
          atlas := atlas st;
          rect_buffer := rect_buffer st |}
  else
    '(glyph_atlas_item, atl) ← get_or_create (atlas st) codepoint;
    let '(glyph_advance_width, glyph_left_side_bearing) :=
      stbtt_GetGlyphHMetrics font_info (glyph_index glyph_atlas_item) in
    rects ←
      (if negb (left (tex_coords glyph_atlas_item) =? -1) then
         let glyph_pos_x :=
           fadd current_x (fmul (of_int glyph_left_side_bearing) font_scale) in
         let '(glyph_pos_x_subpixel_shift, glyph_pos_x_px) := modff glyph_pos_x in
         let glyph_pos_y_px :=
           fsub (current_y st)
             (of_int (distance_from_baseline_to_top_px glyph_atlas_item)) in
         let glyph_width_with_horiz_filter_padding :=
           right (tex_coords glyph_atlas_item) - left (tex_coords glyph_atlas_item) in
         let glyph_height :=
           bottom (tex_coords glyph_atlas_item) - top (tex_coords glyph_atlas_item) in
         let padding :=
           of_int (subpixel_positioning_left_padding + horizontal_filter_padding) in
         _ ← (if Z.of_nat (length (rect_buffer st)) <? rect_buffer_size
              then Ok () else OutOfBounds);
         Ok (rect_buffer st ++
             [{| pos :=
                   {| left := to_int16 (fsub glyph_pos_x_px padding);
                      right := to_int16
                        (fadd (fsub glyph_pos_x_px padding)
                           (of_int glyph_width_with_horiz_filter_padding));
                      top := to_int16 glyph_pos_y_px;
                      bottom := to_int16 (fadd glyph_pos_y_px (of_int glyph_height)) |};
                 subpixel_shift := glyph_pos_x_subpixel_shift;
                 rect_tex_coords := tex_coords glyph_atlas_item;
                 color := text_color |}])
       else Ok (rect_buffer st));
    Ok {| current_x := fadd current_x (fmul (of_int glyph_advance_width) font_scale);
          current_y := current_y st;
          prev_codepoint := prev_codepoint;
          atlas := atl;
          rect_buffer := rects |}.

(** The loop body, run on the code points of a text one after the other. *)
Definition layout_codepoints (st : layout_t F) (codepoints : list Z)
    : outcome (layout_t F) :=
  foldl (λ o codepoint, st ← o; layout_body st codepoint) (Ok st) codepoints.

(** The atlas item of a glyph without visual representation, [y0] being
    the top of its bounding box. Reference for the statements below. *)
Definition empty_item (codepoint y0 : Z) : glyph_atlas_item_t :=
  {| filled := true;
     tex_coords := {| left := -1; top := -1; right := -1; bottom := -1 |};
     glyph_index := stbtt_FindGlyphIndex font_info codepoint;
     distance_from_baseline_to_top_px := - y0 |}.

(** Every filled item of the table is one that [fill_atlas_item] makes for
    its code point. Invariant of the statements below. *)
Definition atlas_consistent (atl : atlas_t F) : Prop :=
  ∀ k e, glyph_atlas_items atl !! k = Some e → filled e = true →
    ∃ calls calls', fill_atlas_item calls (Z.of_nat k) = Ok (e, calls').

End Layout.

(** ** A font and numbers to run the layout on

    Floats with integral values, on which every operation below is exact,
    and a font whose glyphs are boxes of 5 by 7 units with a horizontal
    advance of 6 units; the space (glyph 32) is empty, and the pair A V is
    kerned by one unit. *)

#[export] Instance integral_floats : FloatOps Z := {|
  fadd := Z.add; fsub := Z.sub; fmul := Z.mul;
  of_int := λ n, n; to_int16 := int16;
  round := λ x, x; modff := λ x, (0, x)
|}.

(** The glyph box at the given scale, filled with full coverage. *)
Definition sample_bitmap (output : list Z) (offset out_stride scale_x scale_y : Z)
    : list Z :=
  imap (λ i coverage,
          let at_ := Z.of_nat i - offset in
          if (0 <=? at_) && (at_ mod out_stride <? 5 * scale_x)
             && (at_ / out_stride <? 7 * scale_y)
          then 255 else coverage) output.

Definition sample_font : stbtt_fontinfo Z := {|
  stbtt_FindGlyphIndex := λ codepoint, codepoint;
  stbtt_GetGlyphBitmapBox := λ glyph scale_x scale_y,
    if glyph =? 32 then (0, 0, 0, 0) else (0, - (7 * scale_y), 5 * scale_x, 0);
  stbtt_MakeGlyphBitmap := λ output offset out_w out_h out_stride scale_x scale_y glyph,
    sample_bitmap output offset out_stride scale_x scale_y;
  stbtt_GetGlyphHMetrics := λ glyph, (6, 1);
  stbtt_GetCodepointKernAdvance := λ ch1 ch2,
    if (ch1 =? 65) && (ch2 =? 86) then -1 else 0;
  stbtt_MakeGlyphBitmap_length := λ output offset out_w out_h out_stride
    scale_x scale_y glyph, length_imap _ output
|}.

Definition sample_color : color_t := {| r := 218; g := 218; b := 218; a := 255 |}.

(** The state in which the loop over the text starts: pen at (10, 20),
    nothing in the atlas, nothing in the rectangle buffer. *)
Definition sample_start : layout_t Z := {|
  current_x := 10; current_y := 20; prev_codepoint := 0;
  atlas := {| glyph_atlas_items := glyph_atlas_items_init; calls := [] |};
  rect_buffer := []
|}.

(** The state after the given code points were laid out with the sample
    font at font scale 1, line height 12 and left margin 10. *)
Definition sample_state (codepoints : list Z) : layout_t Z :=
  match layout_codepoints sample_font 1 12 10 sample_color sample_start codepoints with
  | Ok st => st
  | _ => sample_start
  end.

(** The glyph bitmap of the sample glyph as the atlas code rasterizes it:
    15 by 7 subpixels of full coverage, 6 subpixels from the left. *)
Definition sample_glyph_bitmap : list Z :=
  stbtt_MakeGlyphBitmap sample_font (replicate (Z.to_nat bitmap_size) 0)
    6 96 32 96 3 1 65.

(** A font in which no glyph has a visual representation, as it is for
    white space and control characters: every bounding box is empty, every
    glyph has a horizontal advance of 6 units, nothing is kerned. *)
Definition blank_font : stbtt_fontinfo Z := {|
  stbtt_FindGlyphIndex := λ codepoint, codepoint;
  stbtt_GetGlyphBitmapBox := λ glyph scale_x scale_y, (0, 0, 0, 0);
  stbtt_MakeGlyphBitmap := λ output offset out_w out_h out_stride scale_x scale_y glyph,
    output;
  stbtt_GetGlyphHMetrics := λ glyph, (6, 0);
  stbtt_GetCodepointKernAdvance := λ ch1 ch2, 0;
  stbtt_MakeGlyphBitmap_length := λ output offset out_w out_h out_stride
    scale_x scale_y glyph, eq_refl
|}.

(** A state in the middle of a line: the pen at (16, 20) behind an A,
    nothing in the atlas, nothing in the rectangle buffer. *)
Definition sample_middle : layout_t Z := {|
  current_x := 16; current_y := 20; prev_codepoint := 65;
  atlas := {| glyph_atlas_items := glyph_atlas_items_init; calls := [] |};
  rect_buffer := []
|}.

End Main.

(** ** Reference for the LCD filter *)

Module Convolution.
Import Main.

(** Every cell of a [uint8_t] array holds a byte. *)
Definition bytes_only (bitmap : list Z) : bool :=
  forallb (λ c, (0 <=? c) && (c <=? 255)) bitmap.

(** The glyph bitmap has coverage only where the rasterizer puts the glyph:
    from subpixel column 6 on, [padded_glyph_width_px - 3] pixels wide, in
    the first [padded_glyph_height_px] rows. *)
Definition blank_outside (glyph_bitmap : list Z)
    (padded_glyph_width_px padded_glyph_height_px : Z) : bool :=
  all_in_range 0 bitmap_size (λ i,
    let x := i mod bitmap_stride in
    let y := i / bitmap_stride in
    ((6 <=? x) && (x <? padded_glyph_width_px * horizontal_resolution - 3)
     && (y <? padded_glyph_height_px))
    || (glyph_bitmap !!! Z.to_nat i =? 0)).

(** The coverage at column [x] of row [y], 0 outside of the row. *)
Definition tap (glyph_bitmap : list Z) (y x : Z) : Z :=
  if (0 <=? x) && (x <? bitmap_stride)
  then glyph_bitmap !!! Z.to_nat (x + y * bitmap_stride) else 0.

(** The FreeType default filter, all five taps, at column [x] of row [y]. *)
Definition convolved (glyph_bitmap : list Z) (y x : Z) : Z :=
  Z.min 255
    ((0x08 * tap glyph_bitmap y (x - 2) + 0x4D * tap glyph_bitmap y (x - 1)
      + 0x56 * tap glyph_bitmap y x
      + 0x4D * tap glyph_bitmap y (x + 1) + 0x08 * tap glyph_bitmap y (x + 2))
     / 255).

End Convolution.

(** ** Reference for the layout *)

Module LayoutRef.
Import Main.

Section Ref.
Context {F : Type} `{FloatOps F}.
Variable font_info : stbtt_fontinfo F.
Variable font_scale : F.

(** The glyph of [codepoint] has a visual representation: its bounding box
    at the font scale is not empty. *)
Definition visible (codepoint : Z) : bool :=
  let '(x0, y0, x1, y1) :=
    stbtt_GetGlyphBitmapBox font_info (stbtt_FindGlyphIndex font_info codepoint)
      font_scale font_scale in
  (0 <? x1 - x0) && (0 <? y1 - y0).

(** The code point gets a rectangle: it is no line feed and its glyph has a
    visual representation. *)
Definition draws (codepoint : Z) : bool :=
  negb (codepoint =? 10) && visible codepoint.

(** The atlas item holds a glyph that was rasterized and uploaded. *)
Definition rasterized (e : glyph_atlas_item_t) : bool :=
  filled e && negb (left (tex_coords e) =? -1).

(** The layout state [st] with another atlas. *)
Definition with_atlas (st : layout_t F) (atl : atlas_t F) : layout_t F :=
  {| current_x := current_x st;
     current_y := current_y st;
     prev_codepoint := prev_codepoint st;
     atlas := atl;
     rect_buffer := rect_buffer st |}.

(** Every filled item of the first atlas is in the second one. *)
Definition atlas_le (atl1 atl2 : atlas_t F) : Prop :=
  ∀ k e, glyph_atlas_items atl1 !! k = Some e → filled e = true →
    glyph_atlas_items atl2 !! k = Some e.

End Ref.

End LayoutRef.

(** * The loop over the text and the draw call of [main] *)

Module Redraw.
Import Utf8 Main.

(** How the block "Redraw if necessary" ends: it returns or the program
    ends in it ([Returned]), the text is dereferenced outside of its
    object, or the model of the loop runs out of fuel. *)
Inductive text_result (A : Type) :=
  | Returned (o : outcome A)
  | TextFaulted
  | TextOutOfFuel.
Arguments Returned {A} _.
Arguments TextFaulted {A}.
Arguments TextOutOfFuel {A}.

(** The calls that draw the rectangles. *)
Inductive draw_call (F : Type) :=
  | NamedBufferData (size : Z) (data : list (rect_instance_t F))
  | DrawArraysInstanced (first count instancecount : Z).
Arguments NamedBufferData {F} _ _.
Arguments DrawArraysInstanced {F} _ _ _.

(** [sizeof(rect_buffer[0])]: two rectangles of four [int16_t], four
    [uint8_t] and a [float]. *)
Definition sizeof_rect_instance_t : Z := 8 + 8 + 4 + 4.

Section Redraw.
Variable clz_zero : Z.
(** The object that holds the text. *)
Variable mem : list Z.
Context {F : Type} `{FloatOps F}.
Variable font_info : stbtt_fontinfo F.
Variables font_scale line_height baseline pos_x pos_y : F.
Variable text_color : color_t.

(** [for (it = utf8_first(text); it.codepoint != 0; it = utf8_next(it))]
    with its body. [fuel] bounds the number of calls of [utf8_next]. *)
Fixpoint layout_from (fuel : nat) (it : utf8_iterator_t) (st : layout_t F)
    : text_result (layout_t F) :=
  if codepoint it =? 0 then Returned (Ok st)
  else
    match fuel with
    | O => TextOutOfFuel
    | S fuel' =>
        match layout_body font_info font_scale line_height pos_x text_color
                st (codepoint it) with
        | Ok st' =>
            match value (utf8_next clz_zero mem it) with
            | None => TextFaulted
            | Some it' => layout_from fuel' it' st'
            end
        | AssertionFailed => Returned AssertionFailed
        | OutOfBounds => Returned OutOfBounds
        end
    end.

(** The block "Put every glyph in text into rect_buffer", from the place
    where the pen is set up. [rect_buffer_filled] is 0 when the block is
    entered: it starts at 0 and the block that draws resets it. *)
Definition layout_text (fuel : nat) (text : Z) (atl : atlas_t F)
    : text_result (layout_t F) :=
  let st := {| current_x := pos_x;
               current_y := fadd pos_y (round baseline);
               prev_codepoint := 0;
               atlas := atl;
               rect_buffer := [] |} in
  match value (utf8_first clz_zero mem text) with
  | None => TextFaulted
  | Some it => layout_from fuel it st
  end.

(** The block "Draw all the rects in rect_buffer": the upload of the
    filled part of the buffer and the draw call. *)
Definition draw (rect_buffer : list (rect_instance_t F)) : list (draw_call F) :=
  let rect_buffer_filled := Z.of_nat (length rect_buffer) in
  [NamedBufferData (rect_buffer_filled * sizeof_rect_instance_t) rect_buffer;
   DrawArraysInstanced 0 6 rect_buffer_filled].

(** One redraw: the glyph atlas after it and the calls that draw. *)
Definition redraw (fuel : nat) (text : Z) (atl : atlas_t F)
    : text_result (atlas_t F * list (draw_call F)) :=
  match layout_text fuel text atl with
  | Returned (Ok st) => Returned (Ok (atlas st, draw (rect_buffer st)))
  | Returned AssertionFailed => Returned AssertionFailed
  | Returned OutOfBounds => Returned OutOfBounds
  | TextFaulted => TextFaulted
  | TextOutOfFuel => TextOutOfFuel
  end.

End Redraw.

End Redraw.

(** * The listing of a shader source ([gl_load_shader_program]) *)

Module ShaderSource.

Definition INT_MAX : Z := 2 ^ 31 - 1.
(** Conversion to [int] (two's complement). *)
Definition int32 (x : Z) : Z := (x + 2 ^ 31) mod 2 ^ 32 - 2 ^ 31.

(** How [fprint_shader_source_with_line_numbers] ends: it returns after the
    given calls of [fprintf] (line number and the characters that "%.*s"
    prints), it dereferences [source] outside of its object, an [int]
    overflows (which C leaves undefined), or the model runs out of fuel. *)
Inductive listing :=
  | Listed (lines : list (Z * list Z))
  | SourceFault
  | IntOverflow
  | ListingOutOfFuel.

(** What "%.*s" prints of the string [s]: its characters up to the zero
    terminator, at most [precision] of them; all of them when the precision
    is negative. *)
Fixpoint string_chars (precision : nat) (s : list Z) : list Z :=
  match precision, s with
  | S n, c :: s' => if c =? 0 then [] else c :: string_chars n s'
  | _, _ => []
  end.

Definition printf_s (precision : Z) (s : list Z) : list Z :=
  if precision <? 0 then string_chars (length s) s
  else string_chars (Z.to_nat precision) s.

(** [abs(line_number - error_line_number) < 5], undefined when the
    difference or its absolute value is no [int]. *)
Definition near (line_number error_line_number : Z) : option bool :=
  let d := line_number - error_line_number in
  if (- INT_MAX <=? d) && (d <=? INT_MAX) then Some (Z.abs d <? 5) else None.

Section Listing.
(** The object that holds the source. *)
Variable mem : list Z.

Definition char_at (p : Z) : option Z :=
  if p <? 0 then None else mem !! Z.to_nat p.

(** The inner [while] loop, which moves [line_end] on to the next line feed
    or zero terminator. [rest] is the part of the object from [line_end]
    on. *)
Fixpoint line_end_loop (rest : list Z) (line_end : Z) : option Z :=
  match rest with
  | [] => None
  | c :: rest' =>
      if negb ((c =? 10) || (c =? 0)) then line_end_loop rest' (line_end + 1)
      else Some line_end
  end.

(** The outer [while] loop, one round for every line; [fuel] bounds the
    number of rounds. *)
Fixpoint lines_loop (fuel : nat) (error_line_number line_number line_start : Z)
    : listing :=
  match fuel with
  | O => ListingOutOfFuel
  | S fuel' =>
      match char_at line_start with
      | None => SourceFault
      | Some c =>
          if c =? 0 then Listed []
          else
            match line_end_loop (drop (Z.to_nat line_start) mem) line_start with
            | None => SourceFault
            | Some line_end =>
                match (if error_line_number =? -1 then Some true
                       else near line_number error_line_number) with
                | None => IntOverflow
                | Some print =>
                    let out :=
                      if print : bool then
                        [(line_number,
                          printf_s (int32 (line_end - line_start))
                            (drop (Z.to_nat line_start) mem))]
                      else [] in
                    if line_number =? INT_MAX then IntOverflow
                    else
                      match char_at line_end with
                      | None => SourceFault
                      | Some c' =>
                          let line_start :=
                            if c' =? 10 then line_end + 1 else line_end in
                          match lines_loop fuel' error_line_number
                                  (line_number + 1) line_start with
                          | Listed lines => Listed (out ++ lines)
                          | r => r
                          end
                      end
                end
            end
      end
  end.

Definition fprint_shader_source_with_line_numbers
    (fuel : nat) (source error_line_number : Z) : listing :=
  lines_loop fuel error_line_number 1 source.

End Listing.

(** Reference for the statements below: a source text given by its lines,
    [lines] ended by a line feed each and [last] not. *)
Definition clean (line : list Z) : bool :=
  forallb (λ c, negb (c =? 10) && negb (c =? 0)) line.

Definition source_text (lines : list (list Z)) (last : list Z) : list Z :=
  concat (map (λ line, line ++ [10]) lines) ++ last.

Definition all_lines (lines : list (list Z)) (last : list Z) : list (list Z) :=
  lines ++ match last with [] => [] | _ => [last] end.

Fixpoint numbered (n : Z) (lines : list (list Z)) : list (Z * list Z) :=
  match lines with
  | [] => []
  | line :: lines' => (n, line) :: numbered (n + 1) lines'
  end.

(** The lines that are shown for the error line number [e]. *)
Definition shown (e : Z) (numbered_line : Z * list Z) : bool :=
  (e =? -1) || (Z.abs (numbered_line.1 - e) <? 5).

End ShaderSource.

(** * Loading a file: [fload] *)

Module Fload.

Definition SEEK_SET : Z := 0.
Definition SEEK_END : Z := 2.
(** Conversion to [size_t] and to [long] of a 64 bit target. *)
Definition to_size_t (x : Z) : Z := x mod 2 ^ 64.
Definition to_long (x : Z) : Z := (x + 2 ^ 63) mod 2 ^ 64 - 2 ^ 63.

(** The calls of the C library, in program order. [Malloc] records
    whether a block was returned. *)
Inductive libc_call :=
  | Fopen
  | Fseek (offset whence : Z)
  | Ftell
  | Malloc (size : Z) (returned_block : bool)
  | Fread (size nmemb : Z)
  | Fclose
  | Free.

(** What the C library does in a run. Every call yields its result and the
    value of [errno] after it, from its arguments and the value of [errno]
    before it. *)
Record libc := {
  fopen : Z → bool * Z;            (* whether a stream is returned *)
  fseek : Z → Z → Z → Z * Z;
  ftell : Z → Z * Z;
  malloc : Z → Z → bool * Z;       (* whether a block is returned *)
  fread : Z → Z → Z → list Z * Z;  (* the items stored into the block *)
  fclose : Z → Z;
  free : Z → Z
}.

(** A return of [fload]: the block it returns ([None] for [NULL]; a cell of
    the block is [None] as long as nothing was stored into it), what it
    stores into [*size], [errno] after it and the calls it made. *)
Record fload_return := {
  returned : option (list (option Z));
  size_out : option Z;
  errno_after : Z;
  calls_made : list libc_call
}.

Inductive fload_result :=
  | Returns (r : fload_return)
  | OutOfBlock.   (* [data[filesize]] lies outside of the block *)

Section Fload.
Variable L : libc.

(** The label [fail]. *)
Definition fail (error errno : Z) (calls : list libc_call) : fload_result :=
  let error := if error =? -1 then errno else error in
  let errno := fclose L errno in
  let calls := calls ++ [Fclose] in
  let errno := error in
  Returns {| returned := None; size_out := None;
             errno_after := errno; calls_made := calls |}.

(** The label [free_and_fail]. *)
Definition free_and_fail (errno : Z) (calls : list libc_call) : fload_result :=
  let error := errno in
  let errno := free L errno in
  fail error errno (calls ++ [Free]).

(** [fload(filename, size)]; [size_given] tells whether [size] is not
    [NULL], [errno] is the value of [errno] at the call. *)
Definition fload (size_given : bool) (errno : Z) : fload_result :=
  let error := -1 in
  let '(f, errno) := fopen L errno in
  let calls := [Fopen] in
  if negb f then
    Returns {| returned := None; size_out := None;
               errno_after := errno; calls_made := calls |}
  else
    let '(r, errno) := fseek L 0 SEEK_END errno in
    let calls := calls ++ [Fseek 0 SEEK_END] in
    if r =? -1 then fail error errno calls else
    let '(filesize, errno) := ftell L errno in
    let calls := calls ++ [Ftell] in
    if filesize =? -1 then fail error errno calls else
    let '(r, errno) := fseek L 0 SEEK_SET errno in
    let calls := calls ++ [Fseek 0 SEEK_SET] in
    if r =? -1 then fail error errno calls else
    let block_size := to_size_t (filesize + 1) in
    let '(data, errno) := malloc L block_size errno in
    let calls := calls ++ [Malloc block_size data] in
    if negb data then fail error errno calls else
    let '(items, errno) := fread L 1 (to_size_t filesize) errno in
    let calls := calls ++ [Fread 1 (to_size_t filesize)] in
    if negb (to_long (Z.of_nat (length items)) =? filesize) then
      free_and_fail errno calls
    else
      let block :=
        (Some <$> items)
        ++ replicate (Z.to_nat block_size - length items) None in
      let errno := fclose L errno in
      let calls := calls ++ [Fclose] in
      if (0 <=? filesize) && (filesize <? block_size) then
        let block := <[Z.to_nat filesize := Some 0]> block in
        Returns {| returned := Some block;
                   size_out := if size_given : bool
                               then Some (to_size_t filesize) else None;
                   errno_after := errno; calls_made := calls |}
      else OutOfBlock.

End Fload.

(** Two runs of the C library that differ at most in what [fclose] and
    [free] do to [errno]. *)
Definition same_but_cleanup (L1 L2 : libc) : Prop :=
  fopen L1 = fopen L2 ∧ fseek L1 = fseek L2 ∧ ftell L1 = ftell L2 ∧
  malloc L1 = malloc L2 ∧ fread L1 = fread L2.

(** A file of the given content, read without any error; no call touches
    [errno]. *)
Definition sample_libc (content : list Z) : libc := {|
  fopen := λ errno, (true, errno);
  fseek := λ offset whence errno, (0, errno);
  ftell := λ errno, (Z.of_nat (length content), errno);
  malloc := λ size errno, (true, errno);
  fread := λ size nmemb errno, (take (Z.to_nat nmemb) content, errno);
  fclose := λ errno, errno;
  free := λ errno, errno
|}.

(** A file whose content can only be read in part: [fread] delivers
    [delivered] items and leaves [read_errno] in [errno]; [fclose] and
    [free] leave the given values there. *)
Definition short_read_libc (filesize : Z) (delivered : list Z)
    (read_errno close_errno free_errno : Z) : libc := {|
  fopen := λ errno, (true, errno);
  fseek := λ offset whence errno, (0, errno);
  ftell := λ errno, (filesize, errno);
  malloc := λ size errno, (true, errno);
  fread := λ size nmemb errno, (delivered, read_errno);
  fclose := λ errno, close_errno;
  free := λ errno, free_errno
|}.

End Fload.

(** * Compiling and linking the shaders: [gl_load_shader_program] *)

Module ShaderProgram.

Definition GL_FRAGMENT_SHADER : Z := 0x8B30.
Definition GL_VERTEX_SHADER : Z := 0x8B31.
Definition GL_COMPILE_STATUS : Z := 0x8B81.
Definition GL_LINK_STATUS : Z := 0x8B82.
Definition GL_INFO_LOG_LENGTH : Z := 0x8B84.

(** The format strings of the calls of [fprintf]; [fragment] tells which
    [shader_type_name] is printed. *)
Inductive message :=
  | ErrorOnCompiling (fragment : bool)
  | ShaderSourceHeader
  | ErrorOnLinking
  | VertexSourceHeader
  | FragmentSourceHeader.

(** The calls that the function makes, in program order. [Listing] is the
    call of [fprint_shader_source_with_line_numbers]. *)
Inductive gl_call :=
  | CreateProgram
  | CreateShader (type : Z)
  | ShaderSource (shader code : Z)
  | CompileShader (shader : Z)
  | GetShaderiv (shader pname : Z)
  | AttachShader (program shader : Z)
  | DeleteShader (shader : Z)
  | GetShaderInfoLog (shader bufSize : Z)
  | LinkProgram (program : Z)
  | GetProgramiv (program pname : Z)
  | GetProgramInfoLog (program bufSize : Z)
  | DeleteProgram (program : Z)
  | Malloc (size : Z)
  | Free
  | Sscanf
  | Fprintf (what : message)
  | Listing (source error_line_number : Z).

(** What the OpenGL driver answers in a run, and what [sscanf] finds in
    the info log of a shader. *)
Record driver := {
  create_program : Z;
  create_shader : Z → Z;               (* by shader type *)
  compile_status : Z → Z;              (* by shader *)
  shader_info_log_length : Z → Z;
  scanned_line_number : Z → option Z;  (* [None]: no match *)
  link_status : Z → Z;                 (* by program *)
  program_info_log_length : Z → Z
}.

Section Program.
Variable D : driver.

Definition compile_and_attach_shader
    (gl_shader_type code program : Z) (fragment : bool) : bool * list gl_call :=
  let shader := create_shader D gl_shader_type in
  let calls :=
    [CreateShader gl_shader_type; ShaderSource shader code; CompileShader shader;
     GetShaderiv shader GL_COMPILE_STATUS] in
  let is_compiled := compile_status D shader in
  if negb (is_compiled =? 0) then
    (true, calls ++ [AttachShader program shader; DeleteShader shader])
  else
    let log_size := shader_info_log_length D shader in
    let line_number :=
      match scanned_line_number D shader with
      | Some n => n
      | None => -1
      end in
    (false,
     calls ++
     [GetShaderiv shader GL_INFO_LOG_LENGTH; Malloc log_size;
      GetShaderInfoLog shader log_size; Fprintf (ErrorOnCompiling fragment);
      Sscanf; Fprintf ShaderSourceHeader; Listing code line_number; Free;
      DeleteShader shader]).

(** The label [fail]. *)
Definition fail (program : Z) (calls : list gl_call) : Z * list gl_call :=
  (0, calls ++ [DeleteProgram program]).

Definition gl_load_shader_program (vertex_shader_code fragment_shader_code : Z)
    : Z * list gl_call :=
  let program := create_program D in
  let calls := [CreateProgram] in
  let '(compiled, made) :=
    compile_and_attach_shader GL_VERTEX_SHADER vertex_shader_code program false in
  let calls := calls ++ made in
  if negb compiled then fail program calls else
  let '(compiled, made) :=
    compile_and_attach_shader GL_FRAGMENT_SHADER fragment_shader_code program true in
  let calls := calls ++ made in
  if negb compiled then fail program calls else
  let calls := calls ++ [LinkProgram program; GetProgramiv program GL_LINK_STATUS] in
  let is_linked := link_status D program in
  if negb (is_linked =? 0) then (program, calls)
  else
    let log_size := program_info_log_length D program in
    fail program
      (calls ++
       [GetProgramiv program GL_INFO_LOG_LENGTH; Malloc log_size;
        GetProgramInfoLog program log_size; Fprintf ErrorOnLinking; Free;
        Fprintf VertexSourceHeader; Listing vertex_shader_code (-1);
        Fprintf FragmentSourceHeader; Listing fragment_shader_code (-1)]).

End Program.

(** A driver that hands out program 3 and the shaders 1 and 2, compiles
    the vertex shader, and finds an error in line 136 of the fragment
    shader. *)
Definition sample_driver : driver := {|
  create_program := 3;
  create_shader := λ type, if type =? GL_VERTEX_SHADER then 1 else 2;
  compile_status := λ shader, if shader =? 1 then 1 else 0;
  shader_info_log_length := λ shader, 60;
  scanned_line_number := λ shader, Some 136;
  link_status := λ program, 1;
  program_info_log_length := λ program, 0
|}.

End ShaderProgram.

(** * Properties of the UTF-8 iterator *)

Lemma all_in_range_spec lo len P :
  all_in_range lo len P = true → ∀ x, lo ≤ x < lo + len → P x = true.
Proof.
  unfold all_in_range. rewrite forallb_forall. intros H x Hx.
  apply H, list_elem_of_In, elem_of_seqZ. lia.
Qed.

(** [a * 64 + p] is what shifting [a] by six bits and OR-ing six payload
    bits computes. *)
Lemma lor_shiftl6 a p :
  0 ≤ a → 0 ≤ p < 64 → Z.lor (Z.shiftl a 6) p = a * 64 + p.
Proof.
  intros Ha Hp.
  assert (Hland : Z.land (Z.shiftl a 6) p = 0).
  { apply Z.bits_inj'. intros n Hn. rewrite Z.land_spec, Z.bits_0.
    destruct (Z.lt_ge_cases n 6) as [Hlt|Hge].
    - rewrite Z.shiftl_spec_low by lia. reflexivity.
    - rewrite (Z.bits_above_log2 p n), andb_false_r; [reflexivity|lia|].
      destruct (Z.eq_dec p 0) as [->|Hne]; [simpl; lia|].
      apply Z.lt_le_trans with 6; [|lia].
      apply Z.log2_lt_pow2; lia. }
  rewrite <- Z.lxor_lor by exact Hland.
  rewrite <- Z.add_nocarry_lxor by exact Hland.
  rewrite Z.shiftl_mul_pow2 by lia. reflexivity.
Qed.

Module Utf8Facts.
Import Utf8.

Lemma value_bind_Some {A B} (m : Rd A) (f : A → Rd B) (b : B) :
  value (m ≫= f) = Some b ↔ ∃ a, value m = Some a ∧ value (f a) = Some b.
Proof.
  unfold mbind, Rd_bind. destruct (value m) as [a|]; simpl; split.
  - eauto.
  - intros (a' & [= <-] & H). exact H.
  - discriminate.
  - intros (a' & [=] & _).
Qed.

Lemma value_bind_eq {A B} (m : Rd A) (f : A → Rd B) (a : A) :
  value m = Some a → value (m ≫= f) = value (f a).
Proof. unfold mbind, Rd_bind. intros ->. reflexivity. Qed.

Lemma value_deref mem p c :
  value (deref mem p) = Some c ↔ 0 ≤ p ∧ mem !! Z.to_nat p = Some c.
Proof.
  unfold deref; simpl. destruct (Z.ltb_spec p 0); split.
  - discriminate.
  - lia.
  - auto.
  - tauto.
Qed.

Lemma deref_in_object mem p c :
  value (deref mem p) = Some c → 0 ≤ p < Z.of_nat (length mem).
Proof.
  rewrite value_deref. intros [Hp Hc]. apply lookup_lt_Some in Hc. lia.
Qed.

Section Cursor.
Variable clz_zero : Z.
Variable mem : list Z.

Lemma decode_loop_cursor n : ∀ it it',
  value (decode_loop mem n it) = Some it' →
  end_ it' = end_ it ∧ buffer it ≤ buffer it' ≤ buffer it + Z.of_nat n.
Proof.
  induction n as [|n IH]; intros it it'; cbn [decode_loop].
  - intros [= <-]. lia.
  - rewrite value_bind_Some. intros (c & _ & H).
    destruct (Z.land (uint8 c) 192 =? 128).
    + apply IH in H. simpl in H. lia.
    + injection H as <-. simpl. lia.
Qed.

Lemma skip_loop_cursor rest : ∀ it it',
  value (skip_loop rest it) = Some it' →
  end_ it' = end_ it ∧ buffer it ≤ buffer it' ∧
  (buffer it ≤ end_ it → buffer it' ≤ end_ it).
Proof.
  induction rest as [|c rest IH]; intros it it'; cbn [skip_loop].
  - discriminate.
  - rewrite value_bind_Some. intros (c' & [= <-] & H).
    destruct (Z.land c 192 =? 128); simpl in H;
      [destruct (Z.ltb_spec (buffer it) (end_ it))|]; simpl in H.
    + apply IH in H. simpl in H. lia.
    + injection H as <-. lia.
    + injection H as <-. lia.
Qed.

(** One turn of the skip loop, in terms of [deref]. *)
Lemma skip_loop_deref it :
  0 ≤ buffer it →
  skip_loop (drop (Z.to_nat (buffer it)) mem) it =
  (c ← deref mem (buffer it);
   if (Z.land c 0xC0 =? 0x80) && (buffer it <? end_ it) then
     skip_loop (drop (Z.to_nat (buffer it + 1)) mem)
       (set_buffer it (buffer it + 1))
   else mret it).
Proof.
  intros Hpos. unfold deref. destruct (Z.ltb_spec (buffer it) 0); [lia|].
  destruct (mem !! Z.to_nat (buffer it)) as [c|] eqn:Hc.
  - rewrite (drop_S _ _ _ Hc). cbn [skip_loop].
    replace (Z.to_nat (buffer it + 1)) with (S (Z.to_nat (buffer it))) by lia.
    reflexivity.
  - apply lookup_ge_None in Hc. rewrite drop_ge by lia. reflexivity.
Qed.

(** What one call does to the cursor: either it stays on a terminator, or
    the byte under the cursor was inside the object and the cursor moved
    on, without passing the end bound. *)
Lemma utf8_next_cursor it it' :
  value (utf8_next clz_zero mem it) = Some it' →
  end_ it' = end_ it ∧
  ((codepoint it' = 0 ∧ buffer it' = buffer it) ∨
   (0 ≤ buffer it < Z.of_nat (length mem) ∧
    (buffer it ≤ end_ it → buffer it < buffer it' ≤ end_ it))).
Proof.
  unfold utf8_next. cbn [buffer end_ codepoint set_codepoint set_buffer].
  destruct (Z.eqb_spec (buffer it) (end_ it)) as [Heq|Hne].
  { intros [= <-]. simpl. auto. }
  rewrite value_bind_Some. intros (c & Hc & H).
  apply deref_in_object in Hc.
  destruct (uint8 c =? 0).
  { injection H as <-. simpl. auto. }
  destruct (leading_ones_of clz_zero (uint8 c) =? 1); simpl in H.
  - apply value_bind_Some in H as (it1 & H1 & [= <-]).
    apply skip_loop_cursor in H1. simpl in *. split; [tauto|]. right. lia.
  - destruct (Z.leb_spec (buffer it + 1 + (leading_ones_of clz_zero (uint8 c) - 1))
                (end_ it)) as [Hle|Hgt].
    + apply decode_loop_cursor in H. simpl in H. split; [tauto|]. right. lia.
    + injection H as <-. simpl. split; [reflexivity|]. right. lia.
Qed.

(** Termination of the iteration, whatever the bytes are: a call that
    yields a code point other than 0 has moved the cursor to the right
    inside the object. *)
Lemma codepoints_from_fuel fuel : ∀ it,
  0 ≤ buffer it ≤ end_ it →
  Z.max 0 (Z.of_nat (length mem) - buffer it) + 1 ≤ Z.of_nat fuel →
  codepoints_from clz_zero mem fuel it ≠ OutOfFuel.
Proof.
  induction fuel as [|fuel IH]; intros it Hit Hfuel; [lia|].
  cbn [codepoints_from].
  destruct (codepoint it =? 0); [discriminate|].
  destruct (value (utf8_next clz_zero mem it)) as [it'|] eqn:Hnext; [|discriminate].
  apply utf8_next_cursor in Hnext as (Hend & [[Hcp _]|[Hin Hmove]]).
  - destruct fuel; cbn [codepoints_from]; rewrite Hcp; discriminate.
  - specialize (Hmove ltac:(lia)).
    specialize (IH it' ltac:(lia) ltac:(lia)).
    destruct (codepoints_from clz_zero mem fuel it'); congruence.
Qed.

(** *** Runs that stay inside the object *)

Lemma land_uint8_C0 c : Z.land (uint8 c) 0xC0 = Z.land c 0xC0.
Proof.
  unfold uint8. rewrite <- Z.land_ones by lia.
  rewrite <- Z.land_assoc. reflexivity.
Qed.

Lemma zero_not_intermediate c : uint8 c = 0 → Z.land c 0xC0 ≠ 0x80.
Proof. intros H. rewrite <- land_uint8_C0, H. discriminate. Qed.

Lemma halts_at_next stop it c :
  halts_at mem stop (end_ it) → buffer it ≤ stop → buffer it < end_ it →
  mem !! Z.to_nat (buffer it) = Some c → uint8 c ≠ 0 →
  buffer it + 1 ≤ stop.
Proof.
  intros [Hstop [->|(c0 & Hc0 & Hz)]] Hle Hlt Hc Hnz; [lia|].
  destruct (Z.eq_dec (buffer it) stop) as [Heq|]; [|lia].
  rewrite Heq in Hc. congruence.
Qed.

Lemma decode_loop_safe stop n : ∀ it,
  halts_at mem stop (end_ it) → 0 ≤ buffer it ≤ stop →
  buffer it + Z.of_nat n ≤ end_ it →
  ∃ it', value (decode_loop mem n it) = Some it' ∧ buffer it' ≤ stop.
Proof.
  induction n as [|n IH]; intros it Hstop Hbuf Hend; cbn [decode_loop].
  - exists it. split; [reflexivity|lia].
  - destruct (mem !! Z.to_nat (buffer it)) as [c|] eqn:Hc.
    2: { apply lookup_ge_None in Hc. destruct Hstop. lia. }
    rewrite (value_bind_eq _ _ c) by (apply value_deref; split; [lia|exact Hc]).
    destruct (Z.eqb_spec (Z.land (uint8 c) 0xC0) 0x80) as [Hi|Hi].
    + assert (uint8 c ≠ 0) by (intros Hz; rewrite Hz in Hi; discriminate).
      pose proof (halts_at_next stop it c Hstop ltac:(lia) ltac:(lia) Hc H).
      apply IH; simpl; [exact Hstop|lia|lia].
    + eexists. split; [reflexivity|]. simpl. lia.
Qed.

Lemma drop_cons_inv {A} (l : list A) n x l' :
  drop n l = x :: l' → l !! n = Some x ∧ l' = drop (S n) l.
Proof.
  intros H. destruct (l !! n) as [y|] eqn:Hy.
  - rewrite (drop_S _ _ _ Hy) in H. injection H as -> ->. auto.
  - apply lookup_ge_None in Hy. rewrite drop_ge in H by lia. discriminate.
Qed.

Lemma skip_loop_safe stop rest : ∀ it,
  rest = drop (Z.to_nat (buffer it)) mem →
  halts_at mem stop (end_ it) → 0 ≤ buffer it ≤ stop → buffer it ≤ end_ it →
  ∃ it', value (skip_loop rest it) = Some it' ∧ buffer it' ≤ stop.
Proof.
  induction rest as [|c rest IH]; intros it Hrest Hstop Hbuf Hend;
    cbn [skip_loop].
  - destruct (mem !! Z.to_nat (buffer it)) as [y|] eqn:Hy.
    + rewrite (drop_S _ _ _ Hy) in Hrest. discriminate.
    + apply lookup_ge_None in Hy. destruct Hstop. lia.
  - symmetry in Hrest. apply drop_cons_inv in Hrest as [Hc Hrest].
    rewrite (value_bind_eq _ _ c) by reflexivity.
    destruct (Z.eqb_spec (Z.land c 0xC0) 0x80) as [Hi|Hi];
      [destruct (Z.ltb_spec (buffer it) (end_ it)) as [Hlt|Hge]|];
      cbn [andb].
    + assert (uint8 c ≠ 0) by (intros Hz; apply zero_not_intermediate in Hz; lia).
      pose proof (halts_at_next stop it c Hstop ltac:(lia) Hlt Hc H).
      apply IH; simpl; [|exact Hstop|lia|lia].
      rewrite Hrest. f_equal. lia.
    + exists it. split; [reflexivity|lia].
    + exists it. split; [reflexivity|lia].
Qed.

Lemma utf8_next_safe stop it :
  halts_at mem stop (end_ it) → cursor_ok stop it →
  ∃ it', value (utf8_next clz_zero mem it) = Some it' ∧
         end_ it' = end_ it ∧ cursor_ok stop it'.
Proof.
  intros Hstop [Hbuf Hcur].
  assert (Hval : ∃ it', value (utf8_next clz_zero mem it) = Some it' ∧
                        (buffer it' = end_ it ∨ buffer it' ≤ stop)).
  { unfold utf8_next. cbn [buffer end_ codepoint set_codepoint set_buffer].
    destruct (Z.eqb_spec (buffer it) (end_ it)) as [Heq|Hne].
    { eexists. split; [reflexivity|]. simpl. auto. }
    destruct Hcur as [?|Hcur]; [lia|].
    destruct (mem !! Z.to_nat (buffer it)) as [c|] eqn:Hc.
    2: { apply lookup_ge_None in Hc. destruct Hstop. lia. }
    rewrite (value_bind_eq _ _ c) by (apply value_deref; split; [lia|exact Hc]).
    destruct (Z.eqb_spec (uint8 c) 0) as [Hz|Hnz].
    { eexists. split; [reflexivity|]. simpl. auto. }
    pose proof (halts_at_next stop it c Hstop Hcur ltac:(lia) Hc Hnz) as Hnext.
    destruct (leading_ones_of clz_zero (uint8 c) =? 1); cbn [negb].
    - destruct (skip_loop_safe stop _ (set_buffer (set_codepoint it 0) (buffer it + 1))
                  eq_refl Hstop) as (it1 & H1 & Hle); simpl; [lia|lia|].
      rewrite (value_bind_eq _ _ it1) by exact H1.
      eexists. split; [reflexivity|]. simpl. auto.
    - destruct (Z.leb_spec (buffer it + 1 + (leading_ones_of clz_zero (uint8 c) - 1))
                  (end_ it)) as [Hle|Hgt].
      + edestruct (decode_loop_safe stop) as (it1 & H1 & Hle1);
          [..|exists it1; split; [exact H1|auto]]; simpl; [exact Hstop|lia|lia].
      + eexists. split; [reflexivity|]. simpl. auto. }
  destruct Hval as (it' & Hnext & Hpos). exists it'.
  split; [exact Hnext|].
  apply utf8_next_cursor in Hnext as (Hend & Hcases).
  split; [exact Hend|]. unfold cursor_ok. rewrite Hend.
  destruct Hcases as [[_ Hsame]|[_ Hmove]]; [rewrite Hsame|]; intuition lia.
Qed.

Lemma codepoints_from_finishes stop fuel : ∀ it,
  halts_at mem stop (end_ it) → cursor_ok stop it →
  Z.max 0 (Z.of_nat (length mem) - buffer it) + 1 ≤ Z.of_nat fuel →
  ∃ cps, codepoints_from clz_zero mem fuel it = Finished cps.
Proof.
  induction fuel as [|fuel IH]; intros it Hstop Hit Hfuel; [lia|].
  cbn [codepoints_from].
  destruct (codepoint it =? 0); [eauto|].
  destruct (utf8_next_safe stop it Hstop Hit) as (it' & Hnext & Hend & Hit').
  rewrite Hnext.
  apply utf8_next_cursor in Hnext as (_ & [[Hcp _]|[Hin Hmove]]).
  - destruct fuel; cbn [codepoints_from]; rewrite Hcp; eauto.
  - destruct Hit as [Hit _]. specialize (Hmove ltac:(lia)).
    destruct (IH it') as [cps ->]; [rewrite Hend; exact Hstop|exact Hit'|lia|].
    eauto.
Qed.

(** *** Which offsets a call dereferences *)

Lemma reads_bind {A B} (m : Rd A) (f : A → Rd B) :
  reads (m ≫= f) =
  reads m ++ match value m with Some a => reads (f a) | None => [] end.
Proof.
  unfold mbind, Rd_bind. destruct (value m); simpl;
    [reflexivity|rewrite app_nil_r; reflexivity].
Qed.

Lemma decode_loop_reads n : ∀ it,
  buffer it + Z.of_nat n ≤ end_ it →
  Forall (λ p, buffer it ≤ p < end_ it) (reads (decode_loop mem n it)).
Proof.
  induction n as [|n IH]; intros it Hend; cbn [decode_loop].
  - constructor.
  - rewrite reads_bind. apply Forall_app. split.
    + repeat constructor; lia.
    + destruct (value (deref mem (buffer it))) as [c|]; [|constructor].
      destruct (Z.land (uint8 c) 192 =? 128); [|constructor].
      eapply Forall_impl; [|apply IH; simpl; lia]. simpl. intros; lia.
Qed.

Lemma skip_loop_reads rest : ∀ it,
  buffer it ≤ end_ it →
  Forall (λ p, buffer it ≤ p ≤ end_ it) (reads (skip_loop rest it)).
Proof.
  induction rest as [|c rest IH]; intros it Hend; cbn [skip_loop].
  - repeat constructor; lia.
  - rewrite reads_bind. apply Forall_app. split; [repeat constructor; lia|].
    cbn [value].
    destruct (Z.land c 192 =? 128); cbn [andb]; [|constructor].
    destruct (Z.ltb_spec (buffer it) (end_ it)); [|constructor].
    eapply Forall_impl; [|apply IH; simpl; lia]. simpl. intros; lia.
Qed.

(** No call dereferences behind the end bound, and only the loop over
    stray intermediate bytes dereferences the end bound itself. *)
Lemma utf8_next_reads it :
  buffer it ≤ end_ it →
  Forall (λ p, buffer it ≤ p < end_ it ∨
               (p = end_ it ∧ ∃ c, mem !! Z.to_nat (buffer it) = Some c ∧
                                   leading_ones_of clz_zero (uint8 c) = 1))
    (reads (utf8_next clz_zero mem it)).
Proof.
  intros Hend. unfold utf8_next.
  cbn [buffer end_ codepoint set_codepoint set_buffer].
  destruct (Z.eqb_spec (buffer it) (end_ it)) as [Heq|Hne]; [constructor|].
  rewrite reads_bind. apply Forall_app. split.
  { constructor; [left; lia|constructor]. }
  destruct (value (deref mem (buffer it))) as [c|] eqn:Hc; [|constructor].
  apply value_deref in Hc as [Hpos Hc].
  destruct (uint8 c =? 0); [constructor|].
  destruct (Z.eqb_spec (leading_ones_of clz_zero (uint8 c)) 1) as [Hk|Hk];
    cbn [negb].
  - rewrite reads_bind. apply Forall_app. split.
    + eapply Forall_impl; [|apply skip_loop_reads; simpl; lia].
      simpl. intros p Hp.
      destruct (Z.eq_dec p (end_ it)); [right; eauto|left; lia].
    + destruct (value _); constructor.
  - destruct (Z.leb_spec (buffer it + 1 + (leading_ones_of clz_zero (uint8 c) - 1))
                (end_ it)) as [Hle|Hgt]; [|constructor].
    eapply Forall_impl; [|apply decode_loop_reads; simpl; lia].
    simpl. intros; lia.
Qed.

(** *** One call, step by step *)

Lemma utf8_next_lead b e cp0 c k :
  b ≠ e → 0 ≤ b → mem !! Z.to_nat b = Some c → uint8 c ≠ 0 →
  leading_ones_of clz_zero (uint8 c) = k → k ≠ 1 → b + 1 + (k - 1) ≤ e →
  value (utf8_next clz_zero mem (Utf8Iterator b e cp0)) =
  value (decode_loop mem (Z.to_nat (k - 1))
           (Utf8Iterator (b + 1) e (first_byte_data (uint8 c) (8 - 1 - k)))).
Proof.
  intros Hbe Hb Hc Hnz Hk Hk1 Hend.
  unfold utf8_next. cbn [buffer end_ codepoint set_codepoint set_buffer].
  destruct (Z.eqb_spec b e); [contradiction|].
  rewrite (value_bind_eq _ _ c) by (apply value_deref; auto).
  destruct (Z.eqb_spec (uint8 c) 0); [contradiction|].
  rewrite Hk. destruct (Z.eqb_spec k 1); [contradiction|]. cbn [negb].
  destruct (Z.leb_spec (b + 1 + (k - 1)) e); [reflexivity|lia].
Qed.

Lemma decode_loop_step n b e cp c :
  0 ≤ b → mem !! Z.to_nat b = Some c → Z.land (uint8 c) 0xC0 = 0x80 →
  value (decode_loop mem (S n) (Utf8Iterator b e cp)) =
  value (decode_loop mem n
           (Utf8Iterator (b + 1) e
              (Z.lor (uint32 (Z.shiftl cp 6)) (Z.land (uint8 c) 0x3F)))).
Proof.
  intros Hb Hc Hi. cbn [decode_loop buffer].
  rewrite (value_bind_eq _ _ c) by (apply value_deref; auto).
  rewrite Hi. reflexivity.
Qed.

End Cursor.

(** *** Facts about single bytes, checked on every byte of the range *)

Lemma lead_byte_spec clz_zero k x0 x :
  lead_byte_ok k x0 x = true →
  let b := Z.lor x0 x in
  uint8 b = b ∧ b ≠ 0 ∧ leading_ones_of clz_zero b = k ∧
  first_byte_data b (8 - 1 - k) = x.
Proof.
  unfold lead_byte_ok, leading_ones_of, builtin_clz. cbv zeta.
  rewrite !andb_true_iff, !negb_true_iff, !Z.eqb_eq, !Z.eqb_neq.
  intros ((((H1 & H2) & H3) & H4) & H5).
  destruct (Z.eqb_spec (uint32 (Z.shiftl (Z.lnot (Z.lor x0 x)) 24)) 0);
    [contradiction|auto].
Qed.

Lemma ascii_bytes x : 1 ≤ x < 1 + 127 → lead_byte_ok 0 0 x = true.
Proof. apply all_in_range_spec. vm_compute. reflexivity. Qed.

Lemma lead2_bytes x : 0 ≤ x < 0 + 32 → lead_byte_ok 2 0xC0 x = true.
Proof. apply all_in_range_spec. vm_compute. reflexivity. Qed.

Lemma lead3_bytes x : 0 ≤ x < 0 + 16 → lead_byte_ok 3 0xE0 x = true.
Proof. apply all_in_range_spec. vm_compute. reflexivity. Qed.

Lemma lead4_bytes x : 0 ≤ x < 0 + 8 → lead_byte_ok 4 0xF0 x = true.
Proof. apply all_in_range_spec. vm_compute. reflexivity. Qed.

Lemma cont_bytes p :
  0 ≤ p < 0 + 64 →
  let b := Z.lor 0x80 p in
  uint8 b = b ∧ Z.land b 0xC0 = 0x80 ∧ Z.land b 0x3F = p.
Proof.
  intros Hp. assert (H : cont_byte_ok p = true).
  { revert p Hp. apply all_in_range_spec. vm_compute. reflexivity. }
  unfold cont_byte_ok in H. cbv zeta in *.
  rewrite !andb_true_iff, !Z.eqb_eq in H. tauto.
Qed.

Lemma lookup_mid {A} (pre l rest : list A) (q : Z) (i : nat) (x : A) :
  q = Z.of_nat (length pre) + Z.of_nat i → l !! i = Some x →
  (pre ++ l ++ rest) !! Z.to_nat q = Some x.
Proof.
  intros -> Hx.
  replace (Z.to_nat (Z.of_nat (length pre) + Z.of_nat i))
    with (length pre + i)%nat by lia.
  rewrite lookup_app_r by lia.
  replace (length pre + i - length pre)%nat with i by lia.
  apply lookup_app_l_Some, Hx.
Qed.

Lemma shift_in_accumulator a p :
  0 ≤ a < 2 ^ 26 → 0 ≤ p < 64 →
  Z.lor (uint32 (Z.shiftl a 6)) p = a * 64 + p.
Proof.
  intros Ha Hp. unfold uint32.
  rewrite Z.mod_small by (rewrite Z.shiftl_mul_pow2 by lia; lia).
  apply lor_shiftl6; lia.
Qed.

Lemma land_3F c : Z.land c 0x3F = c mod 64.
Proof. change 0x3F with (Z.ones 6). rewrite Z.land_ones by lia. reflexivity. Qed.

(** Decoding what [utf8_encode] produced, at any place of a buffer whose
    end bound lies behind the encoded bytes. *)
Lemma utf8_next_encode clz_zero c pre rest e cp0 :
  0 < c ≤ 0x10FFFF →
  Z.of_nat (length pre) + Z.of_nat (length (utf8_encode c)) ≤ e →
  value (utf8_next clz_zero (pre ++ utf8_encode c ++ rest)
           (Utf8Iterator (Z.of_nat (length pre)) e cp0)) =
  Some (Utf8Iterator (Z.of_nat (length pre) + Z.of_nat (length (utf8_encode c))) e c).
Proof.
  intros Hc. unfold utf8_encode.
  destruct (Z.ltb_spec c 0x80) as [H1|H1];
    [|destruct (Z.ltb_spec c 0x800) as [H2|H2];
      [|destruct (Z.ltb_spec c 0x10000) as [H3|H3]]];
    cbn [length]; intros He.
  - destruct (lead_byte_spec clz_zero 0 0 c) as (Hu & Hnz & Hk & Hd);
      [apply ascii_bytes; lia|]. cbv zeta in *. rewrite Z.lor_0_l in *.
    erewrite utf8_next_lead with (c := c) (k := 0);
      [|lia|lia|eapply (lookup_mid _ _ _ _ 0%nat); [lia|reflexivity]
       |rewrite Hu; exact Hnz|rewrite Hu; exact Hk|lia|lia].
    cbn [Z.to_nat Z.sub Z.opp Z.add decode_loop]. rewrite Hu, Hd.
    reflexivity.
  - rewrite !Z.shiftr_div_pow2, !land_3F by lia.
    change (2 ^ 6) with 64.
    destruct (lead_byte_spec clz_zero 2 0xC0 (c / 64)) as (Hu & Hnz & Hk & Hd);
      [apply lead2_bytes; Z.div_mod_to_equations; lia|].
    destruct (cont_bytes (c mod 64)) as (Hu1 & Hi1 & Hp1);
      [Z.div_mod_to_equations; lia|].
    cbv zeta in *.
    erewrite utf8_next_lead with (k := 2);
      [|lia|lia|eapply (lookup_mid _ _ _ _ 0%nat); [lia|reflexivity]
       |rewrite Hu; exact Hnz|rewrite Hu; exact Hk|lia|lia].
    change (Z.to_nat (2 - 1)) with 1%nat.
    erewrite decode_loop_step;
      [|lia|eapply (lookup_mid _ _ _ _ 1%nat); [lia|reflexivity]
       |rewrite Hu1; exact Hi1].
    cbn [decode_loop]. rewrite Hu, Hd, Hu1, Hp1.
    rewrite shift_in_accumulator by (Z.div_mod_to_equations; lia).
    cbn [value mret Rd_ret]. f_equal. f_equal; Z.div_mod_to_equations; lia.
  - rewrite !Z.shiftr_div_pow2, !land_3F by lia.
    change (2 ^ 6) with 64. change (2 ^ 12) with 4096.
    destruct (lead_byte_spec clz_zero 3 0xE0 (c / 4096)) as (Hu & Hnz & Hk & Hd);
      [apply lead3_bytes; Z.div_mod_to_equations; lia|].
    destruct (cont_bytes ((c / 64) mod 64)) as (Hu1 & Hi1 & Hp1);
      [Z.div_mod_to_equations; lia|].
    destruct (cont_bytes (c mod 64)) as (Hu2 & Hi2 & Hp2);
      [Z.div_mod_to_equations; lia|].
    cbv zeta in *.
    erewrite utf8_next_lead with (k := 3);
      [|lia|lia|eapply (lookup_mid _ _ _ _ 0%nat); [lia|reflexivity]
       |rewrite Hu; exact Hnz|rewrite Hu; exact Hk|lia|lia].
    change (Z.to_nat (3 - 1)) with 2%nat.
    erewrite decode_loop_step;
      [|lia|eapply (lookup_mid _ _ _ _ 1%nat); [lia|reflexivity]
       |rewrite Hu1; exact Hi1].
    erewrite decode_loop_step;
      [|lia|eapply (lookup_mid _ _ _ _ 2%nat); [lia|reflexivity]
       |rewrite Hu2; exact Hi2].
    cbn [decode_loop]. rewrite Hu, Hd, Hu1, Hp1, Hu2, Hp2.
    rewrite (shift_in_accumulator (c / 4096)) by (Z.div_mod_to_equations; lia).
    rewrite shift_in_accumulator by (Z.div_mod_to_equations; lia).
    cbn [value mret Rd_ret]. f_equal. f_equal; Z.div_mod_to_equations; lia.
  - rewrite !Z.shiftr_div_pow2, !land_3F by lia.
    change (2 ^ 6) with 64. change (2 ^ 12) with 4096.
    change (2 ^ 18) with 262144.
    destruct (lead_byte_spec clz_zero 4 0xF0 (c / 262144)) as (Hu & Hnz & Hk & Hd);
      [apply lead4_bytes; Z.div_mod_to_equations; lia|].
    destruct (cont_bytes ((c / 4096) mod 64)) as (Hu1 & Hi1 & Hp1);
      [Z.div_mod_to_equations; lia|].
    destruct (cont_bytes ((c / 64) mod 64)) as (Hu2 & Hi2 & Hp2);
      [Z.div_mod_to_equations; lia|].
    destruct (cont_bytes (c mod 64)) as (Hu3 & Hi3 & Hp3);
      [Z.div_mod_to_equations; lia|].
    cbv zeta in *.
    erewrite utf8_next_lead with (k := 4);
      [|lia|lia|eapply (lookup_mid _ _ _ _ 0%nat); [lia|reflexivity]
       |rewrite Hu; exact Hnz|rewrite Hu; exact Hk|lia|lia].
    change (Z.to_nat (4 - 1)) with 3%nat.
    erewrite decode_loop_step;
      [|lia|eapply (lookup_mid _ _ _ _ 1%nat); [lia|reflexivity]
       |rewrite Hu1; exact Hi1].
    erewrite decode_loop_step;
      [|lia|eapply (lookup_mid _ _ _ _ 2%nat); [lia|reflexivity]
       |rewrite Hu2; exact Hi2].
    erewrite decode_loop_step;
      [|lia|eapply (lookup_mid _ _ _ _ 3%nat); [lia|reflexivity]
       |rewrite Hu3; exact Hi3].
    cbn [decode_loop]. rewrite Hu, Hd, Hu1, Hp1, Hu2, Hp2, Hu3, Hp3.
    rewrite (shift_in_accumulator (c / 262144)) by (Z.div_mod_to_equations; lia).
    rewrite (shift_in_accumulator (c / 262144 * 64 + _))
      by (Z.div_mod_to_equations; lia).
    rewrite shift_in_accumulator by (Z.div_mod_to_equations; lia).
    cbn [value mret Rd_ret]. f_equal. f_equal; Z.div_mod_to_equations; lia.
Qed.

(** *** A run of stray intermediate bytes up to the end bound *)

Lemma intermediate_bytes b :
  0 ≤ b < 0 + 256 →
  (Z.land b 0xC0 =? 0x80) = true →
  b ≠ 0 ∧ uint32 (Z.shiftl (Z.lnot b) 24) ≠ 0 ∧
  31 - Z.log2 (uint32 (Z.shiftl (Z.lnot b) 24)) = 1.
Proof.
  intros Hb Hi.
  assert (Hall : (negb (Z.land b 0xC0 =? 0x80)
                  || (negb (b =? 0)
                      && negb (uint32 (Z.shiftl (Z.lnot b) 24) =? 0)
                      && (31 - Z.log2 (uint32 (Z.shiftl (Z.lnot b) 24)) =? 1)))
                 = true).
  { revert b Hb Hi. intros b Hb _. revert b Hb.
    apply all_in_range_spec. vm_compute. reflexivity. }
  rewrite Hi in Hall. cbn [negb orb] in Hall.
  rewrite !andb_true_iff, !negb_true_iff, !Z.eqb_neq, Z.eqb_eq in Hall. tauto.
Qed.

Lemma skip_loop_reaches_end seg rest : ∀ it,
  Forall (λ c, Z.land c 0xC0 = 0x80) seg →
  end_ it = buffer it + Z.of_nat (length seg) →
  end_ it ∈ reads (skip_loop (seg ++ rest) it).
Proof.
  induction seg as [|c seg IH]; intros it Hseg Hend.
  - cbn [length] in Hend. replace (end_ it) with (buffer it) by lia.
    destruct rest; cbn [app skip_loop].
    + apply list_elem_of_here.
    + rewrite reads_bind. apply list_elem_of_here.
  - inversion_clear Hseg as [|? ? Hc Hseg']. cbn [app skip_loop length] in *.
    rewrite reads_bind. cbn [reads value app].
    apply list_elem_of_further.
    rewrite Hc, Z.eqb_refl. cbn [andb].
    destruct (Z.ltb_spec (buffer it) (end_ it)); [|lia].
    apply (IH (set_buffer it (buffer it + 1))); [exact Hseg'|]. simpl. lia.
Qed.

(** Whenever the bytes from the cursor to the end bound are all stray
    intermediate bytes, the call dereferences the end bound. *)
Lemma utf8_next_stray_run_reads_end clz_zero pre seg rest cp0 :
  seg ≠ [] → Forall (λ c, Z.land c 0xC0 = 0x80) seg →
  Z.of_nat (length pre) + Z.of_nat (length seg) ∈
  reads (utf8_next clz_zero (pre ++ seg ++ rest)
           (Utf8Iterator (Z.of_nat (length pre))
              (Z.of_nat (length pre) + Z.of_nat (length seg)) cp0)).
Proof.
  intros Hne Hseg. destruct seg as [|c seg]; [contradiction|].
  inversion_clear Hseg as [|? ? Hc Hseg']. cbn [length] in *.
  unfold utf8_next. cbn [buffer end_ codepoint set_codepoint set_buffer].
  destruct (Z.eqb_spec (Z.of_nat (length pre))
              (Z.of_nat (length pre) + Z.of_nat (S (length seg)))); [lia|].
  rewrite reads_bind. apply list_elem_of_further.
  assert (Hlook : (pre ++ (c :: seg) ++ rest) !! Z.to_nat (Z.of_nat (length pre))
                  = Some c)
    by (apply (lookup_mid _ _ _ _ 0%nat); [lia|reflexivity]).
  rewrite (proj2 (value_deref _ _ c)) by (split; [lia|exact Hlook]).
  destruct (intermediate_bytes (uint8 c)) as (Hnz & Hw & Hk).
  { unfold uint8. pose proof (Z.mod_pos_bound c (2 ^ 8)). lia. }
  { rewrite land_uint8_C0. apply Z.eqb_eq, Hc. }
  destruct (Z.eqb_spec (uint8 c) 0); [contradiction|].
  unfold leading_ones_of, builtin_clz.
  destruct (Z.eqb_spec (uint32 (Z.shiftl (Z.lnot (uint8 c)) 24)) 0);
    [contradiction|].
  rewrite Hk. cbn [Z.eqb Pos.eqb negb]. rewrite reads_bind.
  apply elem_of_app. left.
  replace (drop (Z.to_nat (Z.of_nat (length pre) + 1)) (pre ++ (c :: seg) ++ rest))
    with (seg ++ rest).
  - apply (skip_loop_reaches_end seg rest
             (Utf8Iterator (Z.of_nat (length pre) + 1)
                (Z.of_nat (length pre) + Z.of_nat (S (length seg))) 0));
      [exact Hseg'|]. simpl. lia.
  - replace (Z.to_nat (Z.of_nat (length pre) + 1)) with (length (pre ++ [c]))
      by (rewrite length_app; simpl; lia).
    change ((c :: seg) ++ rest) with ([c] ++ (seg ++ rest)).
    rewrite app_assoc, drop_app_length. reflexivity.
Qed.

(** *** The claims about the iterator *)

(** C3, at the input that breaks it: a buffer that ends in a stray
    intermediate byte. The skip loop evaluates [*(it.buffer)] before it
    compares the cursor with the end bound, so offset 1, the end bound, is
    dereferenced; when the object ends with the buffer that dereference
    leaves the object. *)
Theorem utf8_next_skip_derefs_end_bound (clz_zero : Z) :
  reads (utf8_next clz_zero [0x80] (Utf8Iterator 0 1 0)) = [0; 1] ∧
  value (utf8_next clz_zero [0x80] (Utf8Iterator 0 1 0)) = None ∧
  reads (utf8_next clz_zero [0x80; 0x41] (Utf8Iterator 0 1 0)) = [0; 1] ∧
  value (utf8_next clz_zero [0x80; 0x41] (Utf8Iterator 0 1 0)) =
    Some (Utf8Iterator 1 1 0xFFFD).
Proof. repeat split; reflexivity. Qed.

(** C4 as stated fails: the bytes 0xC0 0x80 do not decode to U+FFFD. *)
Lemma utf8_next_C0_80_not_replacement :
  ¬ ∃ it', value (utf8_next 32 [0xC0; 0x80] (Utf8Iterator 0 2 0)) = Some it' ∧
           codepoint it' = 0xFFFD.
Proof. intros (it' & [= <-] & Hcp). discriminate Hcp. Qed.

(** C4, amended: the bytes 0xC0 0x80 decode to the code point 0 (there is
    no check for overlong forms), and the cursor is left on the byte that
    follows the two bytes. *)
Theorem utf8_next_C0_80 (clz_zero : Z) (pre rest : list Z) (e cp0 : Z) :
  Z.of_nat (length pre) + 2 ≤ e →
  value (utf8_next clz_zero (pre ++ [0xC0; 0x80] ++ rest)
           (Utf8Iterator (Z.of_nat (length pre)) e cp0)) =
  Some (Utf8Iterator (Z.of_nat (length pre) + 2) e 0).
Proof.
  intros He.
  erewrite utf8_next_lead with (c := 0xC0) (k := 2);
    [|lia|lia|eapply (lookup_mid _ _ _ _ 0%nat); [lia|reflexivity]
     |discriminate|reflexivity|lia|lia].
  change (Z.to_nat (2 - 1)) with 1%nat.
  erewrite decode_loop_step with (c := 0x80);
    [|lia|eapply (lookup_mid _ _ _ _ 1%nat); [lia|reflexivity]|reflexivity].
  cbn [decode_loop value mret Rd_ret]. f_equal. f_equal. lia.
Qed.

Lemma utf8_next_C0_80_witness :
  value (utf8_next 32 ([0x41] ++ [0xC0; 0x80] ++ [0x42; 0])
           (Utf8Iterator 1 UINTPTR_MAX 0x41)) =
  Some (Utf8Iterator 3 UINTPTR_MAX 0).
Proof.
  apply (utf8_next_C0_80 32 [0x41] [0x42; 0] UINTPTR_MAX 0x41).
  vm_compute. discriminate.
Defined.

(** C7 as stated fails at U+0000: its encoding is the zero byte, on which
    the cursor does not move. *)
Lemma utf8_roundtrip_fails_at_NUL :
  unicode_scalar 0 ∧
  value (utf8_next 32 (utf8_encode 0) (Utf8Iterator 0 1 0)) ≠
  Some (Utf8Iterator (0 + Z.of_nat (length (utf8_encode 0))) 1 0).
Proof. split; [unfold unicode_scalar; lia|]. discriminate. Qed.

(** C7, amended: for every Unicode scalar value other than U+0000, decoding
    its canonical UTF-8 encoding yields that value and advances the cursor
    by the number of encoded bytes. *)
Theorem utf8_roundtrip_nonzero (clz_zero : Z) (c : Z) (pre rest : list Z)
    (e cp0 : Z) :
  unicode_scalar c → c ≠ 0 →
  Z.of_nat (length pre) + Z.of_nat (length (utf8_encode c)) ≤ e →
  value (utf8_next clz_zero (pre ++ utf8_encode c ++ rest)
           (Utf8Iterator (Z.of_nat (length pre)) e cp0)) =
  Some (Utf8Iterator
          (Z.of_nat (length pre) + Z.of_nat (length (utf8_encode c))) e c).
Proof.
  intros [Hc _] Hnz. apply utf8_next_encode. lia.
Qed.

Lemma utf8_roundtrip_nonzero_witness :
  value (utf8_next 32 ([0x41] ++ utf8_encode 0x20AC ++ [0])
           (Utf8Iterator 1 UINTPTR_MAX 0)) =
  Some (Utf8Iterator 4 UINTPTR_MAX 0x20AC).
Proof.
  apply (utf8_roundtrip_nonzero 32 0x20AC [0x41] [0] UINTPTR_MAX 0).
  - unfold unicode_scalar. lia.
  - lia.
  - vm_compute. discriminate.
Defined.

(** C10: a call that returns a code point other than 0 has moved the cursor
    strictly to the right; hence the iteration of the layout pass needs no
    more calls than the object has bytes, plus one. It comes to its end on
    a code point 0 for every zero-terminated text (through [utf8_first] and
    for any end bound) and for every end-bounded buffer inside a larger
    object; in general it never runs on. *)
Theorem utf8_iteration_terminates (clz_zero : Z) (mem : list Z) :
  (∀ it it', buffer it ≤ end_ it →
     value (utf8_next clz_zero mem it) = Some it' →
     codepoint it' ≠ 0 → buffer it < buffer it') ∧
  (∀ text z c, Z.of_nat (length mem) ≤ UINTPTR_MAX → 0 ≤ text ≤ z →
     mem !! Z.to_nat z = Some c → uint8 c = 0 →
     ∃ cps, utf8_codepoints clz_zero mem (S (length mem)) text = Finished cps) ∧
  (∀ it z c, 0 ≤ buffer it ≤ end_ it → buffer it ≤ z →
     mem !! Z.to_nat z = Some c → uint8 c = 0 →
     ∃ cps, codepoints_from clz_zero mem (S (length mem)) it = Finished cps) ∧
  (∀ it, 0 ≤ buffer it ≤ end_ it → end_ it < Z.of_nat (length mem) →
     ∃ cps, codepoints_from clz_zero mem (S (length mem)) it = Finished cps) ∧
  (∀ it, 0 ≤ buffer it ≤ end_ it →
     codepoints_from clz_zero mem (S (length mem)) it ≠ OutOfFuel).
Proof.
  assert (Hzero : ∀ it z c, 0 ≤ buffer it ≤ end_ it → buffer it ≤ z →
     mem !! Z.to_nat z = Some c → uint8 c = 0 →
     halts_at mem z (end_ it) ∧ cursor_ok z it).
  { intros it z c Hit Hz Hc Hc0. pose proof (lookup_lt_Some _ _ _ Hc).
    split; [split; [lia|right; eauto]|split; [lia|auto]]. }
  split; [|split; [|split; [|split]]].
  - intros it it' Hit Hnext Hcp.
    apply utf8_next_cursor in Hnext as (_ & [[Hcp0 _]|[_ Hmove]]);
      [contradiction|]. apply Hmove in Hit. lia.
  - intros text z c Hmem Htext Hc Hc0. unfold utf8_codepoints, utf8_first.
    pose proof (lookup_lt_Some _ _ _ Hc) as Hlt.
    destruct (Hzero (Utf8Iterator text UINTPTR_MAX 0) z c) as [Hstop Hok];
      [simpl; lia|simpl; lia|exact Hc|exact Hc0|].
    destruct (utf8_next_safe clz_zero mem z _ Hstop Hok)
      as (it' & -> & Hend & Hok').
    apply (codepoints_from_finishes clz_zero mem z);
      [rewrite Hend; exact Hstop|exact Hok'|destruct Hok'; lia].
  - intros it z c Hit Hz Hc Hc0.
    destruct (Hzero it z c Hit Hz Hc Hc0) as [Hstop Hok].
    apply (codepoints_from_finishes clz_zero mem z); [assumption..|lia].
  - intros it Hit Hend.
    apply (codepoints_from_finishes clz_zero mem (end_ it));
      [split; [lia|auto]|split; [lia|right; lia]|lia].
  - intros it Hit. apply codepoints_from_fuel; [exact Hit|lia].
Qed.

Lemma utf8_iteration_terminates_witness :
  ∃ cps, utf8_codepoints 32 [0x41; 0x80; 0xE2; 0x82; 0xAC; 0xFF; 0x0A; 0]
           (S (length [0x41; 0x80; 0xE2; 0x82; 0xAC; 0xFF; 0x0A; 0])) 0
         = Finished cps.
Proof.
  apply (proj1 (proj2 (utf8_iteration_terminates 32
           [0x41; 0x80; 0xE2; 0x82; 0xAC; 0xFF; 0x0A; 0])) 0 7 0).
  - vm_compute. discriminate.
  - lia.
  - reflexivity.
  - reflexivity.
Defined.

End Utf8Facts.

(** * Properties of the glyph atlas and of the layout loop *)

Module MainFacts.
Import Main.

Lemma int16_small x : - 2 ^ 15 ≤ x < 2 ^ 15 → int16 x = x.
Proof. intros Hx. unfold int16. rewrite Z.mod_small by lia. lia. Qed.

Lemma index_Ok `{Inhabited A} (l : list A) (i : Z) :
  0 ≤ i < Z.of_nat (length l) → index l i = Ok (l !!! Z.to_nat i).
Proof.
  intros Hi. unfold index. destruct (Z.ltb_spec i 0); [lia|].
  destruct (l !! Z.to_nat i) as [x|] eqn:Hx.
  - rewrite (list_lookup_total_correct _ _ _ Hx). reflexivity.
  - apply lookup_ge_None in Hx. lia.
Qed.

Lemma index_Ok_inv {A} (l : list A) (i : Z) (x : A) :
  index l i = Ok x ↔ 0 ≤ i ∧ l !! Z.to_nat i = Some x.
Proof.
  unfold index. destruct (Z.ltb_spec i 0).
  - split; [discriminate|lia].
  - destruct (l !! Z.to_nat i); split; try discriminate.
    + intros [= ->]. auto.
    + intros [_ [= ->]]. reflexivity.
    + intros [_ [=]].
Qed.

Lemma store_Ok_inv {A} (l l' : list A) (i : Z) (x : A) :
  store l i x = Ok l' ↔
  0 ≤ i < Z.of_nat (length l) ∧ l' = <[Z.to_nat i := x]> l.
Proof.
  unfold store.
  destruct (Z.leb_spec 0 i); destruct (Z.ltb_spec i (Z.of_nat (length l)));
    cbn [andb]; split; try discriminate; try lia.
  - intros [= <-]. auto.
  - intros [_ ->]. reflexivity.
Qed.

(** A loop that keeps an invariant runs to its end. *)
Lemma for_steps_inv {St} (Inv : Z → St → Prop) (body : Z → St → outcome St) n :
  ∀ i s,
    Inv i s →
    (∀ j s, i ≤ j < i + Z.of_nat n → Inv j s →
       ∃ s', body j s = Ok s' ∧ Inv (j + 1) s') →
    ∃ s', for_steps n i body s = Ok s' ∧ Inv (i + Z.of_nat n) s'.
Proof.
  induction n as [|n IH]; intros i s Hs Hbody.
  - exists s. split; [reflexivity|]. rewrite Z.add_0_r. exact Hs.
  - destruct (Hbody i s ltac:(lia) Hs) as (s1 & H1 & Hs1).
    destruct (IH (i + 1) s1 Hs1) as (s' & H' & Hs').
    { intros j s2 Hj. apply Hbody. lia. }
    exists s'. cbn [for_steps]. rewrite H1. split; [exact H'|].
    replace (i + Z.of_nat (S n)) with (i + 1 + Z.of_nat n) by lia. exact Hs'.
Qed.

Lemma for_loop_inv {St} (Inv : Z → St → Prop) (body : Z → St → outcome St)
    lo hi s :
  lo ≤ hi → Inv lo s →
  (∀ j s, lo ≤ j < hi → Inv j s → ∃ s', body j s = Ok s' ∧ Inv (j + 1) s') →
  ∃ s', for_loop lo hi body s = Ok s' ∧ Inv hi s'.
Proof.
  intros Hle Hs Hbody. unfold for_loop.
  destruct (for_steps_inv Inv body (Z.to_nat (hi - lo)) lo s Hs) as (s' & H' & Hs').
  { intros j s2 Hj. apply Hbody. lia. }
  exists s'. split; [exact H'|].
  replace (lo + Z.of_nat (Z.to_nat (hi - lo))) with hi in Hs' by lia. exact Hs'.
Qed.

(** ** The LCD filter *)

Section FilterFacts.
Variable glyph_bitmap : list Z.
Variables padded_glyph_width_px padded_glyph_height_px : Z.
Hypothesis glyph_bitmap_size : length glyph_bitmap = Z.to_nat bitmap_size.
Hypothesis padded_width : 4 ≤ padded_glyph_width_px ≤ atlas_item_width.
Hypothesis padded_height : 0 ≤ padded_glyph_height_px ≤ atlas_item_height.

Let x_end := padded_glyph_width_px * horizontal_resolution - 1.

Lemma x_end_range : 11 ≤ x_end ≤ 95.
Proof.
  unfold x_end, horizontal_resolution, atlas_item_width in *. lia.
Qed.

(** The taps of one destination subpixel. *)
Lemma kernel_loop_Ok y x :
  0 ≤ y < padded_glyph_height_px → 4 ≤ x < x_end →
  let taps := if x =? x_end - 1 then 4%nat else 5%nat in
  for_loop (x - 2) ((if x =? x_end - 1 then x + 1 else x + 2) + 1)
    (kernel_body glyph_bitmap padded_glyph_height_px x_end y) (0, 0) =
  Ok (kernel_sum glyph_bitmap y x taps, Z.of_nat taps).
Proof.
  intros Hy Hx taps. pose proof x_end_range as Hxe.
  set (hi := (if x =? x_end - 1 then x + 1 else x + 2) + 1).
  assert (Hhi : hi = x - 2 + Z.of_nat taps).
  { unfold hi, taps. destruct (x =? x_end - 1); lia. }
  assert (Htaps : (taps ≤ 5)%nat).
  { unfold taps. destruct (x =? x_end - 1); lia. }
  assert (Hlast : x - 2 + Z.of_nat taps ≤ x_end + 1).
  { unfold taps. destruct (Z.eqb_spec x (x_end - 1)); lia. }
  destruct (for_loop_inv
    (λ j acc, acc = (kernel_sum glyph_bitmap y x (Z.to_nat (j - (x - 2))),
                     j - (x - 2)))
    (kernel_body glyph_bitmap padded_glyph_height_px x_end y)
    (x - 2) hi (0, 0)) as (acc & Hrun & Hacc).
  - lia.
  - replace (x - 2 - (x - 2)) with 0 by lia. reflexivity.
  - intros j acc Hj ->. eexists. split; [|reflexivity].
    unfold kernel_body.
    replace ((0 <=? j) && (j <? x_end + 1)) with true
      by (symmetry; apply andb_true_iff; lia).
    replace ((0 <=? y) && (y <? padded_glyph_height_px)) with true
      by (symmetry; apply andb_true_iff; lia).
    assert (Hoff : 0 ≤ j + y * bitmap_stride < bitmap_size).
    { unfold bitmap_size, bitmap_stride, atlas_item_height, atlas_item_width,
        horizontal_resolution in *. lia. }
    replace ((0 <=? j + y * bitmap_stride) && (j + y * bitmap_stride <? bitmap_size))
      with true by (symmetry; apply andb_true_iff; lia).
    cbn [assert mbind outcome_bind].
    rewrite (index_Ok glyph_bitmap) by (rewrite glyph_bitmap_size; lia).
    rewrite (index_Ok filter_weights) by (cbn [filter_weights length]; lia).
    cbn [mbind outcome_bind].
    replace (Z.to_nat (j + 1 - (x - 2))) with (S (Z.to_nat (j - (x - 2)))) by lia.
    cbn [kernel_sum].
    replace (x - 2 + Z.of_nat (Z.to_nat (j - (x - 2)))) with j by lia.
    f_equal. f_equal. lia.
  - rewrite Hrun, Hacc. rewrite Hhi.
    replace (x - 2 + Z.of_nat taps - (x - 2)) with (Z.of_nat taps) by lia.
    rewrite Nat2Z.id. reflexivity.
Qed.

(** Comparisons of the loop counters, decided case by case. *)
Ltac cases_of_counters :=
  repeat match goal with
  | |- context [Z.ltb ?a ?b] => destruct (Z.ltb_spec a b)
  | |- context [Z.leb ?a ?b] => destruct (Z.leb_spec a b)
  | |- context [Z.eqb ?a ?b] => destruct (Z.eqb_spec a b)
  end; cbn [andb orb]; try reflexivity; try lia.

Lemma expected_next_column Y X x y :
  ¬ (x = X ∧ y = Y) →
  expected glyph_bitmap padded_glyph_width_px padded_glyph_height_px Y (X + 1) x y =
  expected glyph_bitmap padded_glyph_width_px padded_glyph_height_px Y X x y.
Proof. intros Hne. unfold expected. cbv zeta. cases_of_counters. Qed.

Lemma expected_next_row Y x y :
  expected glyph_bitmap padded_glyph_width_px padded_glyph_height_px (Y + 1) 4 x y =
  expected glyph_bitmap padded_glyph_width_px padded_glyph_height_px Y x_end x y.
Proof. unfold expected. fold x_end. cbv zeta. cases_of_counters. Qed.

Lemma expected_here Y x :
  0 ≤ Y < padded_glyph_height_px → 4 ≤ x < x_end →
  expected glyph_bitmap padded_glyph_width_px padded_glyph_height_px Y (x + 1) x Y =
  filtered glyph_bitmap padded_glyph_width_px Y x.
Proof. intros HY Hx. unfold expected. fold x_end. cbv zeta. cases_of_counters. Qed.

Lemma expected_start x y :
  0 ≤ y →
  expected glyph_bitmap padded_glyph_width_px padded_glyph_height_px 0 4 x y = 0.
Proof. intros Hy. unfold expected. cbv zeta. cases_of_counters. Qed.

Lemma offsets_differ x y x' y' :
  0 ≤ x < bitmap_stride → 0 ≤ y → 0 ≤ x' < bitmap_stride → 0 ≤ y' →
  ¬ (x' = x ∧ y' = y) →
  Z.to_nat (x + y * bitmap_stride) ≠ Z.to_nat (x' + y' * bitmap_stride).
Proof.
  unfold bitmap_stride, atlas_item_width, horizontal_resolution.
  intros Hx Hy Hx' Hy' Hne Heq. apply Hne. lia.
Qed.

Lemma column_body_step y x bmp :
  0 ≤ y < padded_glyph_height_px → 4 ≤ x < x_end →
  bitmap_is glyph_bitmap padded_glyph_width_px padded_glyph_height_px y x bmp →
  ∃ bmp',
    column_body glyph_bitmap padded_glyph_height_px x_end y x bmp = Ok bmp' ∧
    bitmap_is glyph_bitmap padded_glyph_width_px padded_glyph_height_px y (x + 1) bmp'.
Proof.
  intros Hy Hx [Hlen Hbmp]. pose proof x_end_range as Hxe.
  assert (Hstride : bitmap_stride = 96) by reflexivity.
  assert (Hheight : atlas_item_height = 32) by reflexivity.
  assert (Hsize : bitmap_size = 3072) by reflexivity.
  unfold column_body. rewrite (kernel_loop_Ok y x Hy Hx).
  cbn [mbind outcome_bind].
  eexists. split.
  - apply store_Ok_inv. split; [lia|reflexivity].
  - split; [rewrite length_insert; exact Hlen|].
    intros x' y' Hx' Hy'.
    destruct (decide (x' = x ∧ y' = y)) as [[-> ->]|Hne].
    + rewrite list_lookup_insert_eq by lia. f_equal.
      rewrite expected_here by assumption. unfold filtered. fold x_end.
      cbv zeta. f_equal.
      destruct (x =? x_end - 1);
        match goal with |- context [255 <? ?q] => destruct (Z.ltb_spec 255 q) end;
        lia.
    + rewrite list_lookup_insert_ne by (apply offsets_differ; lia || assumption).
      rewrite expected_next_column by assumption. apply Hbmp; assumption.
Qed.

Lemma row_body_step y bmp :
  0 ≤ y < padded_glyph_height_px →
  bitmap_is glyph_bitmap padded_glyph_width_px padded_glyph_height_px y 4 bmp →
  ∃ bmp',
    row_body glyph_bitmap padded_glyph_width_px padded_glyph_height_px y bmp = Ok bmp' ∧
    bitmap_is glyph_bitmap padded_glyph_width_px padded_glyph_height_px (y + 1) 4 bmp'.
Proof.
  intros Hy Hbmp. pose proof x_end_range as Hxe. unfold row_body. fold x_end.
  destruct (for_loop_inv
    (bitmap_is glyph_bitmap padded_glyph_width_px padded_glyph_height_px y)
    (column_body glyph_bitmap padded_glyph_height_px x_end y) 4 x_end bmp)
    as (bmp' & Hrun & Hlen & Hbmp'); [lia|exact Hbmp| |].
  - intros x bmp1 Hx. apply column_body_step; assumption.
  - exists bmp'. split; [exact Hrun|]. split; [exact Hlen|].
    intros x' y' Hx' Hy'. rewrite expected_next_row. apply Hbmp'; assumption.
Qed.

(** The filter runs through all rows, keeping the invariant. *)
Lemma lcd_filter_result :
  ∃ atlas_item_bitmap,
    lcd_filter glyph_bitmap padded_glyph_width_px padded_glyph_height_px
      (replicate (Z.to_nat bitmap_size) 0) = Ok atlas_item_bitmap ∧
    bitmap_is glyph_bitmap padded_glyph_width_px padded_glyph_height_px
      padded_glyph_height_px 4 atlas_item_bitmap.
Proof.
  unfold lcd_filter.
  apply (for_loop_inv
    (λ Y, bitmap_is glyph_bitmap padded_glyph_width_px padded_glyph_height_px Y 4)
    (row_body glyph_bitmap padded_glyph_width_px padded_glyph_height_px)
    0 padded_glyph_height_px (replicate (Z.to_nat bitmap_size) 0)); [lia| |].
  - split; [apply length_replicate|]. intros x y Hx Hy.
    rewrite expected_start by lia. apply lookup_replicate_2.
    unfold bitmap_size, bitmap_stride, atlas_item_height, atlas_item_width,
      horizontal_resolution in *. lia.
  - intros y bmp Hy. apply row_body_step. exact Hy.
Qed.

End FilterFacts.

(** ** The glyph atlas *)

Lemma bind_Ok_inv {A B} (m : outcome A) (f : A → outcome B) (y : B) :
  m ≫= f = Ok y ↔ ∃ x, m = Ok x ∧ f x = Ok y.
Proof.
  destruct m as [x| |]; cbn [mbind outcome_bind]; split.
  - eauto.
  - intros (x' & [= <-] & Hf). exact Hf.
  - discriminate.
  - intros (x' & [=] & _).
  - discriminate.
  - intros (x' & [=] & _).
Qed.

Lemma assert_Ok_inv (c : bool) (u : unit) : assert c = Ok u ↔ c = true.
Proof. destruct c, u; cbn; split; congruence. Qed.

Section AtlasFacts.
Context {F : Type} `{FloatOps F}.
Variable font_info : stbtt_fontinfo F.
Variables font_scale line_height pos_x : F.
Variable text_color : color_t.

Local Abbreviation fill_atlas_item := (fill_atlas_item font_info font_scale).
Local Abbreviation get_or_create := (get_or_create font_info font_scale).
Local Abbreviation layout_body :=
  (layout_body font_info font_scale line_height pos_x text_color).
Local Abbreviation glyph_box codepoint :=
  (stbtt_GetGlyphBitmapBox font_info (stbtt_FindGlyphIndex font_info codepoint)
     font_scale font_scale).

(** The atlas item of a glyph without visual representation. *)
Lemma fill_atlas_item_empty calls codepoint x0 y0 x1 y1 :
  glyph_box codepoint = (x0, y0, x1, y1) →
  x1 - x0 ≤ 0 ∨ y1 - y0 ≤ 0 →
  fill_atlas_item calls codepoint = Ok (empty_item font_info codepoint y0, calls).
Proof.
  intros Hbox Hempty. unfold fill_atlas_item. rewrite Hbox.
  replace ((0 <? x1 - x0) && (0 <? y1 - y0)) with false; [reflexivity|].
  symmetry. apply andb_false_iff. rewrite !Z.ltb_ge. exact Hempty.
Qed.

(** The atlas item of a glyph with visual representation that fits into
    its cell of the atlas. *)
Lemma fill_atlas_item_visible calls codepoint x0 y0 x1 y1 :
  0 ≤ codepoint ≤ 127 →
  glyph_box codepoint = (x0, y0, x1, y1) →
  0 < x1 - x0 → 0 < y1 - y0 →
  3 + (x1 - x0) ≤ atlas_item_width → y1 - y0 ≤ atlas_item_height →
  let atlas_item_x := codepoint mod 16 * 32 in
  let atlas_item_y := codepoint / 16 * 32 in
  let glyph_index := stbtt_FindGlyphIndex font_info codepoint in
  ∃ pixels,
    fill_atlas_item calls codepoint =
    Ok ({| filled := true;
           tex_coords := {| left := atlas_item_x; top := atlas_item_y;
                            right := atlas_item_x + (3 + (x1 - x0));
                            bottom := atlas_item_y + (y1 - y0) |};
           glyph_index := glyph_index;
           distance_from_baseline_to_top_px := - y0 |},
        calls ++
        [MakeGlyphBitmap glyph_index (fmul font_scale (of_int 3)) font_scale;
         TextureSubImage2D atlas_item_x atlas_item_y 32 32 pixels]).
Proof.
  intros Hc Hbox Hw Hh Hfitw Hfith. cbv zeta.
  unfold fill_atlas_item. rewrite Hbox.
  replace ((0 <? x1 - x0) && (0 <? y1 - y0)) with true
    by (symmetry; apply andb_true_iff; lia).
  unfold subpixel_positioning_left_padding, horizontal_filter_padding.
  replace ((1 + 1 + (x1 - x0) + 1 <=? atlas_item_width)
           && (y1 - y0 <=? atlas_item_height)) with true
    by (symmetry; apply andb_true_iff; lia).
  cbn [assert mbind outcome_bind].
  edestruct (lcd_filter_result
    (stbtt_MakeGlyphBitmap font_info (replicate (Z.to_nat bitmap_size) 0)
       ((1 + 1) * horizontal_resolution)
       (atlas_item_width * horizontal_resolution) atlas_item_height
       bitmap_stride (fmul font_scale (of_int horizontal_resolution))
       font_scale (stbtt_FindGlyphIndex font_info codepoint))
    (1 + 1 + (x1 - x0) + 1) (y1 - y0)) as (pixels & -> & _).
  { rewrite stbtt_MakeGlyphBitmap_length. apply length_replicate. }
  { lia. }
  { lia. }
  exists pixels. cbn [mbind outcome_bind].
  change (glyph_atlas_width / atlas_item_width) with 16.
  change (glyph_atlas_height / atlas_item_height) with 16.
  change atlas_item_width with 32 in *. change atlas_item_height with 32 in *.
  change horizontal_resolution with 3.
  rewrite !int16_small by (Z.div_mod_to_equations; lia).
  replace (1 + 1 + (x1 - x0) + 1) with (3 + (x1 - x0)) by lia. reflexivity.
Qed.

Lemma fill_atlas_item_filled calls codepoint item calls' :
  fill_atlas_item calls codepoint = Ok (item, calls') → filled item = true.
Proof.
  unfold fill_atlas_item.
  destruct (glyph_box codepoint) as [[[x0 y0] x1] y1].
  intros Hfill. apply bind_Ok_inv in Hfill as ([tc cs] & _ & [= <- _]).
  reflexivity.
Qed.

(** The two ways through [get_or_create]. *)
Lemma get_or_create_Ok atl codepoint item atl' :
  get_or_create atl codepoint = Ok (item, atl') ↔
  codepoint ≤ 127 ∧ 0 ≤ codepoint ∧
  ∃ e, glyph_atlas_items atl !! Z.to_nat codepoint = Some e ∧
    ((filled e = true ∧ item = e ∧ atl' = atl) ∨
     (filled e = false ∧ ∃ calls',
        fill_atlas_item (calls atl) codepoint = Ok (item, calls') ∧
        atl' = {| glyph_atlas_items :=
                    <[Z.to_nat codepoint := item]> (glyph_atlas_items atl);
                  calls := calls' |})).
Proof.
  unfold get_or_create. rewrite bind_Ok_inv. split.
  - intros (u & Hassert & Hrest).
    apply assert_Ok_inv, Z.leb_le in Hassert.
    apply bind_Ok_inv in Hrest as (e & He & Hrest).
    apply index_Ok_inv in He as [Hpos He].
    split; [exact Hassert|]. split; [exact Hpos|]. exists e. split; [exact He|].
    destruct (filled e).
    + injection Hrest as <- <-. auto.
    + right. split; [reflexivity|].
      apply bind_Ok_inv in Hrest as ([item1 calls1] & Hfill & Hrest).
      apply bind_Ok_inv in Hrest as (items & Hstore & [= <- <-]).
      apply store_Ok_inv in Hstore as [_ ->]. eauto.
  - intros (Hle & Hpos & e & He & Hcases). exists ().
    split; [apply assert_Ok_inv, Z.leb_le, Hle|].
    apply bind_Ok_inv. exists e. split; [apply index_Ok_inv; auto|].
    destruct Hcases as [(-> & -> & ->)|(-> & calls' & Hfill & ->)];
      [reflexivity|].
    apply bind_Ok_inv. exists (item, calls'). split; [exact Hfill|].
    apply bind_Ok_inv. eexists. split; [|reflexivity].
    apply store_Ok_inv. split; [|reflexivity].
    apply lookup_lt_Some in He. lia.
Qed.

Lemma get_or_create_again atl codepoint item atl' :
  get_or_create atl codepoint = Ok (item, atl') →
  get_or_create atl' codepoint = Ok (item, atl').
Proof.
  intros Hget. pose proof Hget as Hfirst.
  apply get_or_create_Ok in Hget
    as (Hle & Hpos & e & He & [(Hf & -> & ->)|(Hf & calls' & Hfill & ->)]).
  - exact Hfirst.
  - apply get_or_create_Ok. split; [exact Hle|]. split; [exact Hpos|].
    exists item. cbn [glyph_atlas_items]. split.
    + apply list_lookup_insert_eq. apply lookup_lt_Some in He. exact He.
    + left. split; [|auto]. eapply fill_atlas_item_filled, Hfill.
Qed.

Lemma get_or_create_keeps_filled atl codepoint item atl' k e :
  get_or_create atl codepoint = Ok (item, atl') →
  glyph_atlas_items atl !! k = Some e → filled e = true →
  glyph_atlas_items atl' !! k = Some e.
Proof.
  intros Hget Hk Hfilled.
  apply get_or_create_Ok in Hget
    as (_ & _ & e0 & He0 & [(_ & _ & ->)|(Hf & calls' & _ & ->)]);
    [exact Hk|].
  cbn [glyph_atlas_items].
  destruct (decide (k = Z.to_nat codepoint)) as [->|Hne].
  - congruence.
  - rewrite list_lookup_insert_ne by congruence. exact Hk.
Qed.

(** ** The body of the layout loop *)

Lemma layout_body_line_feed st :
  layout_body st 10 =
  Ok {| current_x := pos_x;
        current_y := fadd (current_y st) (round line_height);
        prev_codepoint := 10;
        atlas := atlas st;
        rect_buffer := rect_buffer st |}.
Proof. reflexivity. Qed.

Lemma layout_body_glyph st codepoint st' :
  codepoint ≠ 10 → layout_body st codepoint = Ok st' →
  ∃ item atl,
    get_or_create (atlas st) codepoint = Ok (item, atl) ∧
    atlas st' = atl ∧ prev_codepoint st' = codepoint ∧
    current_x st' =
      fadd (kerned_x font_info font_scale st codepoint)
        (fmul (of_int (stbtt_GetGlyphHMetrics font_info (glyph_index item)).1)
           font_scale) ∧
    current_y st' = current_y st.
Proof.
  intros Hlf. unfold layout_body.
  destruct (Z.eqb_spec codepoint 10) as [|_]; [contradiction|].
  rewrite bind_Ok_inv. intros ([item atl] & Hget & Hrest).
  exists item, atl. split; [exact Hget|].
  destruct (stbtt_GetGlyphHMetrics font_info (glyph_index item)) as [adv lsb].
  apply bind_Ok_inv in Hrest as (rects & _ & [= <-]).
  cbn. auto.
Qed.

(** *** The states the layout can be in *)

Lemma atlas_consistent_init calls :
  atlas_consistent font_info font_scale
    {| glyph_atlas_items := glyph_atlas_items_init; calls := calls |}.
Proof.
  intros k e Hk Hfilled. cbn [glyph_atlas_items] in Hk.
  apply lookup_replicate in Hk as [-> _]. discriminate.
Qed.

Lemma get_or_create_consistent atl codepoint item atl' :
  atlas_consistent font_info font_scale atl →
  get_or_create atl codepoint = Ok (item, atl') →
  atlas_consistent font_info font_scale atl' ∧
  length (glyph_atlas_items atl') = length (glyph_atlas_items atl).
Proof.
  intros Hatl Hget.
  apply get_or_create_Ok in Hget
    as (_ & Hpos & e0 & He0 & [(_ & _ & ->)|(Hf & calls' & Hfill & ->)]);
    [auto|].
  cbn [glyph_atlas_items]. split; [|apply length_insert].
  intros k e Hk Hfilled. cbn [glyph_atlas_items] in Hk.
  destruct (decide (k = Z.to_nat codepoint)) as [->|Hne].
  - rewrite list_lookup_insert_eq in Hk by (apply lookup_lt_Some in He0; exact He0).
    injection Hk as <-. rewrite Z2Nat.id by exact Hpos. eauto.
  - rewrite list_lookup_insert_ne in Hk by congruence. eapply Hatl; eassumption.
Qed.

Lemma layout_body_consistent st codepoint st' :
  atlas_consistent font_info font_scale (atlas st) →
  layout_body st codepoint = Ok st' →
  atlas_consistent font_info font_scale (atlas st') ∧
  length (glyph_atlas_items (atlas st')) = length (glyph_atlas_items (atlas st)).
Proof.
  intros Hatl Hstep. destruct (Z.eq_dec codepoint 10) as [->|Hne].
  - rewrite layout_body_line_feed in Hstep. injection Hstep as <-. auto.
  - apply layout_body_glyph in Hstep as (item & atl & Hget & <- & _);
      [|exact Hne].
    eapply get_or_create_consistent; eassumption.
Qed.

(** Whatever text is laid out, starting with the table as it is
    initialized: the table keeps its 127 items and stays consistent. *)
Lemma layout_codepoints_consistent codepoints : ∀ st st',
  atlas_consistent font_info font_scale (atlas st) →
  layout_codepoints font_info font_scale line_height pos_x text_color st codepoints
    = Ok st' →
  atlas_consistent font_info font_scale (atlas st') ∧
  length (glyph_atlas_items (atlas st')) = length (glyph_atlas_items (atlas st)).
Proof.
  unfold layout_codepoints.
  induction codepoints as [|c cs IH] using rev_ind; intros st st' Hatl.
  - intros [= <-]. auto.
  - rewrite foldl_app. cbn [foldl]. rewrite bind_Ok_inv.
    intros (st1 & Hcs & Hstep).
    destruct (IH st st1 Hatl Hcs) as [Hatl1 Hlen1].
    destruct (layout_body_consistent st1 c st' Hatl1 Hstep) as [Hatl' Hlen'].
    split; [exact Hatl'|congruence].
Qed.

(** In a consistent atlas the item of a glyph without visual representation
    is either not filled yet or the empty item. *)
Lemma consistent_empty_item atl codepoint e x0 y0 x1 y1 :
  atlas_consistent font_info font_scale atl → 0 ≤ codepoint →
  glyph_atlas_items atl !! Z.to_nat codepoint = Some e →
  glyph_box codepoint = (x0, y0, x1, y1) →
  x1 - x0 ≤ 0 ∨ y1 - y0 ≤ 0 →
  filled e = false ∨ e = empty_item font_info codepoint y0.
Proof.
  intros Hatl Hpos He Hbox Hempty.
  destruct (filled e) eqn:Hf; [right|left; reflexivity].
  destruct (Hatl _ _ He Hf) as (calls & calls' & Hfill).
  rewrite Z2Nat.id in Hfill by exact Hpos.
  rewrite (fill_atlas_item_empty calls codepoint x0 y0 x1 y1 Hbox Hempty) in Hfill.
  congruence.
Qed.

(** ** The claims about the atlas and the layout *)

(** C1, amended: on a line feed the loop body does set [prev_codepoint],
    to the line feed, as for every other code point; it resets the pen to
    the left margin and moves it down by the rounded line height. The
    kerning of the glyph after the line break is looked up for the pair
    (line feed, glyph): nothing of the state after the line feed depends on
    the glyph before it. *)
Theorem line_feed_is_prev_codepoint :
  (∀ st, layout_body st 10 =
     Ok {| current_x := pos_x;
           current_y := fadd (current_y st) (round line_height);
           prev_codepoint := 10;
           atlas := atlas st;
           rect_buffer := rect_buffer st |}) ∧
  (∀ st st1 codepoint st2,
     layout_body st 10 = Ok st1 → codepoint ≠ 10 →
     layout_body st1 codepoint = Ok st2 →
     ∃ glyph_advance_width,
       current_x st2 =
       fadd (fadd pos_x
               (fmul (of_int (stbtt_GetCodepointKernAdvance font_info 10 codepoint))
                  font_scale))
         (fmul (of_int glyph_advance_width) font_scale)).
Proof.
  split; [exact layout_body_line_feed|].
  intros st st1 codepoint st2 Hlf Hne Hstep.
  rewrite layout_body_line_feed in Hlf. injection Hlf as <-.
  apply layout_body_glyph in Hstep as (item & atl & _ & _ & _ & Hx & _);
    [|exact Hne].
  eexists. exact Hx.
Qed.

(** C2, at the input that breaks it: code point 127 passes
    [assert(codepoint <= 127)] (128 is the first one that does not) and
    then indexes the table of 127 atlas items behind its last item. *)
Theorem codepoint_127_out_of_bounds atl :
  length (glyph_atlas_items atl) = 127%nat →
  assert (127 <=? 127) = Ok () ∧
  get_or_create atl 127 = OutOfBounds ∧
  get_or_create atl 128 = AssertionFailed.
Proof.
  intros Hlen. split; [reflexivity|]. split; [|reflexivity].
  unfold get_or_create, index. cbn [assert Z.leb Z.compare Pos.compare
    Pos.compare_cont mbind outcome_bind Z.ltb].
  rewrite (lookup_ge_None_2 (glyph_atlas_items atl) (Z.to_nat 127)) by lia.
  reflexivity.
Qed.

(** C5, amended: on a cache miss the bounding box of the glyph is asked for
    at the font scale in both directions, so the width that ends up in the
    atlas item is the width in whole pixels plus three pixels of padding;
    only the rasterization that follows is done at three times the font
    scale horizontally. *)
Theorem glyph_box_at_font_scale atl codepoint e x0 y0 x1 y1 :
  0 ≤ codepoint ≤ 127 →
  glyph_atlas_items atl !! Z.to_nat codepoint = Some e → filled e = false →
  stbtt_GetGlyphBitmapBox font_info (stbtt_FindGlyphIndex font_info codepoint)
    font_scale font_scale = (x0, y0, x1, y1) →
  0 < x1 - x0 → 0 < y1 - y0 →
  3 + (x1 - x0) ≤ atlas_item_width → y1 - y0 ≤ atlas_item_height →
  ∃ item atl' pixels,
    get_or_create atl codepoint = Ok (item, atl') ∧
    right (tex_coords item) - left (tex_coords item) = 3 + (x1 - x0) ∧
    bottom (tex_coords item) - top (tex_coords item) = y1 - y0 ∧
    calls atl' =
      calls atl ++
      [MakeGlyphBitmap (stbtt_FindGlyphIndex font_info codepoint)
         (fmul font_scale (of_int 3)) font_scale;
       TextureSubImage2D (codepoint mod 16 * 32) (codepoint / 16 * 32) 32 32
         pixels].
Proof.
  intros Hc He Hf Hbox Hw Hh Hfitw Hfith.
  destruct (fill_atlas_item_visible (calls atl) codepoint x0 y0 x1 y1
              Hc Hbox Hw Hh Hfitw Hfith) as (pixels & Hfill).
  eexists _, _, pixels. split.
  - apply get_or_create_Ok. split; [lia|]. split; [lia|].
    exists e. split; [exact He|]. right. split; [exact Hf|].
    eexists. split; [exact Hfill|reflexivity].
  - cbn. split; [lia|]. split; [lia|reflexivity].
Qed.

(** C8: asking for the atlas item of a code point a second time gives the
    same item and leaves the atlas as it is, the calls made for
    rasterization and upload included; no call of [get_or_create] and no
    step of the layout changes an item of the table that is filled. *)
Theorem get_or_create_idempotent :
  (∀ atl codepoint item atl',
     get_or_create atl codepoint = Ok (item, atl') →
     get_or_create atl' codepoint = Ok (item, atl')) ∧
  (∀ atl codepoint item atl' k e,
     get_or_create atl codepoint = Ok (item, atl') →
     glyph_atlas_items atl !! k = Some e → filled e = true →
     glyph_atlas_items atl' !! k = Some e) ∧
  (∀ st codepoint st' k e,
     layout_body st codepoint = Ok st' →
     glyph_atlas_items (atlas st) !! k = Some e → filled e = true →
     glyph_atlas_items (atlas st') !! k = Some e).
Proof.
  split; [exact get_or_create_again|].
  split; [exact get_or_create_keeps_filled|].
  intros st codepoint st' k e Hstep Hk Hfilled.
  destruct (Z.eq_dec codepoint 10) as [->|Hne].
  - rewrite layout_body_line_feed in Hstep. injection Hstep as <-. exact Hk.
  - apply layout_body_glyph in Hstep as (item & atl & Hget & <- & _);
      [|exact Hne].
    eapply get_or_create_keeps_filled; eassumption.
Qed.

(** C9, amended: a code point other than the line feed, inside the table,
    whose glyph has a bounding box without width or without height, and
    whose atlas item is not filled yet or was filled by this very step
    before: the step leaves the atlas item filled with texture coordinates
    -1, makes no call for rasterization or upload, adds no rectangle, and
    moves the pen from where it was by the kerning with the code point
    before (if there is one, that is if [prev_codepoint] is not 0) and by
    the advance width of the glyph, both times the font scale; the pen
    stays on its line and the code point is remembered for the kerning of
    the next one. *)
Theorem empty_glyph_step st codepoint e x0 y0 x1 y1 :
  0 ≤ codepoint ≤ 127 → codepoint ≠ 10 →
  glyph_atlas_items (atlas st) !! Z.to_nat codepoint = Some e →
  filled e = false ∨ e = empty_item font_info codepoint y0 →
  stbtt_GetGlyphBitmapBox font_info (stbtt_FindGlyphIndex font_info codepoint)
    font_scale font_scale = (x0, y0, x1, y1) →
  x1 - x0 ≤ 0 ∨ y1 - y0 ≤ 0 →
  ∃ st',
    layout_body st codepoint = Ok st' ∧
    glyph_atlas_items (atlas st') !! Z.to_nat codepoint =
      Some {| filled := true;
              tex_coords := {| left := -1; top := -1; right := -1; bottom := -1 |};
              glyph_index := stbtt_FindGlyphIndex font_info codepoint;
              distance_from_baseline_to_top_px := - y0 |} ∧
    calls (atlas st') = calls (atlas st) ∧
    rect_buffer st' = rect_buffer st ∧
    current_x st' =
      fadd (if negb (prev_codepoint st =? 0)
            then fadd (current_x st)
                   (fmul (of_int (stbtt_GetCodepointKernAdvance font_info
                                    (prev_codepoint st) codepoint)) font_scale)
            else current_x st)
        (fmul (of_int (stbtt_GetGlyphHMetrics font_info
                         (stbtt_FindGlyphIndex font_info codepoint)).1)
           font_scale) ∧
    current_y st' = current_y st ∧
    prev_codepoint st' = codepoint.
Proof.
  intros Hc Hlf He Hentry Hbox Hempty.
  assert (Hget : ∃ atl,
    get_or_create (atlas st) codepoint =
      Ok (empty_item font_info codepoint y0, atl) ∧
    glyph_atlas_items atl !! Z.to_nat codepoint =
      Some (empty_item font_info codepoint y0) ∧
    calls atl = calls (atlas st)).
  { destruct Hentry as [Hf| ->].
    - eexists. split.
      { apply get_or_create_Ok. split; [lia|]. split; [lia|].
        exists e. split; [exact He|]. right. split; [exact Hf|].
        eexists. split; [|reflexivity].
        apply (fill_atlas_item_empty _ _ x0 y0 x1 y1); assumption. }
      split; [|reflexivity].
      cbn [glyph_atlas_items]. apply list_lookup_insert_eq.
      apply lookup_lt_Some in He. exact He.
    - exists (atlas st). split; [|split; [exact He|reflexivity]].
      apply get_or_create_Ok. split; [lia|]. split; [lia|].
      eexists. split; [exact He|]. left. auto. }
  destruct Hget as (atl & Hget & Hitem & Hcalls).
  unfold layout_body.
  destruct (Z.eqb_spec codepoint 10) as [|_]; [contradiction|].
  rewrite Hget. cbn [mbind outcome_bind empty_item glyph_index tex_coords left].
  destruct (stbtt_GetGlyphHMetrics font_info
              (stbtt_FindGlyphIndex font_info codepoint)) as [adv lsb].
  cbn [Z.eqb negb mbind outcome_bind]. eexists. split; [reflexivity|].
  cbn [atlas rect_buffer current_x current_y prev_codepoint fst].
  unfold kerned_x. repeat split; assumption || reflexivity.
Qed.

End AtlasFacts.

(** C6, amended: the filter writes the filtered value to the columns from 4
    up to and including [padded_glyph_width_px * 3 - 2] of every row of the
    glyph, that is to the half-open range from 4 to
    [padded_glyph_width_px * 3 - 1]; every other subpixel of the atlas item
    is left 0. *)
Theorem lcd_filter_columns
    (glyph_bitmap : list Z) (padded_glyph_width_px padded_glyph_height_px : Z) :
  length glyph_bitmap = Z.to_nat bitmap_size →
  4 ≤ padded_glyph_width_px ≤ atlas_item_width →
  0 ≤ padded_glyph_height_px ≤ atlas_item_height →
  ∃ atlas_item_bitmap,
    lcd_filter glyph_bitmap padded_glyph_width_px padded_glyph_height_px
      (replicate (Z.to_nat bitmap_size) 0) = Ok atlas_item_bitmap ∧
    length atlas_item_bitmap = Z.to_nat bitmap_size ∧
    ∀ x y, 0 ≤ x < bitmap_stride → 0 ≤ y < atlas_item_height →
      atlas_item_bitmap !! Z.to_nat (x + y * bitmap_stride) =
      Some (if (y <? padded_glyph_height_px) && (4 <=? x)
               && (x <? padded_glyph_width_px * horizontal_resolution - 1)
            then filtered glyph_bitmap padded_glyph_width_px y x else 0).
Proof.
  intros Hsize Hwidth Hheight.
  destruct (lcd_filter_result glyph_bitmap padded_glyph_width_px
              padded_glyph_height_px Hsize Hwidth Hheight)
    as (atlas_item_bitmap & Hrun & Hlen & Hcontent).
  exists atlas_item_bitmap. split; [exact Hrun|]. split; [exact Hlen|].
  intros x y Hx Hy. rewrite (Hcontent x y Hx Hy). f_equal.
  unfold expected. cbv zeta.
  destruct (Z.ltb_spec y padded_glyph_height_px); cbn [andb]; [|reflexivity].
  destruct (Z.leb_spec 4 x); cbn [andb]; [|reflexivity].
  destruct (Z.ltb_spec x (padded_glyph_width_px * horizontal_resolution - 1));
    cbn [andb]; [|reflexivity].
  destruct (Z.ltb_spec y padded_glyph_height_px); [reflexivity|lia].
Qed.

(** ** The claims on the sample font *)

(** C1 as stated fails: after the line feed that follows an A,
    [prev_codepoint] is no longer the A. *)
Lemma line_feed_replaces_prev_codepoint :
  prev_codepoint (sample_state [65]) = 65 ∧
  ∃ st', layout_body sample_font 1 12 10 sample_color (sample_state [65]) 10 = Ok st' ∧
         prev_codepoint st' ≠ prev_codepoint (sample_state [65]).
Proof.
  split; [vm_compute; reflexivity|].
  eexists. split; [vm_compute; reflexivity|]. vm_compute. discriminate.
Qed.

Lemma line_feed_is_prev_codepoint_witness :
  ∃ glyph_advance_width,
    current_x (sample_state [65; 10; 86]) =
    fadd (fadd 10 (fmul (of_int (stbtt_GetCodepointKernAdvance sample_font 10 86)) 1))
      (fmul (of_int glyph_advance_width) 1).
Proof.
  apply (proj2 (line_feed_is_prev_codepoint sample_font 1 12 10 sample_color)
           (sample_state [65]) (sample_state [65; 10]) 86
           (sample_state [65; 10; 86])).
  - vm_compute. reflexivity.
  - discriminate.
  - vm_compute. reflexivity.
Defined.

Lemma codepoint_127_out_of_bounds_witness :
  assert (127 <=? 127) = Ok () ∧
  get_or_create sample_font 1 (atlas sample_start) 127 = OutOfBounds ∧
  get_or_create sample_font 1 (atlas sample_start) 128 = AssertionFailed.
Proof.
  apply (codepoint_127_out_of_bounds sample_font 1 (atlas sample_start)).
  reflexivity.
Defined.

(** C5 as stated fails: the glyph A of the sample font is 5 pixels wide at
    the font scale and 15 at three times the font scale; the width in its
    atlas item, less the padding, is 5. *)
Lemma glyph_width_is_not_tripled :
  ∃ item atl',
    get_or_create sample_font 1 (atlas sample_start) 65 = Ok (item, atl') ∧
    let '(x0, _, x1, _) :=
      stbtt_GetGlyphBitmapBox sample_font (stbtt_FindGlyphIndex sample_font 65)
        (fmul 1 (of_int 3)) 1 in
    right (tex_coords item) - left (tex_coords item) - 3 ≠ x1 - x0.
Proof.
  eexists _, _. split; [vm_compute; reflexivity|]. vm_compute. discriminate.
Qed.

Lemma glyph_box_at_font_scale_witness :
  ∃ item atl' pixels,
    get_or_create sample_font 1 (atlas sample_start) 65 = Ok (item, atl') ∧
    right (tex_coords item) - left (tex_coords item) = 3 + (5 - 0) ∧
    bottom (tex_coords item) - top (tex_coords item) = 0 - -7 ∧
    calls atl' =
      calls (atlas sample_start) ++
      [MakeGlyphBitmap (stbtt_FindGlyphIndex sample_font 65)
         (fmul 1 (of_int 3)) 1;
       TextureSubImage2D (65 mod 16 * 32) (65 / 16 * 32) 32 32 pixels].
Proof.
  eapply (glyph_box_at_font_scale sample_font 1 (atlas sample_start) 65 _
            0 (-7) 5 0).
  - lia.
  - reflexivity.
  - reflexivity.
  - reflexivity.
  - lia.
  - lia.
  - vm_compute. discriminate.
  - vm_compute. discriminate.
Defined.

Lemma get_or_create_idempotent_witness :
  ∃ item atl',
    get_or_create sample_font 1 (atlas sample_start) 65 = Ok (item, atl') ∧
    get_or_create sample_font 1 atl' 65 = Ok (item, atl').
Proof.
  eexists _, _. split; [vm_compute; reflexivity|].
  apply (proj1 (get_or_create_idempotent sample_font 1 12 10 sample_color)
           (atlas sample_start)).
  vm_compute. reflexivity.
Defined.

(** C9 as stated fails for the code points that do not reach the atlas. In
    a font whose glyphs all have an empty bounding box, the line feed gets
    no atlas item (the item of code point 10 stays unfilled) and the pen is
    set back to the left margin 10 instead of being advanced from 16 by the
    advance width 6; and the no-break space U+00A0 ends the program in the
    assertion, with no atlas item and no pen position at all. *)
Lemma empty_glyph_not_for_every_codepoint :
  stbtt_GetGlyphBitmapBox blank_font (stbtt_FindGlyphIndex blank_font 10) 1 1
    = (0, 0, 0, 0) ∧
  stbtt_GetGlyphBitmapBox blank_font (stbtt_FindGlyphIndex blank_font 160) 1 1
    = (0, 0, 0, 0) ∧
  (∃ st' e,
     layout_body blank_font 1 12 10 sample_color sample_middle 10 = Ok st' ∧
     glyph_atlas_items (atlas st') !! Z.to_nat 10 = Some e ∧ filled e = false ∧
     current_x st' = 10 ∧
     current_x st' ≠
       fadd (current_x sample_middle)
         (fmul (of_int (stbtt_GetGlyphHMetrics blank_font
                          (stbtt_FindGlyphIndex blank_font 10)).1) 1)) ∧
  layout_body blank_font 1 12 10 sample_color sample_middle 160 = AssertionFailed.
Proof.
  split; [reflexivity|]. split; [reflexivity|]. split; [|reflexivity].
  eexists _, _. split; [vm_compute; reflexivity|].
  split; [vm_compute; reflexivity|]. split; [reflexivity|].
  split; [reflexivity|]. vm_compute. discriminate.
Qed.

Lemma empty_glyph_step_witness :
  ∃ st',
    layout_body sample_font 1 12 10 sample_color (sample_state [65]) 32 = Ok st' ∧
    glyph_atlas_items (atlas st') !! Z.to_nat 32 =
      Some {| filled := true;
              tex_coords := {| left := -1; top := -1; right := -1; bottom := -1 |};
              glyph_index := stbtt_FindGlyphIndex sample_font 32;
              distance_from_baseline_to_top_px := - 0 |} ∧
    calls (atlas st') = calls (atlas (sample_state [65])) ∧
    rect_buffer st' = rect_buffer (sample_state [65]) ∧
    current_x st' =
      fadd (if negb (prev_codepoint (sample_state [65]) =? 0)
            then fadd (current_x (sample_state [65]))
                   (fmul (of_int (stbtt_GetCodepointKernAdvance sample_font
                                    (prev_codepoint (sample_state [65])) 32)) 1)
            else current_x (sample_state [65]))
        (fmul (of_int (stbtt_GetGlyphHMetrics sample_font
                         (stbtt_FindGlyphIndex sample_font 32)).1) 1) ∧
    current_y st' = current_y (sample_state [65]) ∧
    prev_codepoint st' = 32.
Proof.
  eapply (empty_glyph_step sample_font 1 12 10 sample_color
            (sample_state [65]) 32 _ 0 0 0 0).
  - lia.
  - discriminate.
  - vm_compute. reflexivity.
  - left. reflexivity.
  - reflexivity.
  - left. lia.
Defined.

(** The same step in numbers: the space after an A moves the pen from 16
    to 22 and leaves the one rectangle of the A in the buffer. *)
Example space_after_A :
  current_x (sample_state [65]) = 16 ∧
  current_x (sample_state [65; 32]) = 22 ∧
  length (rect_buffer (sample_state [65; 32])) = 1%nat ∧
  length (calls (atlas (sample_state [65; 32]))) = 2%nat.
Proof. vm_compute. auto. Qed.

(** C6 as stated fails: the glyph of the sample font fills the subpixels 6
    to 20 of its rows, its padded width is 8 pixels, and column
    8 * 3 - 2 = 22, which lies outside of the range from 4 to 8 * 3 - 2,
    is written with the outermost tap of the kernel. *)
Lemma lcd_filter_writes_column_before_last :
  ∃ atlas_item_bitmap,
    lcd_filter sample_glyph_bitmap 8 7 (replicate (Z.to_nat bitmap_size) 0) =
      Ok atlas_item_bitmap ∧
    ¬ (4 ≤ 22 < 8 * 3 - 2) ∧
    atlas_item_bitmap !! Z.to_nat (22 + 0 * bitmap_stride) = Some 8.
Proof.
  eexists. split; [vm_compute; reflexivity|]. split; [lia|reflexivity].
Qed.

Lemma lcd_filter_columns_witness :
  ∃ atlas_item_bitmap,
    lcd_filter sample_glyph_bitmap 8 7 (replicate (Z.to_nat bitmap_size) 0) =
      Ok atlas_item_bitmap ∧
    length atlas_item_bitmap = Z.to_nat bitmap_size ∧
    ∀ x y, 0 ≤ x < bitmap_stride → 0 ≤ y < atlas_item_height →
      atlas_item_bitmap !! Z.to_nat (x + y * bitmap_stride) =
      Some (if (y <? 7) && (4 <=? x) && (x <? 8 * horizontal_resolution - 1)
            then filtered sample_glyph_bitmap 8 y x else 0).
Proof.
  apply (lcd_filter_columns sample_glyph_bitmap 8 7).
  - reflexivity.
  - vm_compute. split; discriminate.
  - vm_compute. split; discriminate.
Defined.

End MainFacts.

(** * More about the UTF-8 iterator: malformed input and whole texts *)

Module Utf8More.
Import Utf8 Utf8Facts.

Section Calls.
Variable clz_zero : Z.

(** On the terminator, be it the end bound or a zero byte, the call
    returns code point 0 and leaves the cursor where it is. *)
Lemma utf8_next_terminator mem it :
  0 ≤ buffer it →
  buffer it = end_ it ∨
    (∃ c, mem !! Z.to_nat (buffer it) = Some c ∧ uint8 c = 0) →
  value (utf8_next clz_zero mem it) = Some (set_codepoint it 0).
Proof.
  intros Hpos Hterm. unfold utf8_next.
  cbn [buffer end_ codepoint set_codepoint set_buffer].
  destruct (Z.eqb_spec (buffer it) (end_ it)) as [Heq|Hne]; [reflexivity|].
  destruct Hterm as [?|(c & Hc & Hz)]; [contradiction|].
  rewrite (value_bind_eq _ _ c) by (apply value_deref; auto).
  rewrite Hz. reflexivity.
Qed.

(** The loop over the additional bytes, on [seg] of intermediate bytes
    followed by a byte [b]. *)
Lemma decode_loop_run pre seg : ∀ n e cp b rest,
  Forall (λ c, Z.land (uint8 c) 0xC0 = 0x80) seg →
  (length seg ≤ n)%nat →
  value (decode_loop ((pre ++ seg) ++ b :: rest) n
           (Utf8Iterator (Z.of_nat (length pre)) e cp)) =
  value (decode_loop ((pre ++ seg) ++ b :: rest) (n - length seg)
           (Utf8Iterator (Z.of_nat (length (pre ++ seg))) e
              (foldl (λ cp c, Z.lor (uint32 (Z.shiftl cp 6))
                                (Z.land (uint8 c) 0x3F)) cp seg))).
Proof.
  revert pre. induction seg as [|c seg IH]; intros pre n e cp b rest Hseg Hn.
  - rewrite app_nil_r, Nat.sub_0_r. reflexivity.
  - inversion_clear Hseg as [|? ? Hc Hseg']. cbn [length] in Hn.
    destruct n as [|n]; [lia|].
    rewrite (decode_loop_step _ n _ e cp c); [|lia| |exact Hc].
    2: { rewrite <- app_assoc.
         apply (lookup_mid _ _ _ _ 0%nat); [lia|reflexivity]. }
    replace (Z.of_nat (length pre) + 1) with (Z.of_nat (length (pre ++ [c])))
      by (rewrite length_app; simpl; lia).
    replace (pre ++ c :: seg) with ((pre ++ [c]) ++ seg)
      by (rewrite <- app_assoc; reflexivity).
    rewrite (IH (pre ++ [c]) n e _ b rest Hseg') by lia.
    cbn [foldl length Nat.sub]. reflexivity.
Qed.

Lemma decode_loop_stop mem n b e cp c :
  0 ≤ b → mem !! Z.to_nat b = Some c → Z.land (uint8 c) 0xC0 ≠ 0x80 →
  value (decode_loop mem (S n) (Utf8Iterator b e cp)) =
  Some (Utf8Iterator b e 0xFFFD).
Proof.
  intros Hb Hc Hi. cbn [decode_loop buffer].
  rewrite (value_bind_eq _ _ c) by (apply value_deref; auto).
  destruct (Z.eqb_spec (Z.land (uint8 c) 0xC0) 0x80); [contradiction|].
  reflexivity.
Qed.

(** X1: a lead byte that announces more bytes than there are before the
    end bound: the call returns U+FFFD with the cursor on the end bound, and
    it has dereferenced the lead byte only. *)
Theorem utf8_next_truncated (pre : list Z) (l : Z) (rest : list Z) (e cp0 k : Z) :
  uint8 l ≠ 0 → leading_ones_of clz_zero (uint8 l) = k → k ≠ 1 →
  Z.of_nat (length pre) < e < Z.of_nat (length pre) + k →
  utf8_next clz_zero (pre ++ l :: rest)
    (Utf8Iterator (Z.of_nat (length pre)) e cp0) =
  MkRd [Z.of_nat (length pre)] (Some (Utf8Iterator e e 0xFFFD)).
Proof.
  intros Hnz Hk Hk1 He. unfold utf8_next, deref.
  cbn [buffer end_ codepoint set_codepoint set_buffer].
  destruct (Z.eqb_spec (Z.of_nat (length pre)) e); [lia|].
  destruct (Z.ltb_spec (Z.of_nat (length pre)) 0); [lia|].
  rewrite Nat2Z.id, list_lookup_middle by reflexivity.
  unfold mbind, Rd_bind. cbn [value reads].
  destruct (Z.eqb_spec (uint8 l) 0); [contradiction|].
  rewrite Hk. destruct (Z.eqb_spec k 1); [contradiction|]. cbn [negb].
  destruct (Z.leb_spec (Z.of_nat (length pre) + 1 + (k - 1)) e); [lia|].
  reflexivity.
Qed.

(** X2: a lead byte followed by fewer intermediate bytes than it announces
    and then by a byte that is no intermediate byte: the call returns
    U+FFFD and leaves the cursor on that byte, which the next call decodes
    anew. *)
Theorem utf8_next_broken_sequence (pre : list Z) (l : Z) (seg : list Z) (b : Z)
    (rest : list Z) (e cp0 k : Z) :
  uint8 l ≠ 0 → leading_ones_of clz_zero (uint8 l) = k → k ≠ 1 →
  Forall (λ c, Z.land (uint8 c) 0xC0 = 0x80) seg →
  Z.land (uint8 b) 0xC0 ≠ 0x80 →
  Z.of_nat (length seg) < k - 1 →
  Z.of_nat (length pre) + k ≤ e →
  value (utf8_next clz_zero (pre ++ l :: seg ++ b :: rest)
           (Utf8Iterator (Z.of_nat (length pre)) e cp0)) =
  Some (Utf8Iterator (Z.of_nat (length pre) + 1 + Z.of_nat (length seg)) e 0xFFFD).
Proof.
  intros Hnz Hk Hk1 Hseg Hb Hlen He.
  rewrite (utf8_next_lead clz_zero _ _ e cp0 l k); [|lia|lia| |assumption..|lia].
  2: { rewrite Nat2Z.id. apply list_lookup_middle. reflexivity. }
  replace (pre ++ l :: seg ++ b :: rest) with (((pre ++ [l]) ++ seg) ++ b :: rest)
    by (rewrite <- !app_assoc; reflexivity).
  replace (Z.of_nat (length pre) + 1) with (Z.of_nat (length (pre ++ [l])))
    by (rewrite length_app; simpl; lia).
  rewrite decode_loop_run by (assumption || lia).
  replace (Z.to_nat (k - 1) - length seg)%nat
    with (S (Z.to_nat (k - 1) - length seg - 1)) by lia.
  rewrite (decode_loop_stop _ _ _ _ _ b); [|lia| |exact Hb].
  - f_equal. f_equal. rewrite !length_app. simpl. lia.
  - rewrite Nat2Z.id. apply list_lookup_middle. reflexivity.
Qed.

(** The skip loop on a run [seg] of intermediate bytes that ends before a
    byte [b]. *)
Lemma skip_loop_run seg : ∀ it b rest,
  Forall (λ c, Z.land c 0xC0 = 0x80) seg →
  buffer it + Z.of_nat (length seg) ≤ end_ it →
  end_ it = buffer it + Z.of_nat (length seg) ∨ Z.land b 0xC0 ≠ 0x80 →
  value (skip_loop (seg ++ b :: rest) it) =
  Some (set_buffer it (buffer it + Z.of_nat (length seg))).
Proof.
  induction seg as [|c seg IH]; intros it b rest Hseg Hend Hstop.
  - cbn [app skip_loop length] in *. rewrite (value_bind_eq _ _ b) by reflexivity.
    replace ((Z.land b 0xC0 =? 0x80) && (buffer it <? end_ it)) with false.
    + destruct it. cbn. rewrite Z.add_0_r. reflexivity.
    + symmetry. apply andb_false_iff.
      destruct Hstop; [right; apply Z.ltb_ge; lia|left; apply Z.eqb_neq; assumption].
  - inversion_clear Hseg as [|? ? Hc Hseg']. cbn [app skip_loop length] in *.
    rewrite (value_bind_eq _ _ c) by reflexivity.
    rewrite Hc, Z.eqb_refl. cbn [andb].
    destruct (Z.ltb_spec (buffer it) (end_ it)); [|lia].
    rewrite (IH (set_buffer it (buffer it + 1)) b rest Hseg');
      cbn [buffer end_ set_buffer]; [|lia|destruct Hstop; [left; lia|right; assumption]].
    destruct it. cbn. f_equal. f_equal. lia.
Qed.

(** X3: a run of stray intermediate bytes where a lead byte is expected,
    ending at the end bound or before a byte of another kind: the call
    skips the whole run and returns U+FFFD once, with the cursor behind
    the run. *)
Theorem utf8_next_stray_run (pre seg : list Z) (b : Z) (rest : list Z) (e cp0 : Z) :
  seg ≠ [] → Forall (λ c, Z.land c 0xC0 = 0x80) seg →
  Z.of_nat (length pre) + Z.of_nat (length seg) ≤ e →
  e = Z.of_nat (length pre) + Z.of_nat (length seg) ∨ Z.land b 0xC0 ≠ 0x80 →
  value (utf8_next clz_zero (pre ++ seg ++ b :: rest)
           (Utf8Iterator (Z.of_nat (length pre)) e cp0)) =
  Some (Utf8Iterator (Z.of_nat (length pre) + Z.of_nat (length seg)) e 0xFFFD).
Proof.
  intros Hne Hseg He Hstop. destruct seg as [|c seg]; [contradiction|].
  inversion_clear Hseg as [|? ? Hc Hseg']. cbn [length] in *.
  unfold utf8_next. cbn [buffer end_ codepoint set_codepoint set_buffer].
  destruct (Z.eqb_spec (Z.of_nat (length pre)) e); [lia|].
  assert (Hlook : (pre ++ (c :: seg) ++ b :: rest) !! Z.to_nat (Z.of_nat (length pre))
                  = Some c)
    by (rewrite Nat2Z.id; apply list_lookup_middle; reflexivity).
  rewrite (value_bind_eq _ _ c) by (apply value_deref; split; [lia|exact Hlook]).
  destruct (intermediate_bytes (uint8 c)) as (Hnz & Hw & Hk).
  { unfold uint8. pose proof (Z.mod_pos_bound c (2 ^ 8)). lia. }
  { rewrite land_uint8_C0. apply Z.eqb_eq, Hc. }
  destruct (Z.eqb_spec (uint8 c) 0); [contradiction|].
  unfold leading_ones_of, builtin_clz.
  destruct (Z.eqb_spec (uint32 (Z.shiftl (Z.lnot (uint8 c)) 24)) 0);
    [contradiction|].
  rewrite Hk. cbn [Z.eqb Pos.eqb negb].
  replace (drop (Z.to_nat (Z.of_nat (length pre) + 1))
             (pre ++ (c :: seg) ++ b :: rest))
    with (seg ++ b :: rest).
  2: { replace (Z.to_nat (Z.of_nat (length pre) + 1)) with (length (pre ++ [c]))
         by (rewrite length_app; simpl; lia).
       change ((c :: seg) ++ b :: rest) with ([c] ++ (seg ++ b :: rest)).
       rewrite app_assoc, drop_app_length. reflexivity. }
  erewrite value_bind_eq.
  2: { apply skip_loop_run; cbn [buffer end_ set_buffer set_codepoint];
         [exact Hseg'|lia|].
       destruct Hstop; [left; lia|right; assumption]. }
  cbn [value mret Rd_ret]. unfold set_codepoint, set_buffer.
  cbn [buffer end_ codepoint]. f_equal. f_equal. lia.
Qed.

(** *** Reading a zero-terminated text *)

Section ZeroTerminated.
Variable mem : list Z.
Variables (z c0 : Z).
Hypothesis zero_at_z : mem !! Z.to_nat z = Some c0.
Hypothesis zero_byte : uint8 c0 = 0.

Lemma before_zero p c :
  0 ≤ p ≤ z → mem !! Z.to_nat p = Some c → uint8 c ≠ 0 → p + 1 ≤ z.
Proof.
  intros Hp Hc Hnz. destruct (Z.eq_dec p z) as [->|]; [|lia].
  rewrite zero_at_z in Hc. congruence.
Qed.

Lemma decode_loop_reads_zero n : ∀ it,
  0 ≤ buffer it ≤ z →
  Forall (λ p, buffer it ≤ p ≤ z) (reads (decode_loop mem n it)).
Proof.
  induction n as [|n IH]; intros it Hit; cbn [decode_loop].
  - constructor.
  - rewrite reads_bind. apply Forall_app. split.
    + repeat constructor; lia.
    + destruct (value (deref mem (buffer it))) as [c|] eqn:Hc; [|constructor].
      apply value_deref in Hc as [_ Hc].
      destruct (Z.eqb_spec (Z.land (uint8 c) 0xC0) 0x80) as [Hi|]; [|constructor].
      assert (uint8 c ≠ 0) by (intros Hz; rewrite Hz in Hi; discriminate).
      pose proof (before_zero _ _ Hit Hc H).
      eapply Forall_impl; [|apply IH; simpl; lia]. simpl. intros; lia.
Qed.

Lemma skip_loop_reads_zero rest : ∀ it,
  rest = drop (Z.to_nat (buffer it)) mem → 0 ≤ buffer it ≤ z →
  Forall (λ p, buffer it ≤ p ≤ z) (reads (skip_loop rest it)).
Proof.
  induction rest as [|c rest IH]; intros it Hrest Hit; cbn [skip_loop].
  - repeat constructor; lia.
  - symmetry in Hrest. apply drop_cons_inv in Hrest as [Hc Hrest].
    rewrite reads_bind. apply Forall_app. split; [repeat constructor; lia|].
    cbn [value].
    destruct (Z.eqb_spec (Z.land c 0xC0) 0x80) as [Hi|]; cbn [andb]; [|constructor].
    destruct (Z.ltb_spec (buffer it) (end_ it)); [|constructor].
    assert (uint8 c ≠ 0) by (intros Hz; apply zero_not_intermediate in Hz; lia).
    pose proof (before_zero _ _ Hit Hc H0).
    eapply Forall_impl; [|apply IH; simpl; [|lia]].
    + simpl. intros; lia.
    + rewrite Hrest. f_equal. lia.
Qed.

(** X4: with a zero byte in the object at or behind the cursor, a call
    dereferences nothing but offsets from the cursor up to that zero byte,
    whatever the end bound is (the end bound of [utf8_first] never stops
    it), and it returns without a fault. *)
Theorem utf8_next_stays_before_terminator (it : utf8_iterator_t) :
  0 ≤ buffer it ≤ z → buffer it ≤ end_ it →
  Forall (λ p, buffer it ≤ p ≤ z) (reads (utf8_next clz_zero mem it)) ∧
  ∃ it', value (utf8_next clz_zero mem it) = Some it' ∧
         (buffer it' ≤ z ∨ buffer it' = end_ it').
Proof.
  intros Hit Hend. split.
  - unfold utf8_next. cbn [buffer end_ codepoint set_codepoint set_buffer].
    destruct (Z.eqb_spec (buffer it) (end_ it)); [constructor|].
    rewrite reads_bind. apply Forall_app. split; [repeat constructor; lia|].
    destruct (value (deref mem (buffer it))) as [c|] eqn:Hc; [|constructor].
    apply value_deref in Hc as [_ Hc].
    destruct (Z.eqb_spec (uint8 c) 0) as [|Hnz]; [constructor|].
    pose proof (before_zero _ _ Hit Hc Hnz).
    destruct (leading_ones_of clz_zero (uint8 c) =? 1); cbn [negb].
    + rewrite reads_bind. apply Forall_app. split.
      * eapply Forall_impl; [|apply skip_loop_reads_zero; [reflexivity|simpl; lia]].
        simpl. intros; lia.
      * destruct (value _); constructor.
    + destruct (_ <=? _); [|constructor].
      eapply Forall_impl; [|apply decode_loop_reads_zero; simpl; lia].
      simpl. intros; lia.
  - destruct (utf8_next_safe clz_zero mem z it) as (it' & Hnext & Hend' & _ & Hcur).
    + split; [apply lookup_lt_Some in zero_at_z; lia|right; eauto].
    + split; [lia|right; lia].
    + exists it'. split; [exact Hnext|]. tauto.
Qed.

End ZeroTerminated.

(** *** Decoding checks bit patterns only *)

Lemma lor_plus x0 n :
  all_in_range 0 n (λ x, Z.lor x0 x =? x0 + x) = true →
  ∀ x, 0 ≤ x < n → x0 + x = Z.lor x0 x.
Proof.
  intros Hall x Hx. symmetry. apply Z.eqb_eq.
  apply (all_in_range_spec 0 n _ Hall). lia.
Qed.

Lemma utf8_next_two_bytes pre rest e cp0 x p :
  0 ≤ x < 32 → 0 ≤ p < 64 → Z.of_nat (length pre) + 2 ≤ e →
  value (utf8_next clz_zero (pre ++ [0xC0 + x; 0x80 + p] ++ rest)
           (Utf8Iterator (Z.of_nat (length pre)) e cp0)) =
  Some (Utf8Iterator (Z.of_nat (length pre) + 2) e (x * 64 + p)).
Proof.
  intros Hx Hp He.
  rewrite (lor_plus 0xC0 32 eq_refl x), (lor_plus 0x80 64 eq_refl p) by lia.
  destruct (lead_byte_spec clz_zero 2 0xC0 x) as (Hu & Hnz & Hk & Hd);
    [apply lead2_bytes; lia|].
  destruct (cont_bytes p) as (Hu1 & Hi1 & Hp1); [lia|].
  cbv zeta in *.
  erewrite utf8_next_lead with (k := 2);
    [|lia|lia|eapply (lookup_mid _ _ _ _ 0%nat); [lia|reflexivity]
     |rewrite Hu; exact Hnz|rewrite Hu; exact Hk|lia|lia].
  change (Z.to_nat (2 - 1)) with 1%nat.
  erewrite decode_loop_step;
    [|lia|eapply (lookup_mid _ _ _ _ 1%nat); [lia|reflexivity]
     |rewrite Hu1; exact Hi1].
  cbn [decode_loop]. rewrite Hu, Hd, Hu1, Hp1.
  rewrite shift_in_accumulator by lia.
  cbn [value mret Rd_ret]. f_equal. f_equal. lia.
Qed.

Lemma utf8_next_three_bytes pre rest e cp0 x p1 p2 :
  0 ≤ x < 16 → 0 ≤ p1 < 64 → 0 ≤ p2 < 64 → Z.of_nat (length pre) + 3 ≤ e →
  value (utf8_next clz_zero (pre ++ [0xE0 + x; 0x80 + p1; 0x80 + p2] ++ rest)
           (Utf8Iterator (Z.of_nat (length pre)) e cp0)) =
  Some (Utf8Iterator (Z.of_nat (length pre) + 3) e (x * 4096 + p1 * 64 + p2)).
Proof.
  intros Hx Hp1 Hp2 He.
  rewrite (lor_plus 0xE0 16 eq_refl x), (lor_plus 0x80 64 eq_refl p1),
    (lor_plus 0x80 64 eq_refl p2) by lia.
  destruct (lead_byte_spec clz_zero 3 0xE0 x) as (Hu & Hnz & Hk & Hd);
    [apply lead3_bytes; lia|].
  destruct (cont_bytes p1) as (Hu1 & Hi1 & Hq1); [lia|].
  destruct (cont_bytes p2) as (Hu2 & Hi2 & Hq2); [lia|].
  cbv zeta in *.
  erewrite utf8_next_lead with (k := 3);
    [|lia|lia|eapply (lookup_mid _ _ _ _ 0%nat); [lia|reflexivity]
     |rewrite Hu; exact Hnz|rewrite Hu; exact Hk|lia|lia].
  change (Z.to_nat (3 - 1)) with 2%nat.
  erewrite decode_loop_step;
    [|lia|eapply (lookup_mid _ _ _ _ 1%nat); [lia|reflexivity]
     |rewrite Hu1; exact Hi1].
  erewrite decode_loop_step;
    [|lia|eapply (lookup_mid _ _ _ _ 2%nat); [lia|reflexivity]
     |rewrite Hu2; exact Hi2].
  cbn [decode_loop]. rewrite Hu, Hd, Hu1, Hq1, Hu2, Hq2.
  rewrite (shift_in_accumulator x) by lia.
  rewrite shift_in_accumulator by lia.
  cbn [value mret Rd_ret]. f_equal. f_equal; lia.
Qed.

Lemma utf8_next_four_bytes pre rest e cp0 x p1 p2 p3 :
  0 ≤ x < 8 → 0 ≤ p1 < 64 → 0 ≤ p2 < 64 → 0 ≤ p3 < 64 →
  Z.of_nat (length pre) + 4 ≤ e →
  value (utf8_next clz_zero
           (pre ++ [0xF0 + x; 0x80 + p1; 0x80 + p2; 0x80 + p3] ++ rest)
           (Utf8Iterator (Z.of_nat (length pre)) e cp0)) =
  Some (Utf8Iterator (Z.of_nat (length pre) + 4) e
          (x * 262144 + p1 * 4096 + p2 * 64 + p3)).
Proof.
  intros Hx Hp1 Hp2 Hp3 He.
  rewrite (lor_plus 0xF0 8 eq_refl x), (lor_plus 0x80 64 eq_refl p1),
    (lor_plus 0x80 64 eq_refl p2), (lor_plus 0x80 64 eq_refl p3) by lia.
  destruct (lead_byte_spec clz_zero 4 0xF0 x) as (Hu & Hnz & Hk & Hd);
    [apply lead4_bytes; lia|].
  destruct (cont_bytes p1) as (Hu1 & Hi1 & Hq1); [lia|].
  destruct (cont_bytes p2) as (Hu2 & Hi2 & Hq2); [lia|].
  destruct (cont_bytes p3) as (Hu3 & Hi3 & Hq3); [lia|].
  cbv zeta in *.
  erewrite utf8_next_lead with (k := 4);
    [|lia|lia|eapply (lookup_mid _ _ _ _ 0%nat); [lia|reflexivity]
     |rewrite Hu; exact Hnz|rewrite Hu; exact Hk|lia|lia].
  change (Z.to_nat (4 - 1)) with 3%nat.
  erewrite decode_loop_step;
    [|lia|eapply (lookup_mid _ _ _ _ 1%nat); [lia|reflexivity]
     |rewrite Hu1; exact Hi1].
  erewrite decode_loop_step;
    [|lia|eapply (lookup_mid _ _ _ _ 2%nat); [lia|reflexivity]
     |rewrite Hu2; exact Hi2].
  erewrite decode_loop_step;
    [|lia|eapply (lookup_mid _ _ _ _ 3%nat); [lia|reflexivity]
     |rewrite Hu3; exact Hi3].
  cbn [decode_loop]. rewrite Hu, Hd, Hu1, Hq1, Hu2, Hq2, Hu3, Hq3.
  rewrite (shift_in_accumulator x) by lia.
  rewrite (shift_in_accumulator (x * 64 + p1)) by lia.
  rewrite shift_in_accumulator by lia.
  cbn [value mret Rd_ret]. f_equal. f_equal; lia.
Qed.

(** X5: the call checks the bit patterns of the bytes and nothing else. A
    lead byte of the two, three or four byte form followed by its
    intermediate bytes decodes to the number made of the payload bits,
    whatever that number is: overlong forms (as small as 0), surrogates and
    numbers above U+10FFFF are all returned, none is replaced by U+FFFD. *)
Theorem utf8_next_patterns_only (pre rest : list Z) (e cp0 : Z) :
  (∀ x p, 0 ≤ x < 32 → 0 ≤ p < 64 → Z.of_nat (length pre) + 2 ≤ e →
     value (utf8_next clz_zero (pre ++ [0xC0 + x; 0x80 + p] ++ rest)
              (Utf8Iterator (Z.of_nat (length pre)) e cp0)) =
     Some (Utf8Iterator (Z.of_nat (length pre) + 2) e (x * 64 + p))) ∧
  (∀ x p1 p2, 0 ≤ x < 16 → 0 ≤ p1 < 64 → 0 ≤ p2 < 64 →
     Z.of_nat (length pre) + 3 ≤ e →
     value (utf8_next clz_zero (pre ++ [0xE0 + x; 0x80 + p1; 0x80 + p2] ++ rest)
              (Utf8Iterator (Z.of_nat (length pre)) e cp0)) =
     Some (Utf8Iterator (Z.of_nat (length pre) + 3) e
             (x * 4096 + p1 * 64 + p2))) ∧
  (∀ x p1 p2 p3, 0 ≤ x < 8 → 0 ≤ p1 < 64 → 0 ≤ p2 < 64 → 0 ≤ p3 < 64 →
     Z.of_nat (length pre) + 4 ≤ e →
     value (utf8_next clz_zero
              (pre ++ [0xF0 + x; 0x80 + p1; 0x80 + p2; 0x80 + p3] ++ rest)
              (Utf8Iterator (Z.of_nat (length pre)) e cp0)) =
     Some (Utf8Iterator (Z.of_nat (length pre) + 4) e
             (x * 262144 + p1 * 4096 + p2 * 64 + p3))).
Proof.
  split; [|split].
  - intros. apply utf8_next_two_bytes; assumption.
  - intros. apply utf8_next_three_bytes; assumption.
  - intros. apply utf8_next_four_bytes; assumption.
Qed.

(** *** Whole texts *)

(** The loop over a text made of encoded code points, up to a place where
    the call returns code point 0. *)
Lemma codepoints_from_encoded mem tail e stop cs : ∀ pre fuel cp0,
  mem = pre ++ concat (map utf8_encode cs) ++ tail →
  stop = Z.of_nat (length pre) + Z.of_nat (length (concat (map utf8_encode cs))) →
  stop ≤ e →
  (∀ cp, ∃ it', value (utf8_next clz_zero mem (Utf8Iterator stop e cp)) = Some it' ∧
                codepoint it' = 0) →
  cp0 ≠ 0 → Forall (λ c, 0 < c ≤ 0x10FFFF) cs → (length cs < fuel)%nat →
  codepoints_from clz_zero mem fuel (Utf8Iterator (Z.of_nat (length pre)) e cp0)
  = Finished (cp0 :: cs).
Proof.
  induction cs as [|c cs IH]; intros pre fuel cp0 Hmem Hstop He Hend Hcp0 Hcs Hfuel;
    (destruct fuel as [|fuel]; [cbn [length] in Hfuel; lia|]);
    cbn [codepoints_from codepoint];
    (destruct (Z.eqb_spec cp0 0); [contradiction|]).
  - cbn [map concat length] in Hstop. rewrite Z.add_0_r in Hstop. subst stop.
    destruct (Hend cp0) as (it' & -> & Hzero).
    destruct fuel; cbn [codepoints_from]; rewrite Hzero; reflexivity.
  - inversion_clear Hcs as [|? ? Hc Hcs'].
    cbn [map concat length] in Hmem, Hstop, Hfuel.
    rewrite length_app in Hstop.
    rewrite Hmem at 1. rewrite <- (app_assoc (utf8_encode c)).
    rewrite utf8_next_encode by lia.
    replace (Z.of_nat (length pre) + Z.of_nat (length (utf8_encode c)))
      with (Z.of_nat (length (pre ++ utf8_encode c)))
      by (rewrite length_app; lia).
    rewrite (IH (pre ++ utf8_encode c) fuel c);
      [reflexivity| | |exact He|exact Hend|lia|exact Hcs'|lia].
    + rewrite Hmem, <- !app_assoc. reflexivity.
    + rewrite length_app. lia.
Qed.

Lemma utf8_codepoints_encoded pre tail cs fuel :
  let mem := pre ++ concat (map utf8_encode cs) ++ tail in
  let stop := Z.of_nat (length pre)
              + Z.of_nat (length (concat (map utf8_encode cs))) in
  stop ≤ UINTPTR_MAX →
  (∀ cp, ∃ it', value (utf8_next clz_zero mem (Utf8Iterator stop UINTPTR_MAX cp))
                = Some it' ∧ codepoint it' = 0) →
  Forall (λ c, 0 < c ≤ 0x10FFFF) cs → (length cs ≤ fuel)%nat →
  utf8_codepoints clz_zero mem fuel (Z.of_nat (length pre)) = Finished cs.
Proof.
  intros mem stop He Hend Hcs Hfuel. unfold utf8_codepoints, utf8_first.
  destruct cs as [|c cs].
  - subst stop. cbn [map concat length] in *. rewrite Z.add_0_r in Hend.
    destruct (Hend 0) as (it' & -> & Hzero).
    destruct fuel; cbn [codepoints_from]; rewrite Hzero; reflexivity.
  - inversion Hcs as [|? ? Hc Hcs']; subst.
    subst mem stop. cbn [map concat length] in *.
    rewrite length_app in He, Hend.
    rewrite <- (app_assoc (utf8_encode c)).
    rewrite utf8_next_encode by lia.
    replace (Z.of_nat (length pre) + Z.of_nat (length (utf8_encode c)))
      with (Z.of_nat (length (pre ++ utf8_encode c)))
      by (rewrite length_app; lia).
    apply (codepoints_from_encoded _ tail UINTPTR_MAX
             (Z.of_nat (length pre) +
              Z.of_nat (length (utf8_encode c) +
                        length (concat (map utf8_encode cs)))));
      [| |exact He| |lia|exact Hcs'|lia].
    + rewrite <- !app_assoc. reflexivity.
    + rewrite length_app. lia.
    + intros cp. destruct (Hend cp) as (it' & Hit' & Hzero).
      exists it'. split; [|exact Hzero].
      rewrite <- Hit'. rewrite <- !app_assoc. reflexivity.
Qed.

(** X6: round trip of a whole text. For code points from 1 to U+10FFFF,
    encoded one after the other and followed by a zero byte, the loop of
    the layout pass ([utf8_first], then [utf8_next] until the code point
    is 0) visits exactly these code points, in order. *)
Theorem utf8_codepoints_roundtrip (pre : list Z) (cs : list Z) (rest : list Z)
    (fuel : nat) :
  Forall (λ c, 0 < c ≤ 0x10FFFF) cs → (length cs ≤ fuel)%nat →
  Z.of_nat (length pre) + Z.of_nat (length (concat (map utf8_encode cs)))
    ≤ UINTPTR_MAX →
  utf8_codepoints clz_zero (pre ++ concat (map utf8_encode cs) ++ 0 :: rest)
    fuel (Z.of_nat (length pre)) = Finished cs.
Proof.
  intros Hcs Hfuel He. apply utf8_codepoints_encoded; [exact He| |exact Hcs|exact Hfuel].
  intros cp. eexists. split.
  - apply utf8_next_terminator; cbn [buffer end_]; [lia|]. right. exists 0.
    split; [|reflexivity].
    rewrite app_assoc. apply list_lookup_middle. rewrite length_app. lia.
  - reflexivity.
Qed.

(** X7: the loop of the layout pass ends at the first code point 0, and
    the overlong form 0xC0 0x80 decodes to 0: a text is cut off there, what
    follows these two bytes is never visited. *)
Theorem utf8_codepoints_cut_at_overlong_nul (pre : list Z) (cs : list Z)
    (rest : list Z) (fuel : nat) :
  Forall (λ c, 0 < c ≤ 0x10FFFF) cs → (length cs ≤ fuel)%nat →
  Z.of_nat (length pre) + Z.of_nat (length (concat (map utf8_encode cs))) + 2
    ≤ UINTPTR_MAX →
  utf8_codepoints clz_zero
    (pre ++ concat (map utf8_encode cs) ++ [0xC0; 0x80] ++ rest)
    fuel (Z.of_nat (length pre)) = Finished cs.
Proof.
  intros Hcs Hfuel He. apply utf8_codepoints_encoded; [lia| |exact Hcs|exact Hfuel].
  intros cp. exists (Utf8Iterator
    (Z.of_nat (length (pre ++ concat (map utf8_encode cs))) + 2) UINTPTR_MAX 0).
  split; [|reflexivity].
  rewrite app_assoc.
  replace (Z.of_nat (length pre) + Z.of_nat (length (concat (map utf8_encode cs))))
    with (Z.of_nat (length (pre ++ concat (map utf8_encode cs))))
    by (rewrite length_app; lia).
  apply (utf8_next_two_bytes _ rest UINTPTR_MAX cp 0 0);
    [lia|lia|rewrite length_app; lia].
Qed.

End Calls.

Lemma utf8_next_truncated_witness :
  utf8_next 32 ([0x41] ++ 0xE2 :: [0x82; 0xAC; 0]) (Utf8Iterator 1 3 0) =
  MkRd [1] (Some (Utf8Iterator 3 3 0xFFFD)).
Proof.
  apply (utf8_next_truncated 32 [0x41] 0xE2 [0x82; 0xAC; 0] 3 0 3).
  - vm_compute. discriminate.
  - vm_compute. reflexivity.
  - lia.
  - simpl. lia.
Defined.

Lemma utf8_next_broken_sequence_witness :
  value (utf8_next 32 ([0x41] ++ 0xE2 :: [0x82] ++ 0x42 :: [0])
           (Utf8Iterator 1 UINTPTR_MAX 0)) =
  Some (Utf8Iterator (1 + 1 + 1) UINTPTR_MAX 0xFFFD).
Proof.
  apply (utf8_next_broken_sequence 32 [0x41] 0xE2 [0x82] 0x42 [0] UINTPTR_MAX 0 3).
  - vm_compute. discriminate.
  - vm_compute. reflexivity.
  - lia.
  - repeat constructor.
  - vm_compute. discriminate.
  - simpl. lia.
  - vm_compute. discriminate.
Defined.

Lemma utf8_next_stray_run_witness :
  value (utf8_next 32 ([0x41] ++ [0x80; 0xBF; 0x80] ++ 0x42 :: [0])
           (Utf8Iterator 1 UINTPTR_MAX 0)) =
  Some (Utf8Iterator (1 + 3) UINTPTR_MAX 0xFFFD).
Proof.
  apply (utf8_next_stray_run 32 [0x41] [0x80; 0xBF; 0x80] 0x42 [0] UINTPTR_MAX 0).
  - discriminate.
  - repeat constructor.
  - vm_compute. discriminate.
  - right. vm_compute. discriminate.
Defined.

Lemma utf8_next_stays_before_terminator_witness :
  Forall (λ p, 1 ≤ p ≤ 3) (reads (utf8_next 32 [0x41; 0xF0; 0x9F; 0; 0x80; 0x80]
                                    (Utf8Iterator 1 UINTPTR_MAX 0))) ∧
  ∃ it', value (utf8_next 32 [0x41; 0xF0; 0x9F; 0; 0x80; 0x80]
                  (Utf8Iterator 1 UINTPTR_MAX 0)) = Some it' ∧
         (buffer it' ≤ 3 ∨ buffer it' = end_ it').
Proof.
  apply (utf8_next_stays_before_terminator 32 [0x41; 0xF0; 0x9F; 0; 0x80; 0x80]
           3 0 eq_refl eq_refl (Utf8Iterator 1 UINTPTR_MAX 0)).
  - simpl. lia.
  - vm_compute. discriminate.
Defined.

Lemma utf8_next_patterns_only_witness :
  value (utf8_next 32 ([0x41] ++ [0xE0 + 13; 0x80 + 32; 0x80 + 0] ++ [0])
           (Utf8Iterator 1 UINTPTR_MAX 0)) =
  Some (Utf8Iterator (1 + 3) UINTPTR_MAX (13 * 4096 + 32 * 64 + 0)).
Proof.
  apply (proj1 (proj2 (utf8_next_patterns_only 32 [0x41] [0] UINTPTR_MAX 0))
           13 32 0).
  - lia.
  - lia.
  - lia.
  - vm_compute. discriminate.
Defined.

Lemma utf8_codepoints_roundtrip_witness :
  utf8_codepoints 32
    ([0x41] ++ concat (map utf8_encode [0x48; 0xE9; 0x20AC; 0x1F600]) ++ 0 :: [0x42])
    4 1 = Finished [0x48; 0xE9; 0x20AC; 0x1F600].
Proof.
  apply (utf8_codepoints_roundtrip 32 [0x41] [0x48; 0xE9; 0x20AC; 0x1F600] [0x42] 4).
  - repeat constructor; lia.
  - simpl. lia.
  - vm_compute. discriminate.
Defined.

Lemma utf8_codepoints_cut_at_overlong_nul_witness :
  utf8_codepoints 32
    ([0x41] ++ concat (map utf8_encode [0x48; 0x20AC]) ++ [0xC0; 0x80] ++ [0x42; 0])
    2 1 = Finished [0x48; 0x20AC].
Proof.
  apply (utf8_codepoints_cut_at_overlong_nul 32 [0x41] [0x48; 0x20AC] [0x42; 0] 2).
  - repeat constructor; lia.
  - simpl. lia.
  - vm_compute. discriminate.
Defined.

End Utf8More.

(** * More about the LCD filter *)

Module FilterMore.
Import Main MainFacts Convolution.

Lemma bytes_only_lookup bitmap n :
  bytes_only bitmap = true → 0 ≤ bitmap !!! n ≤ 255.
Proof.
  unfold bytes_only. rewrite forallb_forall. intros Hall.
  rewrite list_lookup_total_alt.
  destruct (bitmap !! n) as [c|] eqn:Hc; [|simpl; lia].
  apply list_elem_of_lookup_2, list_elem_of_In, Hall in Hc. simpl. lia.
Qed.

Lemma tap_byte glyph_bitmap y x :
  bytes_only glyph_bitmap = true → 0 ≤ tap glyph_bitmap y x ≤ 255.
Proof.
  intros Hb. unfold tap. destruct (_ && _); [apply bytes_only_lookup, Hb|lia].
Qed.

Lemma tap_in_row glyph_bitmap y x :
  0 ≤ x < bitmap_stride →
  tap glyph_bitmap y x = glyph_bitmap !!! Z.to_nat (x + y * bitmap_stride).
Proof.
  intros Hx. unfold tap.
  destruct (Z.leb_spec 0 x); [|lia]. destruct (Z.ltb_spec x bitmap_stride); [|lia].
  reflexivity.
Qed.

Lemma tap_blank glyph_bitmap pw ph y x :
  blank_outside glyph_bitmap pw ph = true →
  0 ≤ y < atlas_item_height →
  ¬ (6 ≤ x < pw * horizontal_resolution - 3 ∧ y < ph) →
  tap glyph_bitmap y x = 0.
Proof.
  intros Hblank Hy Hout. unfold tap.
  destruct (Z.leb_spec 0 x); [|reflexivity].
  destruct (Z.ltb_spec x bitmap_stride); [|reflexivity]. cbn [andb].
  assert (Hstride : bitmap_stride = 96) by reflexivity.
  assert (Hheight : atlas_item_height = 32) by reflexivity.
  assert (Hsize : bitmap_size = 3072) by reflexivity.
  assert (Hin : 0 ≤ x + y * bitmap_stride < 0 + bitmap_size) by lia.
  pose proof (all_in_range_spec 0 bitmap_size _ Hblank (x + y * bitmap_stride) Hin)
    as Hi.
  cbv beta zeta in Hi.
  rewrite Z.mod_add, Z.div_add, Z.mod_small, Z.div_small, Z.add_0_l in Hi by lia.
  apply orb_true_iff in Hi as [Hi|Hi]; [|lia].
  exfalso. apply Hout. unfold horizontal_resolution in *. lia.
Qed.

Lemma kernel_sum_five glyph_bitmap y x :
  2 ≤ x → x + 2 < bitmap_stride →
  kernel_sum glyph_bitmap y x 5 =
  0x08 * tap glyph_bitmap y (x - 2) + 0x4D * tap glyph_bitmap y (x - 1)
  + 0x56 * tap glyph_bitmap y x
  + 0x4D * tap glyph_bitmap y (x + 1) + 0x08 * tap glyph_bitmap y (x + 2).
Proof.
  intros Hlo Hhi. rewrite !tap_in_row by lia. cbn [kernel_sum].
  change (filter_weights !!! 0%nat) with 0x08.
  change (filter_weights !!! 1%nat) with 0x4D.
  change (filter_weights !!! 2%nat) with 0x56.
  change (filter_weights !!! 3%nat) with 0x4D.
  change (filter_weights !!! 4%nat) with 0x08.
  replace (x - 2 + Z.of_nat 0 + y * bitmap_stride) with (x - 2 + y * bitmap_stride) by lia.
  replace (x - 2 + Z.of_nat 1 + y * bitmap_stride) with (x - 1 + y * bitmap_stride) by lia.
  replace (x - 2 + Z.of_nat 2 + y * bitmap_stride) with (x + y * bitmap_stride) by lia.
  replace (x - 2 + Z.of_nat 3 + y * bitmap_stride) with (x + 1 + y * bitmap_stride) by lia.
  replace (x - 2 + Z.of_nat 4 + y * bitmap_stride) with (x + 2 + y * bitmap_stride) by lia.
  lia.
Qed.

Lemma kernel_sum_four glyph_bitmap y x :
  2 ≤ x → x + 1 < bitmap_stride →
  kernel_sum glyph_bitmap y x 4 =
  0x08 * tap glyph_bitmap y (x - 2) + 0x4D * tap glyph_bitmap y (x - 1)
  + 0x56 * tap glyph_bitmap y x + 0x4D * tap glyph_bitmap y (x + 1).
Proof.
  intros Hlo Hhi. rewrite !tap_in_row by lia. cbn [kernel_sum].
  change (filter_weights !!! 0%nat) with 0x08.
  change (filter_weights !!! 1%nat) with 0x4D.
  change (filter_weights !!! 2%nat) with 0x56.
  change (filter_weights !!! 3%nat) with 0x4D.
  replace (x - 2 + Z.of_nat 0 + y * bitmap_stride) with (x - 2 + y * bitmap_stride) by lia.
  replace (x - 2 + Z.of_nat 1 + y * bitmap_stride) with (x - 1 + y * bitmap_stride) by lia.
  replace (x - 2 + Z.of_nat 2 + y * bitmap_stride) with (x + y * bitmap_stride) by lia.
  replace (x - 2 + Z.of_nat 3 + y * bitmap_stride) with (x + 1 + y * bitmap_stride) by lia.
  lia.
Qed.

(** For a sum of coverages that is not negative, the quotient, the clamp and
    the conversion to a byte give the clamped quotient. *)
Lemma clamp_byte sum :
  0 ≤ sum → uint8 (Z.min 255 (Z.quot sum 255)) = Z.min 255 (sum / 255).
Proof.
  intros Hsum. rewrite Z.quot_div_nonneg by lia.
  assert (0 ≤ sum / 255) by (apply Z.div_pos; lia).
  unfold uint8. apply Z.mod_small. lia.
Qed.

(** The filtered value of a column that has all five taps. *)
Lemma filtered_inner glyph_bitmap pw y x :
  bytes_only glyph_bitmap = true → 4 ≤ pw ≤ atlas_item_width →
  4 ≤ x < pw * horizontal_resolution - 2 →
  filtered glyph_bitmap pw y x = convolved glyph_bitmap y x.
Proof.
  intros Hb Hpw Hx. unfold filtered, convolved. cbv zeta.
  assert (Hstride : bitmap_stride = 96) by reflexivity.
  unfold horizontal_resolution, atlas_item_width in *.
  destruct (Z.eqb_spec x (pw * 3 - 1 - 1)); [lia|].
  rewrite kernel_sum_five by lia.
  pose proof (tap_byte glyph_bitmap y (x - 2) Hb).
  pose proof (tap_byte glyph_bitmap y (x - 1) Hb).
  pose proof (tap_byte glyph_bitmap y x Hb).
  pose proof (tap_byte glyph_bitmap y (x + 1) Hb).
  pose proof (tap_byte glyph_bitmap y (x + 2) Hb).
  apply clamp_byte. lia.
Qed.

(** X8: the clamp of the filter. For a glyph bitmap of bytes, a column with
    all five taps gets the weighted sum of its taps divided by 255, at most
    255. The weights add up to 256, so full coverage under all five taps
    gives the quotient 256: it is stored as 255, not as the byte 0 to which
    256 wraps. *)
Theorem lcd_filter_clamps_full_coverage
    (glyph_bitmap : list Z) (padded_glyph_width_px padded_glyph_height_px : Z) :
  length glyph_bitmap = Z.to_nat bitmap_size →
  4 ≤ padded_glyph_width_px ≤ atlas_item_width →
  0 ≤ padded_glyph_height_px ≤ atlas_item_height →
  bytes_only glyph_bitmap = true →
  ∃ atlas_item_bitmap,
    lcd_filter glyph_bitmap padded_glyph_width_px padded_glyph_height_px
      (replicate (Z.to_nat bitmap_size) 0) = Ok atlas_item_bitmap ∧
    ∀ x y, 4 ≤ x < padded_glyph_width_px * horizontal_resolution - 2 →
      0 ≤ y < padded_glyph_height_px →
      atlas_item_bitmap !! Z.to_nat (x + y * bitmap_stride) =
        Some (convolved glyph_bitmap y x) ∧
      ((∀ k, 0 ≤ k < 5 →
          glyph_bitmap !!! Z.to_nat (x - 2 + k + y * bitmap_stride) = 255) →
       (0x08 * 255 + 0x4D * 255 + 0x56 * 255 + 0x4D * 255 + 0x08 * 255) / 255 = 256 ∧
       uint8 256 = 0 ∧
       atlas_item_bitmap !! Z.to_nat (x + y * bitmap_stride) = Some 255).
Proof.
  intros Hlen Hpw Hph Hb.
  destruct (lcd_filter_result glyph_bitmap _ _ Hlen Hpw Hph) as (bmp & Hrun & _ & Hcells).
  exists bmp. split; [exact Hrun|]. intros x y Hx Hy.
  assert (Hstride : bitmap_stride = 96) by reflexivity.
  assert (Hcell : bmp !! Z.to_nat (x + y * bitmap_stride) =
                  Some (convolved glyph_bitmap y x)).
  { unfold atlas_item_height, atlas_item_width, horizontal_resolution in *.
    rewrite Hcells by (unfold atlas_item_height; lia). f_equal.
    unfold expected. cbv zeta. unfold horizontal_resolution.
    destruct (Z.ltb_spec y padded_glyph_height_px); [|lia].
    destruct (Z.leb_spec 4 x); [|lia].
    destruct (Z.ltb_spec x (padded_glyph_width_px * 3 - 1)); [|lia].
    cbn [andb orb].
    apply filtered_inner; unfold atlas_item_width, horizontal_resolution;
      [exact Hb|lia|lia]. }
  split; [exact Hcell|]. intros Hfull.
  split; [reflexivity|]. split; [reflexivity|].
  rewrite Hcell. f_equal. unfold convolved.
  unfold atlas_item_width, horizontal_resolution in *.
  rewrite !tap_in_row by lia.
  pose proof (Hfull 0) as H0. pose proof (Hfull 1) as H1. pose proof (Hfull 2) as H2.
  pose proof (Hfull 3) as H3. pose proof (Hfull 4) as H4.
  replace (x - 2 + 0 + y * bitmap_stride) with (x - 2 + y * bitmap_stride) in H0 by lia.
  replace (x - 2 + 1 + y * bitmap_stride) with (x - 1 + y * bitmap_stride) in H1 by lia.
  replace (x - 2 + 2 + y * bitmap_stride) with (x + y * bitmap_stride) in H2 by lia.
  replace (x - 2 + 3 + y * bitmap_stride) with (x + 1 + y * bitmap_stride) in H3 by lia.
  replace (x - 2 + 4 + y * bitmap_stride) with (x + 2 + y * bitmap_stride) in H4 by lia.
  rewrite H0, H1, H2, H3, H4 by lia. reflexivity.
Qed.

(** X9: the loop bounds of the filter lose nothing. When the glyph bitmap
    has coverage only where the glyph is rasterized (from column 6 on, in
    the rows of the glyph), every subpixel of the atlas item holds the full
    five tap filter of the glyph bitmap: the columns the loops skip are
    those where that filter gives 0, and the tap left out in the last
    column that is written reads 0. *)
Theorem lcd_filter_is_full_convolution
    (glyph_bitmap : list Z) (padded_glyph_width_px padded_glyph_height_px : Z) :
  length glyph_bitmap = Z.to_nat bitmap_size →
  4 ≤ padded_glyph_width_px ≤ atlas_item_width →
  0 ≤ padded_glyph_height_px ≤ atlas_item_height →
  bytes_only glyph_bitmap = true →
  blank_outside glyph_bitmap padded_glyph_width_px padded_glyph_height_px = true →
  ∃ atlas_item_bitmap,
    lcd_filter glyph_bitmap padded_glyph_width_px padded_glyph_height_px
      (replicate (Z.to_nat bitmap_size) 0) = Ok atlas_item_bitmap ∧
    ∀ x y, 0 ≤ x < bitmap_stride → 0 ≤ y < atlas_item_height →
      atlas_item_bitmap !! Z.to_nat (x + y * bitmap_stride) =
      Some (convolved glyph_bitmap y x).
Proof.
  intros Hlen Hpw Hph Hb Hblank.
  destruct (lcd_filter_result glyph_bitmap _ _ Hlen Hpw Hph) as (bmp & Hrun & _ & Hcells).
  exists bmp. split; [exact Hrun|]. intros x y Hx Hy.
  rewrite Hcells by assumption. f_equal.
  assert (Hstride : bitmap_stride = 96) by reflexivity.
  set (pw := padded_glyph_width_px) in *. set (ph := padded_glyph_height_px) in *.
  assert (Hzero : ∀ x', ¬ (6 ≤ x' < pw * 3 - 3 ∧ y < ph) → tap glyph_bitmap y x' = 0).
  { intros x' Hout. apply (tap_blank glyph_bitmap pw ph); [exact Hblank|exact Hy|].
    unfold horizontal_resolution. exact Hout. }
  unfold expected. cbv zeta.
  unfold atlas_item_width, atlas_item_height, horizontal_resolution in *.
  destruct (Z.ltb_spec y ph); cbn [andb].
  - destruct (Z.leb_spec 4 x); cbn [andb].
    + destruct (Z.ltb_spec x (pw * 3 - 1)); cbn [andb].
      * destruct (Z.ltb_spec y ph); [|lia]. cbn [orb].
        destruct (Z.eq_dec x (pw * 3 - 2)) as [Hlast|Hinner].
        -- unfold filtered, convolved. cbv zeta. unfold horizontal_resolution.
           destruct (Z.eqb_spec x (pw * 3 - 1 - 1)); [|lia].
           rewrite kernel_sum_four by lia.
           rewrite (Hzero (x + 2)) by lia.
           pose proof (tap_byte glyph_bitmap y (x - 2) Hb).
           pose proof (tap_byte glyph_bitmap y (x - 1) Hb).
           pose proof (tap_byte glyph_bitmap y x Hb).
           pose proof (tap_byte glyph_bitmap y (x + 1) Hb).
           rewrite clamp_byte by lia. f_equal. f_equal. lia.
        -- apply filtered_inner; unfold atlas_item_width, horizontal_resolution;
             [exact Hb|lia|lia].
      * unfold convolved.
        rewrite (Hzero (x - 2)), (Hzero (x - 1)), (Hzero x), (Hzero (x + 1)),
          (Hzero (x + 2)) by lia. reflexivity.
    + unfold convolved.
      rewrite (Hzero (x - 2)), (Hzero (x - 1)), (Hzero x), (Hzero (x + 1)),
        (Hzero (x + 2)) by lia. reflexivity.
  - unfold convolved.
    rewrite (Hzero (x - 2)), (Hzero (x - 1)), (Hzero x), (Hzero (x + 1)),
      (Hzero (x + 2)) by lia. reflexivity.
Qed.

Lemma lcd_filter_clamps_full_coverage_witness :
  ∃ atlas_item_bitmap,
    lcd_filter sample_glyph_bitmap 8 7 (replicate (Z.to_nat bitmap_size) 0) =
      Ok atlas_item_bitmap ∧
    atlas_item_bitmap !! Z.to_nat (10 + 0 * bitmap_stride) =
      Some (convolved sample_glyph_bitmap 0 10) ∧
    atlas_item_bitmap !! Z.to_nat (10 + 0 * bitmap_stride) = Some 255.
Proof.
  destruct (lcd_filter_clamps_full_coverage sample_glyph_bitmap 8 7)
    as (atlas_item_bitmap & Hrun & Hcells).
  - reflexivity.
  - vm_compute. split; discriminate.
  - vm_compute. split; discriminate.
  - vm_compute. reflexivity.
  - exists atlas_item_bitmap. split; [exact Hrun|].
    destruct (Hcells 10 0) as [Hcell Hfull].
    + vm_compute. split; [discriminate|reflexivity].
    + lia.
    + split; [exact Hcell|]. apply Hfull. intros k Hk.
      assert (Hcases : k = 0 ∨ k = 1 ∨ k = 2 ∨ k = 3 ∨ k = 4) by lia.
      destruct Hcases as [->|[->|[->|[->| ->]]]]; vm_compute; reflexivity.
Defined.

Lemma lcd_filter_is_full_convolution_witness :
  ∃ atlas_item_bitmap,
    lcd_filter sample_glyph_bitmap 8 7 (replicate (Z.to_nat bitmap_size) 0) =
      Ok atlas_item_bitmap ∧
    ∀ x y, 0 ≤ x < bitmap_stride → 0 ≤ y < atlas_item_height →
      atlas_item_bitmap !! Z.to_nat (x + y * bitmap_stride) =
      Some (convolved sample_glyph_bitmap y x).
Proof.
  apply (lcd_filter_is_full_convolution sample_glyph_bitmap 8 7).
  - reflexivity.
  - vm_compute. split; discriminate.
  - vm_compute. split; discriminate.
  - vm_compute. reflexivity.
  - vm_compute. reflexivity.
Defined.

End FilterMore.

(** * More about the glyph atlas and the layout *)

Module LayoutMore.
Import Main MainFacts LayoutRef.

Section AtlasMore.
Context {F : Type} `{FloatOps F}.
Variable font_info : stbtt_fontinfo F.
Variables font_scale line_height pos_x : F.
Variable text_color : color_t.

Local Abbreviation fill_atlas_item := (fill_atlas_item font_info font_scale).
Local Abbreviation get_or_create := (get_or_create font_info font_scale).
Local Abbreviation layout_body :=
  (layout_body font_info font_scale line_height pos_x text_color).
Local Abbreviation layout_codepoints :=
  (layout_codepoints font_info font_scale line_height pos_x text_color).
Local Abbreviation glyph_box codepoint :=
  (stbtt_GetGlyphBitmapBox font_info (stbtt_FindGlyphIndex font_info codepoint)
     font_scale font_scale).
Local Abbreviation consistent := (atlas_consistent font_info font_scale).

(** A glyph that does not fit into its cell of the atlas. *)
Lemma fill_atlas_item_too_large calls codepoint x0 y0 x1 y1 :
  glyph_box codepoint = (x0, y0, x1, y1) →
  0 < x1 - x0 → 0 < y1 - y0 →
  atlas_item_width < 3 + (x1 - x0) ∨ atlas_item_height < y1 - y0 →
  fill_atlas_item calls codepoint = AssertionFailed.
Proof.
  intros Hbox Hw Hh Hlarge. unfold Main.fill_atlas_item. rewrite Hbox.
  replace ((0 <? x1 - x0) && (0 <? y1 - y0)) with true
    by (symmetry; apply andb_true_iff; lia).
  unfold subpixel_positioning_left_padding, horizontal_filter_padding.
  replace ((1 + 1 + (x1 - x0) + 1 <=? atlas_item_width)
           && (y1 - y0 <=? atlas_item_height)) with false; [reflexivity|].
  symmetry. apply andb_false_iff. rewrite !Z.leb_gt. lia.
Qed.

(** What [fill_atlas_item] has done when it returns. *)
Lemma fill_atlas_item_inv calls codepoint item calls' x0 y0 x1 y1 :
  0 ≤ codepoint ≤ 127 →
  glyph_box codepoint = (x0, y0, x1, y1) →
  fill_atlas_item calls codepoint = Ok (item, calls') →
  ((x1 - x0 ≤ 0 ∨ y1 - y0 ≤ 0) ∧
   item = empty_item font_info codepoint y0 ∧ calls' = calls) ∨
  (0 < x1 - x0 ∧ 0 < y1 - y0 ∧
   3 + (x1 - x0) ≤ atlas_item_width ∧ y1 - y0 ≤ atlas_item_height ∧
   ∃ pixels,
     item = {| filled := true;
               tex_coords := {| left := codepoint mod 16 * 32;
                                top := codepoint / 16 * 32;
                                right := codepoint mod 16 * 32 + (3 + (x1 - x0));
                                bottom := codepoint / 16 * 32 + (y1 - y0) |};
               glyph_index := stbtt_FindGlyphIndex font_info codepoint;
               distance_from_baseline_to_top_px := - y0 |} ∧
     calls' = calls ++
       [MakeGlyphBitmap (stbtt_FindGlyphIndex font_info codepoint)
          (fmul font_scale (of_int 3)) font_scale;
        TextureSubImage2D (codepoint mod 16 * 32) (codepoint / 16 * 32) 32 32
          pixels]).
Proof.
  intros Hc Hbox Hfill.
  destruct (Z.le_gt_cases (x1 - x0) 0) as [Hw|Hw].
  { left. rewrite (fill_atlas_item_empty font_info font_scale calls codepoint
                     x0 y0 x1 y1 Hbox) in Hfill by auto.
    injection Hfill as <- <-. auto. }
  destruct (Z.le_gt_cases (y1 - y0) 0) as [Hh|Hh].
  { left. rewrite (fill_atlas_item_empty font_info font_scale calls codepoint
                     x0 y0 x1 y1 Hbox) in Hfill by auto.
    injection Hfill as <- <-. auto. }
  right.
  destruct (Z.le_gt_cases (3 + (x1 - x0)) atlas_item_width) as [Hfw|Hfw];
    [|rewrite (fill_atlas_item_too_large calls codepoint x0 y0 x1 y1) in Hfill
        by (assumption || lia); discriminate].
  destruct (Z.le_gt_cases (y1 - y0) atlas_item_height) as [Hfh|Hfh];
    [|rewrite (fill_atlas_item_too_large calls codepoint x0 y0 x1 y1) in Hfill
        by (assumption || lia); discriminate].
  destruct (fill_atlas_item_visible font_info font_scale calls codepoint
              x0 y0 x1 y1 Hc Hbox) as (pixels & Hvis); [lia..|].
  rewrite Hvis in Hfill. injection Hfill as <- <-.
  repeat (split; [lia|]). exists pixels. auto.
Qed.

(** The item that [get_or_create] returns is filled and in the table. *)
Lemma get_or_create_item atl codepoint item atl' :
  get_or_create atl codepoint = Ok (item, atl') →
  0 ≤ codepoint ≤ 127 ∧ filled item = true ∧
  glyph_atlas_items atl' !! Z.to_nat codepoint = Some item.
Proof.
  intros Hget.
  apply get_or_create_Ok in Hget
    as (Hle & Hpos & e & He & [(Hf & -> & ->)|(Hf & calls' & Hfill & ->)]).
  - auto.
  - split; [lia|]. split; [eapply fill_atlas_item_filled, Hfill|].
    cbn [glyph_atlas_items]. apply list_lookup_insert_eq.
    apply lookup_lt_Some in He. exact He.
Qed.

(** In a consistent atlas, the item that [get_or_create] returns is one
    that [fill_atlas_item] makes for the code point. *)
Lemma get_or_create_made atl codepoint item atl' :
  consistent atl → get_or_create atl codepoint = Ok (item, atl') →
  ∃ calls calls', fill_atlas_item calls codepoint = Ok (item, calls').
Proof.
  intros Hatl Hget.
  apply get_or_create_Ok in Hget
    as (Hle & Hpos & e & He & [(Hf & -> & ->)|(Hf & calls' & Hfill & ->)]).
  - destruct (Hatl _ _ He Hf) as (calls & calls' & Hfill).
    rewrite Z2Nat.id in Hfill by exact Hpos. eauto.
  - eauto.
Qed.

(** An item made by [fill_atlas_item] is marked with -1 exactly when the
    glyph has no visual representation. *)
Lemma made_item_visible calls codepoint item calls' :
  0 ≤ codepoint ≤ 127 →
  fill_atlas_item calls codepoint = Ok (item, calls') →
  negb (left (tex_coords item) =? -1) = visible font_info font_scale codepoint.
Proof.
  intros Hc Hfill. unfold visible.
  destruct (glyph_box codepoint) as [[[x0 y0] x1] y1] eqn:Hbox.
  destruct (fill_atlas_item_inv _ _ _ _ _ _ _ _ Hc Hbox Hfill)
    as [(Hempty & -> & _)|(Hw & Hh & _ & _ & pixels & -> & _)].
  - cbn. symmetry. apply andb_false_iff. rewrite !Z.ltb_ge. exact Hempty.
  - cbn [tex_coords left].
    destruct (Z.eqb_spec (codepoint mod 16 * 32) (-1));
      [Z.div_mod_to_equations; lia|].
    symmetry. apply andb_true_iff. rewrite !Z.ltb_lt. auto.
Qed.

(** X10: a glyph that does not fit into the 32 by 32 cell of the atlas
    (more than 29 pixels wide with its padding of 3, or more than 32 high)
    ends the program in the assertion when it is laid out, in every state
    the layout can be in: an item of such a glyph is never in the table. *)
Theorem oversized_glyph_fails_assertion
    (st : layout_t F) (codepoint : Z) (e : glyph_atlas_item_t) (x0 y0 x1 y1 : Z) :
  consistent (atlas st) →
  0 ≤ codepoint ≤ 127 → codepoint ≠ 10 →
  glyph_atlas_items (atlas st) !! Z.to_nat codepoint = Some e →
  glyph_box codepoint = (x0, y0, x1, y1) →
  0 < x1 - x0 → 0 < y1 - y0 →
  atlas_item_width < 3 + (x1 - x0) ∨ atlas_item_height < y1 - y0 →
  filled e = false ∧
  get_or_create (atlas st) codepoint = AssertionFailed ∧
  layout_body st codepoint = AssertionFailed.
Proof.
  intros Hatl Hc Hlf He Hbox Hw Hh Hlarge.
  assert (Hf : filled e = false).
  { destruct (filled e) eqn:Hf; [|reflexivity].
    destruct (Hatl _ _ He Hf) as (calls & calls' & Hfill).
    rewrite Z2Nat.id in Hfill by lia.
    rewrite (fill_atlas_item_too_large calls codepoint x0 y0 x1 y1) in Hfill
      by assumption. discriminate. }
  assert (Hget : get_or_create (atlas st) codepoint = AssertionFailed).
  { unfold Main.get_or_create.
    destruct (Z.leb_spec codepoint 127); [|lia]. cbn [assert mbind outcome_bind].
    rewrite (proj2 (index_Ok_inv _ _ e)) by (split; [lia|exact He]).
    cbn [mbind outcome_bind]. rewrite Hf.
    rewrite (fill_atlas_item_too_large _ codepoint x0 y0 x1 y1) by assumption.
    reflexivity. }
  split; [exact Hf|]. split; [exact Hget|].
  unfold Main.layout_body. destruct (Z.eqb_spec codepoint 10); [contradiction|].
  rewrite Hget. reflexivity.
Qed.

(** X11: the region of the atlas texture that an item made for a visible
    glyph names lies in the 32 by 32 cell of its code point, the cells lie
    in the upper half of the 512 by 512 texture, and the regions of two
    different code points do not overlap. *)
Theorem atlas_regions_disjoint
    (calls1 calls2 calls1' calls2' : list (call F)) (c1 c2 : Z)
    (item1 item2 : glyph_atlas_item_t) :
  0 ≤ c1 ≤ 127 → 0 ≤ c2 ≤ 127 → c1 ≠ c2 →
  fill_atlas_item calls1 c1 = Ok (item1, calls1') →
  fill_atlas_item calls2 c2 = Ok (item2, calls2') →
  left (tex_coords item1) ≠ -1 → left (tex_coords item2) ≠ -1 →
  (c1 mod 16 * 32 = left (tex_coords item1) ∧
   left (tex_coords item1) < right (tex_coords item1) ≤ c1 mod 16 * 32 + 32 ∧
   c1 / 16 * 32 = top (tex_coords item1) ∧
   top (tex_coords item1) < bottom (tex_coords item1) ≤ c1 / 16 * 32 + 32) ∧
  (0 ≤ left (tex_coords item1) ∧ right (tex_coords item1) ≤ glyph_atlas_width ∧
   0 ≤ top (tex_coords item1) ∧ bottom (tex_coords item1) ≤ 256) ∧
  (right (tex_coords item1) ≤ left (tex_coords item2) ∨
   right (tex_coords item2) ≤ left (tex_coords item1) ∨
   bottom (tex_coords item1) ≤ top (tex_coords item2) ∨
   bottom (tex_coords item2) ≤ top (tex_coords item1)).
Proof.
  intros Hc1 Hc2 Hne Hfill1 Hfill2 Hvis1 Hvis2.
  destruct (glyph_box c1) as [[[x0 y0] x1] y1] eqn:Hbox1.
  destruct (glyph_box c2) as [[[x0' y0'] x1'] y1'] eqn:Hbox2.
  destruct (fill_atlas_item_inv _ _ _ _ _ _ _ _ Hc1 Hbox1 Hfill1)
    as [(_ & -> & _)|(Hw1 & Hh1 & Hfw1 & Hfh1 & pixels1 & -> & _)];
    [cbn in Hvis1; congruence|].
  destruct (fill_atlas_item_inv _ _ _ _ _ _ _ _ Hc2 Hbox2 Hfill2)
    as [(_ & -> & _)|(Hw2 & Hh2 & Hfw2 & Hfh2 & pixels2 & -> & _)];
    [cbn in Hvis2; congruence|].
  cbn [tex_coords left right top bottom].
  unfold atlas_item_width, atlas_item_height, glyph_atlas_width in *.
  Z.div_mod_to_equations. lia.
Qed.

(** *** The loop over a text *)

Lemma layout_from_outcome (o : outcome (layout_t F)) codepoints :
  foldl (λ o codepoint, st ← o; layout_body st codepoint) o codepoints =
  o ≫= λ st, layout_codepoints st codepoints.
Proof.
  unfold Main.layout_codepoints.
  revert o. induction codepoints as [|c cs IH]; intros o; cbn [foldl].
  - destruct o; reflexivity.
  - rewrite IH. destruct o as [st| |]; cbn [mbind outcome_bind]; [|reflexivity..].
    rewrite (IH (layout_body st c)). reflexivity.
Qed.

Lemma layout_codepoints_app st pre rest :
  layout_codepoints st (pre ++ rest) =
  layout_codepoints st pre ≫= λ st1, layout_codepoints st1 rest.
Proof.
  unfold Main.layout_codepoints at 1. rewrite foldl_app.
  apply layout_from_outcome.
Qed.

Lemma layout_codepoints_cons st c rest :
  layout_codepoints st (c :: rest) =
  layout_body st c ≫= λ st1, layout_codepoints st1 rest.
Proof.
  unfold Main.layout_codepoints at 1. cbn [foldl mbind outcome_bind].
  apply layout_from_outcome.
Qed.

Lemma layout_codepoints_snoc st pre c st' :
  layout_codepoints st (pre ++ [c]) = Ok st' ↔
  ∃ st1, layout_codepoints st pre = Ok st1 ∧ layout_body st1 c = Ok st'.
Proof.
  rewrite layout_codepoints_app, bind_Ok_inv.
  split; intros (st1 & Hpre & Hstep); exists st1; split; try exact Hpre.
  - rewrite layout_codepoints_cons in Hstep.
    destruct (layout_body st1 c); [|discriminate..]. exact Hstep.
  - rewrite layout_codepoints_cons, Hstep. reflexivity.
Qed.

(** The rectangle that the loop body appends. *)
Lemma layout_body_rects st codepoint st' :
  codepoint ≠ 10 → layout_body st codepoint = Ok st' →
  ∃ item atl,
    get_or_create (atlas st) codepoint = Ok (item, atl) ∧ atlas st' = atl ∧
    if negb (left (tex_coords item) =? -1)
    then Z.of_nat (length (rect_buffer st)) < rect_buffer_size ∧
         ∃ rect, rect_buffer st' = rect_buffer st ++ [rect] ∧
                 rect_tex_coords rect = tex_coords item ∧ color rect = text_color
    else rect_buffer st' = rect_buffer st.
Proof.
  intros Hlf. unfold Main.layout_body.
  destruct (Z.eqb_spec codepoint 10) as [|_]; [contradiction|].
  rewrite bind_Ok_inv. intros ([item atl] & Hget & Hrest).
  exists item, atl. split; [exact Hget|].
  destruct (stbtt_GetGlyphHMetrics font_info (glyph_index item)) as [adv lsb].
  apply bind_Ok_inv in Hrest as (rects & Hrects & [= <-]).
  cbn [atlas rect_buffer]. split; [reflexivity|].
  destruct (negb (left (tex_coords item) =? -1)).
  - destruct (modff _) as [shift px].
    destruct (Z.ltb_spec (Z.of_nat (length (rect_buffer st))) rect_buffer_size);
      [|discriminate].
    cbn [mbind outcome_bind] in Hrects. injection Hrects as <-.
    split; [assumption|]. eexists. split; [reflexivity|]. split; reflexivity.
  - injection Hrects as <-. reflexivity.
Qed.

Lemma layout_body_count st codepoint st' :
  consistent (atlas st) → layout_body st codepoint = Ok st' →
  length (rect_buffer st') =
    (length (rect_buffer st) +
     (if draws font_info font_scale codepoint then 1 else 0))%nat.
Proof.
  intros Hatl Hstep. unfold draws.
  destruct (Z.eqb_spec codepoint 10) as [->|Hlf]; cbn [negb andb].
  - rewrite layout_body_line_feed in Hstep. injection Hstep as <-.
    cbn [rect_buffer]. lia.
  - destruct (layout_body_rects st codepoint st' Hlf Hstep)
      as (item & atl & Hget & _ & Hrects).
    destruct (get_or_create_made _ _ _ _ Hatl Hget) as (calls & calls' & Hfill).
    destruct (get_or_create_item _ _ _ _ Hget) as (Hc & _ & _).
    rewrite (made_item_visible _ _ _ _ Hc Hfill) in Hrects.
    destruct (visible font_info font_scale codepoint).
    + destruct Hrects as (_ & rect & -> & _). rewrite length_app.
      cbn [length]. lia.
    + rewrite Hrects. lia.
Qed.

(** X12: one rectangle for every glyph that shows. When a text is laid out
    with no assertion failing and no access outside of an array, the
    rectangle buffer has got as many rectangles more as the text has code
    points that are no line feed and whose glyph has a visual
    representation, whether their glyphs were in the atlas before or
    not. *)
Theorem one_rectangle_per_visible_glyph
    (st : layout_t F) (codepoints : list Z) (st' : layout_t F) :
  consistent (atlas st) →
  layout_codepoints st codepoints = Ok st' →
  length (rect_buffer st') =
    (length (rect_buffer st) +
     length (List.filter (draws font_info font_scale) codepoints))%nat.
Proof.
  revert st'. induction codepoints as [|c cs IH] using rev_ind; intros st' Hatl.
  - intros [= <-]. cbn. lia.
  - intros (st1 & Hcs & Hstep)%layout_codepoints_snoc.
    pose proof (IH st1 Hatl Hcs) as Hlen1.
    destruct (layout_codepoints_consistent font_info font_scale line_height pos_x
                text_color cs st st1 Hatl Hcs) as [Hatl1 _].
    pose proof (layout_body_count st1 c st' Hatl1 Hstep) as Hlen'.
    rewrite List.filter_app, length_app. cbn [List.filter].
    rewrite Hlen', Hlen1. destruct (draws font_info font_scale c); cbn [length]; lia.
Qed.

(** *** Laying out on a fuller atlas *)

Lemma atlas_le_refl (atl : atlas_t F) : atlas_le atl atl.
Proof. intros k e He _. exact He. Qed.

Lemma atlas_le_trans (atl1 atl2 atl3 : atlas_t F) :
  atlas_le atl1 atl2 → atlas_le atl2 atl3 → atlas_le atl1 atl3.
Proof. intros H12 H23 k e He Hf. apply H23; [apply H12|]; assumption. Qed.

Lemma layout_body_grows st codepoint st' :
  layout_body st codepoint = Ok st' → atlas_le (atlas st) (atlas st').
Proof.
  intros Hstep. destruct (Z.eq_dec codepoint 10) as [->|Hlf].
  - rewrite layout_body_line_feed in Hstep. injection Hstep as <-.
    apply atlas_le_refl.
  - apply layout_body_glyph in Hstep as (item & atl & Hget & <- & _);
      [|exact Hlf].
    intros k e He Hf. eapply get_or_create_keeps_filled; eassumption.
Qed.

Lemma layout_body_again st codepoint st' atl :
  layout_body st codepoint = Ok st' → atlas_le (atlas st') atl →
  layout_body (with_atlas st atl) codepoint = Ok (with_atlas st' atl).
Proof.
  intros Hstep Hle. destruct (Z.eq_dec codepoint 10) as [->|Hlf].
  - rewrite layout_body_line_feed in *. injection Hstep as <-. reflexivity.
  - destruct (layout_body_glyph _ _ _ _ _ st codepoint st' Hlf Hstep)
      as (item & atl1 & Hget & Hatl1 & _).
    destruct (get_or_create_item _ _ _ _ Hget) as (Hc & Hf & Hitem).
    rewrite <- Hatl1 in Hitem. pose proof (Hle _ _ Hitem Hf) as Hitem'.
    assert (Hagain : get_or_create atl codepoint = Ok (item, atl)).
    { apply get_or_create_Ok. split; [lia|]. split; [lia|].
      exists item. split; [exact Hitem'|]. left. auto. }
    revert Hstep. unfold Main.layout_body.
    destruct (Z.eqb_spec codepoint 10) as [|_]; [contradiction|].
    unfold with_atlas, kerned_x.
    cbn [atlas rect_buffer current_x current_y prev_codepoint].
    rewrite Hget, Hagain. cbn [mbind outcome_bind].
    destruct (stbtt_GetGlyphHMetrics font_info (glyph_index item)) as [adv lsb].
    destruct (if negb (left (tex_coords item) =? -1) then _ else _)
      as [rects| |]; cbn [mbind outcome_bind]; [|discriminate..].
    intros [= <-]. reflexivity.
Qed.

(** X13: the rectangle buffer has room for 255 rectangles and the loop body
    does not check it. With 255 rectangles in the buffer, the next glyph
    that shows is written behind the end of [rect_buffer]. *)
Theorem rect_buffer_overflow
    (st : layout_t F) (codepoint : Z) (item : glyph_atlas_item_t) (atl : atlas_t F) :
  codepoint ≠ 10 →
  get_or_create (atlas st) codepoint = Ok (item, atl) →
  left (tex_coords item) ≠ -1 →
  rect_buffer_size ≤ Z.of_nat (length (rect_buffer st)) →
  layout_body st codepoint = OutOfBounds.
Proof.
  intros Hlf Hget Hvis Hfull. unfold Main.layout_body.
  destruct (Z.eqb_spec codepoint 10) as [|_]; [contradiction|].
  rewrite Hget. cbn [mbind outcome_bind].
  destruct (stbtt_GetGlyphHMetrics font_info (glyph_index item)) as [adv lsb].
  destruct (Z.eqb_spec (left (tex_coords item)) (-1)) as [|_]; [contradiction|].
  cbn [negb]. destruct (modff _) as [shift px].
  destruct (Z.ltb_spec (Z.of_nat (length (rect_buffer st))) rect_buffer_size);
    [lia|]. reflexivity.
Qed.

Lemma layout_codepoints_length codepoints : ∀ st st',
  layout_codepoints st codepoints = Ok st' →
  length (glyph_atlas_items (atlas st')) = length (glyph_atlas_items (atlas st)).
Proof.
  induction codepoints as [|c cs IH] using rev_ind; intros st st'.
  - intros [= <-]. reflexivity.
  - intros (st1 & Hcs & Hstep)%layout_codepoints_snoc.
    rewrite <- (IH st st1 Hcs).
    destruct (Z.eq_dec c 10) as [->|Hlf].
    + rewrite layout_body_line_feed in Hstep. injection Hstep as <-. reflexivity.
    + apply layout_body_glyph in Hstep as (item & atl & Hget & <- & _);
        [|exact Hlf].
      apply get_or_create_Ok in Hget
        as (_ & _ & e & _ & [(_ & _ & ->)|(_ & calls' & _ & ->)]);
        [reflexivity|apply length_insert].
Qed.

(** X14: a text with a code point above 127 is not laid out to its end.
    When the loop comes to such a code point, after the code points before
    it were laid out, the program ends in the assertion
    [codepoint <= 127], whatever state the layout is in and whatever
    follows in the text: no code point behind it is laid out. *)
Theorem layout_stops_above_127
    (st : layout_t F) (pre : list Z) (codepoint : Z) (rest : list Z)
    (st1 : layout_t F) :
  layout_codepoints st pre = Ok st1 →
  127 < codepoint →
  layout_body st1 codepoint = AssertionFailed ∧
  layout_codepoints st (pre ++ codepoint :: rest) = AssertionFailed.
Proof.
  intros Hpre Hc.
  assert (Hstep : layout_body st1 codepoint = AssertionFailed).
  { unfold Main.layout_body.
    destruct (Z.eqb_spec codepoint 10) as [|_]; [lia|].
    unfold Main.get_or_create.
    destruct (Z.leb_spec codepoint 127); [lia|]. reflexivity. }
  split; [exact Hstep|].
  rewrite layout_codepoints_app, Hpre. cbn [mbind outcome_bind].
  rewrite layout_codepoints_cons, Hstep. reflexivity.
Qed.

(** X15: the pen and the line feeds. After a text is laid out, the
    vertical pen position is the one before, moved down by the rounded line
    height once for every line feed of the text, whatever else the text
    holds; and the code point remembered for kerning is the last one of
    the text. *)
Theorem pen_moves_down_per_line_feed
    (st : layout_t F) (codepoints : list Z) (st' : layout_t F) :
  layout_codepoints st codepoints = Ok st' →
  current_y st' =
    Nat.iter (length (List.filter (Z.eqb 10) codepoints))
      (λ y, fadd y (round line_height)) (current_y st) ∧
  prev_codepoint st' = List.last codepoints (prev_codepoint st).
Proof.
  revert st'. induction codepoints as [|c cs IH] using rev_ind; intros st'.
  - intros [= <-]. split; reflexivity.
  - intros (st1 & Hcs & Hstep)%layout_codepoints_snoc.
    destruct (IH st1 Hcs) as [Hy1 Hprev1].
    rewrite List.filter_app, length_app, List.last_last. cbn [List.filter].
    destruct (Z.eqb_spec 10 c) as [<-|Hlf].
    + rewrite layout_body_line_feed in Hstep. injection Hstep as <-.
      cbn [current_y prev_codepoint length]. split; [|reflexivity].
      rewrite Nat.add_1_r. cbn [Nat.iter]. rewrite Hy1. reflexivity.
    + apply layout_body_glyph in Hstep as (item & atl & _ & _ & Hprev & _ & Hy);
        [|congruence].
      cbn [length]. rewrite Nat.add_0_r. split; congruence.
Qed.

(** *** How often glyphs are rasterized *)

Lemma filter_insert_length {A} (P : A → bool) (l : list A) k e x :
  l !! k = Some e → P e = false →
  length (List.filter P (<[k:=x]> l)) =
  (length (List.filter P l) + (if P x then 1 else 0))%nat.
Proof.
  intros He HP. pose proof (take_drop_middle l k e He) as Hl.
  rewrite insert_take_drop by (eapply lookup_lt_Some, He).
  replace (List.filter P l) with (List.filter P (take k l ++ e :: drop (S k) l))
    by (rewrite Hl; reflexivity).
  rewrite !List.filter_app. cbn [List.filter]. rewrite HP.
  destruct (P x); rewrite !length_app; cbn [length]; lia.
Qed.

Lemma get_or_create_calls atl codepoint item atl' :
  get_or_create atl codepoint = Ok (item, atl') →
  length (calls atl) = (2 * length (List.filter rasterized (glyph_atlas_items atl)))%nat →
  length (calls atl') = (2 * length (List.filter rasterized (glyph_atlas_items atl')))%nat.
Proof.
  intros Hget Hcount.
  apply get_or_create_Ok in Hget
    as (Hle & Hpos & e & He & [(_ & _ & ->)|(Hf & calls' & Hfill & ->)]);
    [exact Hcount|].
  cbn [calls glyph_atlas_items].
  rewrite (filter_insert_length rasterized _ _ e)
    by (exact He || (unfold rasterized; rewrite Hf; reflexivity)).
  destruct (glyph_box codepoint) as [[[x0 y0] x1] y1] eqn:Hbox.
  destruct (fill_atlas_item_inv _ _ _ _ _ _ _ _ (conj Hpos Hle) Hbox Hfill)
    as [(_ & -> & ->)|(_ & _ & _ & _ & pixels & -> & ->)].
  - cbn. lia.
  - unfold rasterized in *. cbn [filled tex_coords left andb].
    destruct (Z.eqb_spec (codepoint mod 16 * 32) (-1));
      [Z.div_mod_to_equations; lia|].
    cbn [negb]. rewrite length_app. cbn [length]. lia.
Qed.

(** X16: every glyph is rasterized and uploaded at most once. Whatever text
    is laid out, the calls that were made for the atlas texture are two for
    every item of the table that holds a rasterized glyph (one call that
    rasterizes, one that uploads): never more than two for each of the 127
    items, however long the text is and however often it is laid out. *)
Theorem glyphs_are_rasterized_once
    (st : layout_t F) (codepoints : list Z) (st' : layout_t F) :
  length (calls (atlas st)) =
    (2 * length (List.filter rasterized (glyph_atlas_items (atlas st))))%nat →
  layout_codepoints st codepoints = Ok st' →
  length (calls (atlas st')) =
    (2 * length (List.filter rasterized (glyph_atlas_items (atlas st'))))%nat ∧
  (length (calls (atlas st')) ≤ 2 * length (glyph_atlas_items (atlas st)))%nat.
Proof.
  intros Hcount Hrun.
  assert (Hinv : length (calls (atlas st')) =
    (2 * length (List.filter rasterized (glyph_atlas_items (atlas st'))))%nat).
  { revert st' Hrun. induction codepoints as [|c cs IH] using rev_ind; intros st'.
    - intros [= <-]. exact Hcount.
    - intros (st1 & Hcs & Hstep)%layout_codepoints_snoc.
      specialize (IH st1 Hcs).
      destruct (Z.eq_dec c 10) as [->|Hlf].
      + rewrite layout_body_line_feed in Hstep. injection Hstep as <-. exact IH.
      + apply layout_body_glyph in Hstep as (item & atl & Hget & <- & _);
          [|exact Hlf].
        eapply get_or_create_calls; eassumption. }
  split; [exact Hinv|].
  rewrite Hinv, <- (layout_codepoints_length codepoints st st' Hrun).
  pose proof (List.filter_length_le rasterized (glyph_atlas_items (atlas st'))).
  lia.
Qed.

End AtlasMore.

Lemma oversized_glyph_fails_assertion_witness :
  filled {| filled := false;
            tex_coords := {| left := 0; top := 0; right := 0; bottom := 0 |};
            glyph_index := 0; distance_from_baseline_to_top_px := 0 |} = false ∧
  get_or_create sample_font 6 (atlas sample_start) 65 = AssertionFailed ∧
  layout_body sample_font 6 12 10 sample_color sample_start 65 = AssertionFailed.
Proof.
  apply (oversized_glyph_fails_assertion sample_font 6 12 10 sample_color
           sample_start 65 _ 0 (-42) 30 0).
  - exact (atlas_consistent_init sample_font 6 []).
  - lia.
  - discriminate.
  - reflexivity.
  - reflexivity.
  - lia.
  - lia.
  - left. vm_compute. reflexivity.
Defined.

Lemma atlas_regions_disjoint_witness :
  ∃ item1 item2,
    (65 mod 16 * 32 = left (tex_coords item1) ∧
     left (tex_coords item1) < right (tex_coords item1) ≤ 65 mod 16 * 32 + 32 ∧
     65 / 16 * 32 = top (tex_coords item1) ∧
     top (tex_coords item1) < bottom (tex_coords item1) ≤ 65 / 16 * 32 + 32) ∧
    (0 ≤ left (tex_coords item1) ∧ right (tex_coords item1) ≤ glyph_atlas_width ∧
     0 ≤ top (tex_coords item1) ∧ bottom (tex_coords item1) ≤ 256) ∧
    (right (tex_coords item1) ≤ left (tex_coords item2) ∨
     right (tex_coords item2) ≤ left (tex_coords item1) ∨
     bottom (tex_coords item1) ≤ top (tex_coords item2) ∨
     bottom (tex_coords item2) ≤ top (tex_coords item1)).
Proof.
  destruct (fill_atlas_item_visible sample_font 1 [] 65 0 (-7) 5 0)
    as (pixels1 & Hfill1);
    [lia|reflexivity|lia|lia|vm_compute; discriminate|vm_compute; discriminate|].
  destruct (fill_atlas_item_visible sample_font 1 [] 66 0 (-7) 5 0)
    as (pixels2 & Hfill2);
    [lia|reflexivity|lia|lia|vm_compute; discriminate|vm_compute; discriminate|].
  eexists _, _.
  eapply (atlas_regions_disjoint sample_font 1 [] [] _ _ 65 66).
  - lia.
  - lia.
  - discriminate.
  - exact Hfill1.
  - exact Hfill2.
  - vm_compute. discriminate.
  - vm_compute. discriminate.
Defined.

Lemma one_rectangle_per_visible_glyph_witness :
  length (rect_buffer (sample_state [72; 105; 32; 10; 72; 111])) =
    (length (rect_buffer sample_start) +
     length (List.filter (draws sample_font 1%Z) [72; 105; 32; 10; 72; 111]%Z))%nat.
Proof.
  apply (one_rectangle_per_visible_glyph sample_font 1 12 10 sample_color
           sample_start [72; 105; 32; 10; 72; 111]).
  - exact (atlas_consistent_init sample_font 1 []).
  - vm_compute. reflexivity.
Defined.

Lemma rect_buffer_overflow_witness :
  layout_body sample_font 1 12 10 sample_color (sample_state (replicate 255 65)) 65
  = OutOfBounds.
Proof.
  apply (rect_buffer_overflow sample_font 1 12 10 sample_color
           (sample_state (replicate 255 65)) 65
           {| filled := true;
              tex_coords := {| left := 32; top := 128; right := 40; bottom := 135 |};
              glyph_index := 65; distance_from_baseline_to_top_px := 7 |}
           (atlas (sample_state (replicate 255 65)))).
  - discriminate.
  - vm_compute. reflexivity.
  - vm_compute. discriminate.
  - vm_compute. discriminate.
Defined.

Lemma layout_stops_above_127_witness :
  layout_body sample_font 1 12 10 sample_color (sample_state [72; 105]) 233
    = AssertionFailed ∧
  layout_codepoints sample_font 1 12 10 sample_color sample_start
    ([72; 105] ++ 233 :: [33]) = AssertionFailed.
Proof.
  apply (layout_stops_above_127 sample_font 1 12 10 sample_color sample_start
           [72; 105] 233 [33] (sample_state [72; 105])).
  - vm_compute. reflexivity.
  - lia.
Defined.

Lemma pen_moves_down_per_line_feed_witness :
  current_y (sample_state [65; 10; 66; 10; 10; 67]) =
    Nat.iter (length (List.filter (Z.eqb 10) [65; 10; 66; 10; 10; 67]))
      (λ y, fadd y (round 12)) (current_y sample_start) ∧
  prev_codepoint (sample_state [65; 10; 66; 10; 10; 67]) =
    List.last [65; 10; 66; 10; 10; 67] (prev_codepoint sample_start).
Proof.
  apply (pen_moves_down_per_line_feed sample_font 1 12 10 sample_color
           sample_start [65; 10; 66; 10; 10; 67]).
  vm_compute. reflexivity.
Defined.

Lemma glyphs_are_rasterized_once_witness :
  length (calls (atlas (sample_state [65; 32; 65; 66; 65]))) =
    (2 * length (List.filter rasterized
                   (glyph_atlas_items
                      (atlas (sample_state [65; 32; 65; 66; 65]%Z)))))%nat ∧
  (length (calls (atlas (sample_state [65; 32; 65; 66; 65]%Z)))
   ≤ 2 * length (glyph_atlas_items (atlas sample_start)))%nat.
Proof.
  apply (glyphs_are_rasterized_once sample_font 1 12 10 sample_color
           sample_start [65; 32; 65; 66; 65]).
  - reflexivity.
  - vm_compute. reflexivity.
Defined.

End LayoutMore.

(** * The loop over the text and the redraw *)

Module RedrawFacts.
Import Utf8 Main MainFacts LayoutRef LayoutMore Redraw.

Section Frames.
Variable clz_zero : Z.
Variable mem : list Z.
Context {F : Type} `{FloatOps F}.
Variable font_info : stbtt_fontinfo F.
Variables font_scale line_height baseline pos_x pos_y : F.
Variable text_color : color_t.

Local Abbreviation layout_body :=
  (layout_body font_info font_scale line_height pos_x text_color).
Local Abbreviation layout_codepoints :=
  (layout_codepoints font_info font_scale line_height pos_x text_color).
Local Abbreviation layout_from :=
  (layout_from clz_zero mem font_info font_scale line_height pos_x text_color).
Local Abbreviation layout_text :=
  (layout_text clz_zero mem font_info font_scale line_height baseline pos_x pos_y
     text_color).
Local Abbreviation redraw :=
  (redraw clz_zero mem font_info font_scale line_height baseline pos_x pos_y
     text_color).

Lemma layout_from_codepoints fuel : ∀ it st codepoints,
  codepoints_from clz_zero mem fuel it = Finished codepoints →
  layout_from fuel it st = Returned (layout_codepoints st codepoints).
Proof.
  induction fuel as [|fuel IH]; intros it st cps;
    cbn [codepoints_from Redraw.layout_from];
    destruct (Z.eqb_spec (codepoint it) 0) as [Hz|Hnz];
    try (intros [= <-]; reflexivity); try discriminate.
  destruct (value (utf8_next clz_zero mem it)) as [it'|] eqn:Hnext; [|discriminate].
  destruct (codepoints_from clz_zero mem fuel it') as [l| |] eqn:Hrest;
    try discriminate.
  intros [= <-]. rewrite layout_codepoints_cons.
  destruct (layout_body st (codepoint it)) as [st'| |]; cbn [mbind outcome_bind];
    [|reflexivity..].
  apply IH, Hrest.
Qed.

(** X17: the loop over the text is the loop body run on the code points
    that the iterator yields, one after the other: when the iteration over
    the text ends with the code points [codepoints], the block that lays
    out the text ends as [layout_codepoints] does on them, from the pen at
    the start position, code point 0 before and an empty rectangle
    buffer. In particular it ends in the first failure of the loop body,
    if there is one. *)
Theorem layout_text_runs_body_on_codepoints
    (fuel : nat) (text : Z) (atl : atlas_t F) (codepoints : list Z) :
  utf8_codepoints clz_zero mem fuel text = Finished codepoints →
  layout_text fuel text atl =
  Returned (layout_codepoints
              {| current_x := pos_x;
                 current_y := fadd pos_y (round baseline);
                 prev_codepoint := 0;
                 atlas := atl;
                 rect_buffer := [] |} codepoints).
Proof.
  unfold utf8_codepoints, Redraw.layout_text.
  destruct (value (utf8_first clz_zero mem text)) as [it|]; [|discriminate].
  apply layout_from_codepoints.
Qed.

Lemma layout_from_grows fuel : ∀ it st st',
  layout_from fuel it st = Returned (Ok st') → atlas_le (atlas st) (atlas st').
Proof.
  induction fuel as [|fuel IH]; intros it st st'; cbn [Redraw.layout_from];
    destruct (Z.eqb_spec (codepoint it) 0) as [Hz|Hnz];
    try (intros [= <-]; apply atlas_le_refl); try discriminate.
  destruct (layout_body st (codepoint it)) as [st1| |] eqn:Hstep; try discriminate.
  destruct (value (utf8_next clz_zero mem it)) as [it'|]; [|discriminate].
  intros Hrest. eapply atlas_le_trans; [|eapply IH, Hrest].
  eapply layout_body_grows, Hstep.
Qed.

Lemma layout_from_again fuel : ∀ it st st' atl,
  layout_from fuel it st = Returned (Ok st') → atlas_le (atlas st') atl →
  layout_from fuel it (with_atlas st atl) = Returned (Ok (with_atlas st' atl)).
Proof.
  induction fuel as [|fuel IH]; intros it st st' atl; cbn [Redraw.layout_from];
    destruct (Z.eqb_spec (codepoint it) 0) as [Hz|Hnz];
    try (intros [= <-] _; reflexivity); try discriminate.
  destruct (layout_body st (codepoint it)) as [st1| |] eqn:Hstep; try discriminate.
  destruct (value (utf8_next clz_zero mem it)) as [it'|]; [|discriminate].
  intros Hrest Hle.
  rewrite (layout_body_again font_info font_scale line_height pos_x text_color
             st (codepoint it) st1 atl Hstep).
  - apply IH; assumption.
  - eapply atlas_le_trans; [eapply layout_from_grows, Hrest|exact Hle].
Qed.

(** X18: two redraws in a row. When a redraw got through, the next redraw
    of the same text, on the glyph atlas as the first one left it, draws
    the same rectangles with the same calls and leaves the atlas as it is:
    the table unchanged, and no further call that rasterizes or uploads a
    glyph. The draw call has one instance for every rectangle in the
    buffer, and the upload has 24 bytes for each. *)
Theorem redraw_again_is_stable
    (fuel : nat) (text : Z) (atl atl' : atlas_t F) (frame : list (draw_call F)) :
  redraw fuel text atl = Returned (Ok (atl', frame)) →
  redraw fuel text atl' = Returned (Ok (atl', frame)) ∧
  ∃ rects, frame = [NamedBufferData (Z.of_nat (length rects) * 24) rects;
                    DrawArraysInstanced 0 6 (Z.of_nat (length rects))].
Proof.
  unfold Redraw.redraw, Redraw.layout_text.
  destruct (value (utf8_first clz_zero mem text)) as [it|]; [|discriminate].
  destruct (layout_from fuel it _) as [[st'| |]| |] eqn:Hrun; try discriminate.
  intros [= <- <-]. split; [|exists (rect_buffer st'); reflexivity].
  pose proof (layout_from_again fuel it _ st' (atlas st') Hrun (atlas_le_refl _))
    as Hagain.
  unfold with_atlas in Hagain.
  cbn [current_x current_y prev_codepoint rect_buffer] in Hagain.
  rewrite Hagain. reflexivity.
Qed.

End Frames.

Lemma layout_text_runs_body_on_codepoints_witness :
  layout_text 32 [72; 105; 32; 0xC3; 0xA9; 0] sample_font 1 12 10 10 10 sample_color
    4 0 (atlas sample_start) =
  Returned (layout_codepoints sample_font 1 12 10 sample_color
              {| current_x := 10;
                 current_y := fadd 10 (round 10);
                 prev_codepoint := 0;
                 atlas := atlas sample_start;
                 rect_buffer := [] |} [72; 105; 32; 0xE9]).
Proof.
  apply (layout_text_runs_body_on_codepoints 32 [72; 105; 32; 0xC3; 0xA9; 0]
           sample_font 1 12 10 10 10 sample_color 4 0 (atlas sample_start)
           [72; 105; 32; 0xE9]).
  vm_compute. reflexivity.
Defined.

Lemma redraw_again_is_stable_witness :
  redraw 32 [72; 105; 32; 72; 111; 0] sample_font 1 12 10 10 10 sample_color 5 0
    (atlas (sample_state [72; 105; 32; 72; 111])) =
  Returned (Ok (atlas (sample_state [72; 105; 32; 72; 111]),
                draw (rect_buffer (sample_state [72; 105; 32; 72; 111])))) ∧
  ∃ rects,
    draw (rect_buffer (sample_state [72; 105; 32; 72; 111])) =
    [NamedBufferData (Z.of_nat (length rects) * 24) rects;
     DrawArraysInstanced 0 6 (Z.of_nat (length rects))].
Proof.
  apply (redraw_again_is_stable 32 [72; 105; 32; 72; 111; 0] sample_font
           1 12 10 10 10 sample_color 5 0 (atlas sample_start)
           (atlas (sample_state [72; 105; 32; 72; 111]))
           (draw (rect_buffer (sample_state [72; 105; 32; 72; 111])))).
  vm_compute. reflexivity.
Defined.

End RedrawFacts.

(** * The listing of a shader source *)

Module ShaderSourceFacts.
Import ShaderSource.

Lemma clean_cons c line :
  clean (c :: line) = true ↔ c ≠ 10 ∧ c ≠ 0 ∧ clean line = true.
Proof.
  unfold clean. cbn [forallb]. rewrite !andb_true_iff, !negb_true_iff, !Z.eqb_neq.
  tauto.
Qed.

Lemma string_chars_line line : ∀ more,
  clean line = true →
  string_chars (length line) (line ++ more) = line.
Proof.
  induction line as [|c line IH]; intros more Hclean; cbn [length app string_chars].
  - destruct more; reflexivity.
  - apply clean_cons in Hclean as (_ & Hnz & Hclean).
    destruct (Z.eqb_spec c 0); [contradiction|]. rewrite IH by exact Hclean.
    reflexivity.
Qed.

Lemma line_end_loop_line line : ∀ t more p,
  clean line = true → t = 10 ∨ t = 0 →
  line_end_loop (line ++ t :: more) p = Some (p + Z.of_nat (length line)).
Proof.
  induction line as [|c line IH]; intros t more p Hclean Ht;
    cbn [app line_end_loop length].
  - replace ((t =? 10) || (t =? 0)) with true
      by (destruct Ht as [-> | ->]; reflexivity).
    cbn [negb]. f_equal. lia.
  - apply clean_cons in Hclean as (Hlf & Hnz & Hclean).
    destruct (Z.eqb_spec c 10); [contradiction|].
    destruct (Z.eqb_spec c 0); [contradiction|]. cbn [orb negb].
    rewrite IH by assumption. f_equal. lia.
Qed.

Section Listing.
Variable mem : list Z.
Variable e : Z.

Lemma char_at_app pre more i c :
  mem = pre ++ more → more !! i = Some c →
  char_at mem (Z.of_nat (length pre) + Z.of_nat i) = Some c.
Proof.
  intros -> Hc. unfold char_at.
  destruct (Z.ltb_spec (Z.of_nat (length pre) + Z.of_nat i) 0); [lia|].
  replace (Z.to_nat (Z.of_nat (length pre) + Z.of_nat i))
    with (length pre + i)%nat by lia.
  rewrite lookup_app_r by lia.
  replace (length pre + i - length pre)%nat with i by lia. exact Hc.
Qed.

(** One round of the loop, on a line that ends in [t]. *)
Lemma lines_loop_line fuel n pre line t more :
  clean line = true → t = 10 ∨ t = 0 → line ≠ [] ∨ t = 10 →
  mem = pre ++ line ++ t :: more →
  Z.of_nat (length mem) ≤ INT_MAX → n < INT_MAX →
  - INT_MAX ≤ n - e ≤ INT_MAX →
  lines_loop mem (S fuel) e n (Z.of_nat (length pre)) =
  match lines_loop mem fuel e (n + 1)
          (Z.of_nat (length pre) + Z.of_nat (length line)
           + (if t =? 10 then 1 else 0)) with
  | Listed lines =>
      Listed ((if shown e (n, line) then [(n, line)] else []) ++ lines)
  | r => r
  end.
Proof.
  intros Hclean Ht Hfirst Hmem Hlen Hn Hd. cbn [lines_loop].
  assert (Hhead : ∃ c, (line ++ t :: more) !! 0%nat = Some c ∧ c ≠ 0).
  { destruct line as [|c line]; cbn [app].
    - exists t. split; [reflexivity|]. destruct Hfirst as [Hne | ->]; [congruence|lia].
    - exists c. split; [reflexivity|]. apply clean_cons in Hclean. tauto. }
  destruct Hhead as (c & Hc & Hnz).
  pose proof (char_at_app pre _ 0 c Hmem Hc) as Hat.
  rewrite Z.add_0_r in Hat. rewrite Hat.
  destruct (Z.eqb_spec c 0); [contradiction|].
  assert (Hdrop : drop (Z.to_nat (Z.of_nat (length pre))) mem = line ++ t :: more).
  { rewrite Nat2Z.id, Hmem. apply drop_app_length. }
  rewrite Hdrop, (line_end_loop_line line t more) by assumption.
  assert (Hshown : (if e =? -1 then Some true else near n e) = Some (shown e (n, line))).
  { unfold shown, near. cbn [fst]. destruct (e =? -1); [reflexivity|].
    destruct (Z.leb_spec (- INT_MAX) (n - e)); [|lia].
    destruct (Z.leb_spec (n - e) INT_MAX); [|lia]. reflexivity. }
  rewrite Hshown.
  destruct (Z.eqb_spec n INT_MAX); [lia|].
  assert (Ht' : (line ++ t :: more) !! length line = Some t)
    by (apply list_lookup_middle; reflexivity).
  rewrite (char_at_app pre _ _ t Hmem Ht').
  assert (Hprec : int32 (Z.of_nat (length pre) + Z.of_nat (length line)
                         - Z.of_nat (length pre)) = Z.of_nat (length line)).
  { assert (Z.of_nat (length line) ≤ Z.of_nat (length mem)).
    { rewrite Hmem, !length_app. lia. }
    unfold int32, INT_MAX in *.
    replace (Z.of_nat (length pre) + Z.of_nat (length line) - Z.of_nat (length pre))
      with (Z.of_nat (length line)) by lia.
    rewrite Z.mod_small by lia. lia. }
  rewrite Hprec. unfold printf_s.
  destruct (Z.ltb_spec (Z.of_nat (length line)) 0); [lia|].
  rewrite Nat2Z.id, string_chars_line by exact Hclean.
  replace (if t =? 10 then Z.of_nat (length pre) + Z.of_nat (length line) + 1
           else Z.of_nat (length pre) + Z.of_nat (length line))
    with (Z.of_nat (length pre) + Z.of_nat (length line) + (if t =? 10 then 1 else 0))
    by (destruct (t =? 10); lia).
  reflexivity.
Qed.

Lemma lines_loop_end fuel n pre more :
  mem = pre ++ 0 :: more →
  lines_loop mem (S fuel) e n (Z.of_nat (length pre)) = Listed [].
Proof.
  intros Hmem. cbn [lines_loop].
  pose proof (char_at_app pre (0 :: more) 0 0 Hmem eq_refl) as Hat.
  rewrite Z.add_0_r in Hat. rewrite Hat. reflexivity.
Qed.

Lemma length_all_lines lines last :
  (length (all_lines lines last) ≤ length (source_text lines last))%nat.
Proof.
  unfold all_lines, source_text. rewrite !length_app.
  assert (length lines ≤ length (concat (map (λ line, line ++ [10%Z]) lines)))%nat.
  { induction lines as [|l ls IH]; cbn [map concat length]; [lia|].
    rewrite !length_app. cbn [length]. lia. }
  destruct last; cbn [length]; lia.
Qed.

(** The loop on a text that is given by its lines. *)
Lemma lines_loop_text last more lines : ∀ pre n fuel,
  forallb clean lines = true → clean last = true →
  mem = pre ++ source_text lines last ++ 0 :: more →
  Z.of_nat (length mem) ≤ INT_MAX →
  0 ≤ n → n + Z.of_nat (length (all_lines lines last)) ≤ INT_MAX →
  - INT_MAX ≤ n - e → n + Z.of_nat (length (all_lines lines last)) - e ≤ INT_MAX →
  (length (all_lines lines last) < fuel)%nat →
  lines_loop mem fuel e n (Z.of_nat (length pre)) =
  Listed (List.filter (shown e) (numbered n (all_lines lines last))).
Proof.
  induction lines as [|l ls IH]; intros pre n fuel Hls Hlast Hmem Hlen Hn Hmax Hlo Hhi Hfuel.
  - unfold source_text, all_lines in *. cbn [map concat app] in *.
    destruct last as [|c last'].
    + cbn [length] in Hfuel. destruct fuel as [|fuel]; [lia|].
      apply lines_loop_end with (more := more). exact Hmem.
    + cbn [length] in Hfuel, Hmax, Hhi. destruct fuel as [|fuel]; [lia|].
      rewrite (lines_loop_line fuel n pre (c :: last') 0 more)
        by (auto || (try rewrite <- app_assoc in Hmem; assumption) || lia).
      cbn [Z.eqb]. rewrite Z.add_0_r.
      replace (Z.of_nat (length pre) + Z.of_nat (length (c :: last')))
        with (Z.of_nat (length (pre ++ c :: last')))
        by (rewrite length_app; lia).
      destruct fuel as [|fuel]; [lia|].
      rewrite (lines_loop_end fuel (n + 1) (pre ++ c :: last') more)
        by (rewrite Hmem, <- !app_assoc; reflexivity).
      cbn [numbered List.filter]. destruct (shown e (n, c :: last')); reflexivity.
  - cbn [forallb] in Hls. apply andb_true_iff in Hls as [Hl Hls].
    assert (Hall : all_lines (l :: ls) last = l :: all_lines ls last) by reflexivity.
    rewrite Hall in *. cbn [length] in Hfuel, Hmax, Hhi.
    destruct fuel as [|fuel]; [lia|].
    assert (Hmem' : mem = pre ++ l ++ 10 :: source_text ls last ++ 0 :: more).
    { rewrite Hmem. unfold source_text. cbn [map concat].
      rewrite <- !app_assoc. reflexivity. }
    rewrite (lines_loop_line fuel n pre l 10 (source_text ls last ++ 0 :: more))
      by (auto || lia).
    cbn [Z.eqb Pos.eqb].
    replace (Z.of_nat (length pre) + Z.of_nat (length l) + 1)
      with (Z.of_nat (length (pre ++ l ++ [10])))
      by (rewrite !length_app; cbn [length]; lia).
    rewrite (IH (pre ++ l ++ [10]) (n + 1) fuel); try assumption; try lia.
    + cbn [numbered List.filter]. destruct (shown e (n, l)); reflexivity.
    + rewrite Hmem'. rewrite <- !app_assoc. reflexivity.
Qed.

Lemma numbered_lookup (lines : list (list Z)) : ∀ n i line,
  lines !! i = Some line → (Z.of_nat i + n, line) ∈ numbered n lines.
Proof.
  induction lines as [|l ls IH]; intros n i line Hi; [discriminate|].
  cbn [numbered]. destruct i as [|i].
  - injection Hi as ->. rewrite Z.add_0_l. apply list_elem_of_here.
  - apply list_elem_of_further.
    replace (Z.of_nat (S i) + n) with (Z.of_nat i + (n + 1)) by lia.
    apply IH, Hi.
Qed.

Lemma shown_window n (lines : list (list Z)) :
  e ≠ -1 →
  Forall (λ p, e - 4 ≤ p.1 ≤ e + 4) (List.filter (shown e) (numbered n lines)) ∧
  Z.of_nat (length (List.filter (shown e) (numbered n lines)))
    ≤ Z.max 0 (e + 5 - Z.max n (e - 4)).
Proof.
  intros He. revert n. induction lines as [|l ls IH]; intros n;
    cbn [numbered List.filter length].
  - split; [constructor|lia].
  - destruct (IH (n + 1)) as [Hall Hcount].
    destruct (shown e (n, l)) eqn:Hshown.
    + unfold shown in Hshown. cbn [fst] in Hshown.
      destruct (Z.eqb_spec e (-1)); [contradiction|]. cbn [orb] in Hshown.
      apply Z.ltb_lt in Hshown.
      split; [constructor; [cbn [fst]; lia|exact Hall]|].
      cbn [length]. lia.
    + split; [exact Hall|lia].
Qed.

(** X19: the listing of a shader source. For a zero terminated source
    given by its lines, the function prints the lines in order, each with
    its number, counted from 1: all of them for the error line number -1,
    and otherwise those whose number differs from the error line number by
    less than 5. No character is lost or added (a line is printed without
    its line feed), an empty last line after a final line feed is no line,
    and nothing behind the zero terminator matters. *)
Theorem listing_of_lines
    (pre : list Z) (lines : list (list Z)) (last more : list Z) (fuel : nat) :
  forallb clean lines = true → clean last = true →
  mem = pre ++ source_text lines last ++ 0 :: more →
  Z.of_nat (length mem) ≤ 2 ^ 30 → - 2 ^ 30 < e ≤ INT_MAX →
  (length (all_lines lines last) < fuel)%nat →
  fprint_shader_source_with_line_numbers mem fuel (Z.of_nat (length pre)) e =
  Listed (List.filter (shown e) (numbered 1 (all_lines lines last))).
Proof.
  intros Hls Hlast Hmem Hlen He Hfuel.
  pose proof (length_all_lines lines last) as Hcount.
  assert (length (source_text lines last) < length mem)%nat
    by (rewrite Hmem, !length_app; cbn [length]; lia).
  unfold INT_MAX in *.
  apply (lines_loop_text last more); try assumption; unfold INT_MAX; lia.
Qed.

(** X20: with an error line number, at most nine lines are printed, those
    with the numbers from four before to four after the error line number,
    as far as the source has them. *)
Theorem listing_window
    (pre : list Z) (lines : list (list Z)) (last more : list Z) (fuel : nat) :
  forallb clean lines = true → clean last = true →
  mem = pre ++ source_text lines last ++ 0 :: more →
  Z.of_nat (length mem) ≤ 2 ^ 30 → 0 ≤ e ≤ INT_MAX →
  (length (all_lines lines last) < fuel)%nat →
  ∃ printed,
    fprint_shader_source_with_line_numbers mem fuel (Z.of_nat (length pre)) e =
      Listed printed ∧
    (length printed ≤ 9)%nat ∧
    Forall (λ p, e - 4 ≤ p.1 ≤ e + 4) printed ∧
    ∀ i line, all_lines lines last !! i = Some line →
      e - 4 ≤ Z.of_nat i + 1 ≤ e + 4 → (Z.of_nat i + 1, line) ∈ printed.
Proof.
  intros Hls Hlast Hmem Hlen He Hfuel.
  pose proof (length_all_lines lines last) as Hcount.
  assert (length (source_text lines last) < length mem)%nat
    by (rewrite Hmem, !length_app; cbn [length]; lia).
  exists (List.filter (shown e) (numbered 1 (all_lines lines last))).
  split; [|split; [|split]].
  - unfold INT_MAX in *.
    apply (lines_loop_text last more); try assumption; unfold INT_MAX; lia.
  - destruct (shown_window 1 (all_lines lines last)) as [_ Hn]; lia.
  - apply shown_window. lia.
  - intros i line Hi Hnear. apply list_elem_of_In, List.filter_In. split.
    + apply list_elem_of_In, numbered_lookup, Hi.
    + unfold shown. cbn [fst]. apply orb_true_iff. right. apply Z.ltb_lt. lia.
Qed.

End Listing.

Lemma listing_of_lines_witness :
  fprint_shader_source_with_line_numbers
    ([35] ++ source_text [[97; 98]; []] [99; 100] ++ 0 :: [7])
    4 (Z.of_nat (length [35])) (-1) =
  Listed (List.filter (shown (-1)) (numbered 1 (all_lines [[97; 98]; []] [99; 100]))).
Proof.
  apply (listing_of_lines ([35] ++ source_text [[97; 98]; []] [99; 100] ++ 0 :: [7])
           (-1) [35] [[97; 98]; []] [99; 100] [7] 4).
  - reflexivity.
  - reflexivity.
  - reflexivity.
  - vm_compute. discriminate.
  - vm_compute. split; [reflexivity|discriminate].
  - vm_compute. lia.
Defined.

Lemma listing_window_witness :
  ∃ printed,
    fprint_shader_source_with_line_numbers
      ([] ++ source_text
               [[97]; [98]; [99]; [100]; [101]; [102]; [103]; [104]; [105]; [106];
                [107]; [108]] [109] ++ 0 :: [])
      14 (Z.of_nat (length (@nil Z))) 6 = Listed printed ∧
    (length printed ≤ 9)%nat ∧
    Forall (λ p, 6 - 4 ≤ p.1 ≤ 6 + 4) printed ∧
    ∀ i line,
      all_lines [[97]; [98]; [99]; [100]; [101]; [102]; [103]; [104]; [105]; [106];
                 [107]; [108]] [109] !! i = Some line →
      6 - 4 ≤ Z.of_nat i + 1 ≤ 6 + 4 → (Z.of_nat i + 1, line) ∈ printed.
Proof.
  apply (listing_window
           ([] ++ source_text
                    [[97]; [98]; [99]; [100]; [101]; [102]; [103]; [104]; [105];
                     [106]; [107]; [108]] [109] ++ 0 :: [])
           6 []
           [[97]; [98]; [99]; [100]; [101]; [102]; [103]; [104]; [105]; [106];
            [107]; [108]] [109] [] 14).
  - reflexivity.
  - reflexivity.
  - reflexivity.
  - vm_compute. discriminate.
  - vm_compute. split; discriminate.
  - vm_compute. lia.
Defined.

End ShaderSourceFacts.

(** * Loading a file *)

Module FloadFacts.
Import Fload.

(** A call is not in a list of calls that are all different from it. *)
Ltac not_among :=
  let Hin := fresh "Hin" in
  intros Hin;
  repeat (apply elem_of_cons in Hin as [Hin|Hin]; [discriminate Hin|]);
  apply elem_of_nil in Hin; destruct Hin.

Ltac among := repeat first [apply list_elem_of_here | apply list_elem_of_further].

Lemma long_of_length (n filesize nmemb : Z) :
  0 ≤ n ≤ nmemb → nmemb = to_size_t filesize → to_long n = filesize →
  0 ≤ filesize → n = filesize.
Proof.
  unfold to_size_t, to_long. intros Hn -> Hlong Hpos.
  Z.div_mod_to_equations. lia.
Qed.

(** X21: what a successful [fload] returns. When [fread] delivers no more
    items than it is asked for, the block that [fload] returns holds the
    items that [fread] delivered when it was asked for as many items of
    one byte, followed by one zero byte, with no cell left without a
    value; [*size] is the number of items, without the
    zero byte; and the calls were fopen, fseek to the end, ftell, fseek to
    the start, malloc of one byte more than the file size, fread of the
    file size and fclose: the stream is closed and the block not freed. *)
Theorem fload_success
    (L : libc) (size_given : bool) (errno : Z) (r : fload_return)
    (block : list (option Z)) :
  (∀ size nmemb e, 0 ≤ nmemb → Z.of_nat (length (fread L size nmemb e).1) ≤ nmemb) →
  fload L size_given errno = Returns r → returned r = Some block →
  ∃ items,
    (∃ e, (fread L 1 (Z.of_nat (length items)) e).1 = items) ∧
    block = (Some <$> items) ++ [Some 0] ∧
    size_out r = (if size_given then Some (Z.of_nat (length items)) else None) ∧
    calls_made r =
      [Fopen; Fseek 0 SEEK_END; Ftell; Fseek 0 SEEK_SET;
       Malloc (Z.of_nat (length items) + 1) true;
       Fread 1 (Z.of_nat (length items)); Fclose].
Proof.
  intros Hfread. unfold fload, free_and_fail, fail.
  destruct (fopen L errno) as [[|] e1]; cbn [negb];
    [|intros [= <-]; discriminate].
  destruct (fseek L 0 SEEK_END e1) as [r1 e2].
  destruct (r1 =? -1); [intros [= <-]; discriminate|].
  destruct (ftell L e2) as [filesize e3].
  destruct (Z.eqb_spec filesize (-1)); [intros [= <-]; discriminate|].
  destruct (fseek L 0 SEEK_SET e3) as [r2 e4].
  destruct (r2 =? -1); [intros [= <-]; discriminate|].
  destruct (malloc L (to_size_t (filesize + 1)) e4) as [[|] e5] eqn:Hmalloc;
    cbn [negb]; [|intros [= <-]; discriminate].
  assert (Hnmemb : 0 ≤ to_size_t filesize)
    by (unfold to_size_t; apply Z.mod_pos_bound; lia).
  pose proof (Hfread 1 (to_size_t filesize) e5 Hnmemb) as Hitems.
  destruct (fread L 1 (to_size_t filesize) e5) as [items e6] eqn:Hread.
  cbn [fst] in Hitems.
  destruct (Z.eqb_spec (to_long (Z.of_nat (length items))) filesize) as [Hlong|];
    cbn [negb]; [|intros [= <-]; discriminate].
  destruct (Z.leb_spec 0 filesize); cbn [andb]; [|discriminate].
  destruct (Z.ltb_spec filesize (to_size_t (filesize + 1))); [|discriminate].
  intros [= <-]. cbn [returned size_out calls_made]. intros [= <-].
  assert (Hlen : Z.of_nat (length items) = filesize).
  { apply (long_of_length _ filesize (to_size_t filesize)); auto with lia. }
  assert (Hsize : to_size_t filesize = filesize).
  { unfold to_size_t in *. Z.div_mod_to_equations. lia. }
  assert (Hblock : to_size_t (filesize + 1) = filesize + 1).
  { unfold to_size_t in *. Z.div_mod_to_equations. lia. }
  exists items. rewrite Hsize in Hread. rewrite Hsize, Hblock, Hlen.
  split; [exists e5; rewrite Hread; reflexivity|]. split; [|split; reflexivity].
  replace (Z.to_nat (filesize + 1) - length items)%nat with 1%nat by lia.
  cbn [replicate].
  replace (Z.to_nat filesize) with (length (Some <$> items) + 0)%nat
    by (rewrite length_fmap; lia).
  rewrite insert_app_r. reflexivity.
Qed.

(** X22: every path of [fload] releases what it acquired. When [fopen]
    fails, nothing else is called and [errno] is left as [fopen] set it.
    When it succeeds, the stream is closed exactly once, by the last call,
    whatever happens in between. A block that [malloc] returned is freed
    exactly once when [fload] fails and never when it returns the block,
    and [free] is not called without a block. *)
Theorem fload_releases_resources
    (L : libc) (size_given : bool) (errno : Z) (r : fload_return) :
  fload L size_given errno = Returns r →
  if (fopen L errno).1 then
    ∃ middle,
      calls_made r = Fopen :: middle ++ [Fclose] ∧
      (Fopen ∉ middle) ∧ (Fclose ∉ middle) ∧
      (Free ∈ middle → ∃ size, Malloc size true ∈ middle) ∧
      match returned r with
      | None =>
          ∀ size, Malloc size true ∈ middle →
            ∃ before, middle = before ++ [Free] ∧ (Free ∉ before)
      | Some _ => (Free ∉ middle) ∧ ∃ size, Malloc size true ∈ middle
      end
  else
    calls_made r = [Fopen] ∧ returned r = None ∧
    errno_after r = (fopen L errno).2.
Proof.
  unfold fload, free_and_fail, fail.
  destruct (fopen L errno) as [[|] e1]; cbn [negb fst snd];
    [|intros [= <-]; auto].
  destruct (fseek L 0 SEEK_END e1) as [r1 e2].
  destruct (r1 =? -1).
  { intros [= <-]. exists [Fseek 0 SEEK_END]. cbn [calls_made returned].
    split; [reflexivity|]. repeat split; try not_among.
    intros size. not_among. }
  destruct (ftell L e2) as [filesize e3].
  destruct (filesize =? -1).
  { intros [= <-]. exists [Fseek 0 SEEK_END; Ftell]. cbn [calls_made returned].
    split; [reflexivity|]. repeat split; try not_among.
    intros size. not_among. }
  destruct (fseek L 0 SEEK_SET e3) as [r2 e4].
  destruct (r2 =? -1).
  { intros [= <-]. exists [Fseek 0 SEEK_END; Ftell; Fseek 0 SEEK_SET].
    cbn [calls_made returned].
    split; [reflexivity|]. repeat split; try not_among.
    intros size. not_among. }
  destruct (malloc L (to_size_t (filesize + 1)) e4) as [[|] e5]; cbn [negb].
  2:{ intros [= <-].
      exists [Fseek 0 SEEK_END; Ftell; Fseek 0 SEEK_SET;
              Malloc (to_size_t (filesize + 1)) false].
      cbn [calls_made returned].
      split; [reflexivity|]. repeat split; try not_among.
      intros size. not_among. }
  destruct (fread L 1 (to_size_t filesize) e5) as [items e6].
  destruct (to_long (Z.of_nat (length items)) =? filesize); cbn [negb].
  2:{ intros [= <-].
      exists [Fseek 0 SEEK_END; Ftell; Fseek 0 SEEK_SET;
              Malloc (to_size_t (filesize + 1)) true;
              Fread 1 (to_size_t filesize); Free].
      cbn [calls_made returned].
      split; [reflexivity|]. repeat split; try not_among.
      - intros _. eexists. among.
      - intros size _.
        exists [Fseek 0 SEEK_END; Ftell; Fseek 0 SEEK_SET;
                Malloc (to_size_t (filesize + 1)) true;
                Fread 1 (to_size_t filesize)].
        split; [reflexivity|not_among]. }
  destruct ((0 <=? filesize) && (filesize <? to_size_t (filesize + 1)));
    [|discriminate].
  intros [= <-].
  exists [Fseek 0 SEEK_END; Ftell; Fseek 0 SEEK_SET;
          Malloc (to_size_t (filesize + 1)) true; Fread 1 (to_size_t filesize)].
  cbn [calls_made returned].
  split; [reflexivity|]. repeat split; try not_among.
  eexists. among.
Qed.

(** X23: the error code of a failed [fload] is the one of the call that
    failed. When [fload] returns [NULL], [errno] is what the first call
    that failed left there: [fopen], the first [fseek], [ftell], the second
    [fseek] or [malloc], or else the [fread] that delivered another number
    of items than the file size. What [fclose] and [free] do to [errno]
    while [fload] cleans up does not show: another run of the C library
    that differs only in that makes [fload] return the same. (A short
    [fread] that leaves -1 in [errno] is left aside: -1 is the value by
    which [fload] tells that it has no error code yet.) *)
Theorem fload_errno_is_of_failing_call
    (L : libc) (size_given : bool) (errno : Z) (r : fload_return) :
  (∀ size nmemb e, (fread L size nmemb e).2 ≠ -1) →
  fload L size_given errno = Returns r → returned r = None →
  let opened := fopen L errno in
  let sought_end := fseek L 0 SEEK_END opened.2 in
  let told := ftell L sought_end.2 in
  let sought_start := fseek L 0 SEEK_SET told.2 in
  let allocated := malloc L (to_size_t (told.1 + 1)) sought_start.2 in
  let read := fread L 1 (to_size_t told.1) allocated.2 in
  errno_after r =
    (if negb opened.1 then opened.2
     else if sought_end.1 =? -1 then sought_end.2
     else if told.1 =? -1 then told.2
     else if sought_start.1 =? -1 then sought_start.2
     else if negb allocated.1 then allocated.2
     else read.2) ∧
  (opened.1 = true → sought_end.1 ≠ -1 → told.1 ≠ -1 → sought_start.1 ≠ -1 →
   allocated.1 = true → to_long (Z.of_nat (length read.1)) ≠ told.1) ∧
  ∀ L', same_but_cleanup L L' → fload L' size_given errno = Returns r.
Proof.
  intros Hread. cbv zeta. unfold fload, free_and_fail, fail.
  destruct (fopen L errno) as [[|] e1] eqn:Hopen; cbn [negb fst snd].
  2:{ intros [= <-] _. cbn [errno_after]. split; [reflexivity|].
      split; [discriminate|].
      intros L' (Hfopen & _). rewrite <- Hfopen, Hopen. reflexivity. }
  destruct (fseek L 0 SEEK_END e1) as [r1 e2] eqn:Hseek1. cbn [fst snd].
  destruct (Z.eqb_spec r1 (-1)).
  { intros [= <-] _. cbn [errno_after]. split; [reflexivity|].
    split; [intros; contradiction|].
    intros L' (Hfopen & Hfseek & _). rewrite <- Hfopen, <- Hfseek, Hopen, Hseek1.
    cbn [negb]. destruct (Z.eqb_spec r1 (-1)); [reflexivity|contradiction]. }
  destruct (ftell L e2) as [filesize e3] eqn:Htell. cbn [fst snd].
  destruct (Z.eqb_spec filesize (-1)).
  { intros [= <-] _. cbn [errno_after]. split; [reflexivity|].
    split; [intros; contradiction|].
    intros L' (Hfopen & Hfseek & Hftell & _).
    rewrite <- Hfopen, <- Hfseek, <- Hftell, Hopen, Hseek1, Htell. cbn [negb].
    destruct (Z.eqb_spec r1 (-1)); [contradiction|].
    destruct (Z.eqb_spec filesize (-1)); [reflexivity|contradiction]. }
  destruct (fseek L 0 SEEK_SET e3) as [r2 e4] eqn:Hseek2. cbn [fst snd].
  destruct (Z.eqb_spec r2 (-1)).
  { intros [= <-] _. cbn [errno_after]. split; [reflexivity|].
    split; [intros; contradiction|].
    intros L' (Hfopen & Hfseek & Hftell & _).
    rewrite <- Hfopen, <- Hfseek, <- Hftell, Hopen, Hseek1, Htell, Hseek2.
    cbn [negb].
    destruct (Z.eqb_spec r1 (-1)); [contradiction|].
    destruct (Z.eqb_spec filesize (-1)); [contradiction|].
    destruct (Z.eqb_spec r2 (-1)); [reflexivity|contradiction]. }
  destruct (malloc L (to_size_t (filesize + 1)) e4) as [[|] e5] eqn:Hmalloc;
    cbn [negb fst snd].
  2:{ intros [= <-] _. cbn [errno_after]. split; [reflexivity|].
      split; [discriminate|].
      intros L' (Hfopen & Hfseek & Hftell & Hmal & _).
      rewrite <- Hfopen, <- Hfseek, <- Hftell, <- Hmal,
        Hopen, Hseek1, Htell, Hseek2, Hmalloc. cbn [negb].
      destruct (Z.eqb_spec r1 (-1)); [contradiction|].
      destruct (Z.eqb_spec filesize (-1)); [contradiction|].
      destruct (Z.eqb_spec r2 (-1)); [contradiction|]. reflexivity. }
  pose proof (Hread 1 (to_size_t filesize) e5) as He6.
  destruct (fread L 1 (to_size_t filesize) e5) as [items e6] eqn:Hfread.
  cbn [fst snd] in *.
  destruct (Z.eqb_spec (to_long (Z.of_nat (length items))) filesize) as [|Hshort];
    cbn [negb].
  { destruct ((0 <=? filesize) && (filesize <? to_size_t (filesize + 1)));
      [|discriminate].
    intros [= <-]. discriminate. }
  destruct (Z.eqb_spec e6 (-1)); [contradiction|].
  intros [= <-] _. cbn [errno_after]. split; [reflexivity|].
  split; [intros; exact Hshort|].
  intros L' (Hfopen & Hfseek & Hftell & Hmal & Hfr).
  rewrite <- Hfopen, <- Hfseek, <- Hftell, <- Hmal, <- Hfr,
    Hopen, Hseek1, Htell, Hseek2, Hmalloc, Hfread. cbn [negb].
  destruct (Z.eqb_spec r1 (-1)); [contradiction|].
  destruct (Z.eqb_spec filesize (-1)); [contradiction|].
  destruct (Z.eqb_spec r2 (-1)); [contradiction|].
  destruct (Z.eqb_spec (to_long (Z.of_nat (length items))) filesize);
    [contradiction|]. cbn [negb].
  destruct (Z.eqb_spec e6 (-1)); [contradiction|]. reflexivity.
Qed.

Lemma fload_success_witness :
  ∃ items,
    (∃ e, (fread (sample_libc [104; 105]) 1 (Z.of_nat (length items)) e).1 = items) ∧
    [Some 104; Some 105; Some 0] = (Some <$> items) ++ [Some 0] ∧
    Some 2 = (if true then Some (Z.of_nat (length items)) else None) ∧
    [Fopen; Fseek 0 SEEK_END; Ftell; Fseek 0 SEEK_SET; Malloc 3 true; Fread 1 2;
     Fclose] =
      [Fopen; Fseek 0 SEEK_END; Ftell; Fseek 0 SEEK_SET;
       Malloc (Z.of_nat (length items) + 1) true;
       Fread 1 (Z.of_nat (length items)); Fclose].
Proof.
  apply (fload_success (sample_libc [104; 105]) true 0
           {| returned := Some [Some 104; Some 105; Some 0];
              size_out := Some 2; errno_after := 0;
              calls_made := [Fopen; Fseek 0 SEEK_END; Ftell; Fseek 0 SEEK_SET;
                             Malloc 3 true; Fread 1 2; Fclose] |}
           [Some 104; Some 105; Some 0]).
  - intros size nmemb e Hnmemb. simpl. rewrite length_take. lia.
  - vm_compute. reflexivity.
  - reflexivity.
Defined.

Lemma fload_releases_resources_witness :
  if (fopen (short_read_libc 5 [104; 105] 5 9 12) 0).1 then
    ∃ middle,
      [Fopen; Fseek 0 SEEK_END; Ftell; Fseek 0 SEEK_SET; Malloc 6 true; Fread 1 5;
       Free; Fclose] = Fopen :: middle ++ [Fclose] ∧
      (Fopen ∉ middle) ∧ (Fclose ∉ middle) ∧
      (Free ∈ middle → ∃ size, Malloc size true ∈ middle) ∧
      ∀ size, Malloc size true ∈ middle →
        ∃ before, middle = before ++ [Free] ∧ (Free ∉ before)
  else
    [Fopen; Fseek 0 SEEK_END; Ftell; Fseek 0 SEEK_SET; Malloc 6 true; Fread 1 5;
     Free; Fclose] = [Fopen] ∧ @None (list (option Z)) = None ∧
    5 = (fopen (short_read_libc 5 [104; 105] 5 9 12) 0).2.
Proof.
  apply (fload_releases_resources (short_read_libc 5 [104; 105] 5 9 12) false 0
           {| returned := None; size_out := None; errno_after := 5;
              calls_made := [Fopen; Fseek 0 SEEK_END; Ftell; Fseek 0 SEEK_SET;
                             Malloc 6 true; Fread 1 5; Free; Fclose] |}).
  vm_compute. reflexivity.
Defined.

Lemma fload_errno_is_of_failing_call_witness :
  errno_after
    {| returned := None; size_out := None; errno_after := 5;
       calls_made := [Fopen; Fseek 0 SEEK_END; Ftell; Fseek 0 SEEK_SET;
                      Malloc 6 true; Fread 1 5; Free; Fclose] |} =
    (fread (short_read_libc 5 [104; 105] 5 9 12) 1 (to_size_t 5) 0).2 ∧
  to_long (Z.of_nat (length
    (fread (short_read_libc 5 [104; 105] 5 9 12) 1 (to_size_t 5) 0).1)) ≠ 5 ∧
  fload (short_read_libc 5 [104; 105] 5 0 0) false 0 =
    Returns {| returned := None; size_out := None; errno_after := 5;
               calls_made := [Fopen; Fseek 0 SEEK_END; Ftell; Fseek 0 SEEK_SET;
                              Malloc 6 true; Fread 1 5; Free; Fclose] |}.
Proof.
  destruct (fload_errno_is_of_failing_call (short_read_libc 5 [104; 105] 5 9 12)
              false 0
              {| returned := None; size_out := None; errno_after := 5;
                 calls_made := [Fopen; Fseek 0 SEEK_END; Ftell; Fseek 0 SEEK_SET;
                                Malloc 6 true; Fread 1 5; Free; Fclose] |})
    as (Herrno & Hshort & Hsame).
  - intros size nmemb e. simpl. discriminate.
  - vm_compute. reflexivity.
  - reflexivity.
  - split; [exact Herrno|]. split.
    + apply Hshort; (reflexivity || discriminate).
    + apply Hsame. repeat split.
Defined.

End FloadFacts.

(** * Compiling and linking the shaders *)

Module ShaderProgramFacts.
Import ShaderProgram.

(** Case analysis on a call that is in a list of calls written out. *)
Ltac each_call Hin :=
  repeat (apply elem_of_cons in Hin as [Hin|Hin];
          [try discriminate Hin; try (injection Hin; intros; subst)|]);
  try (apply elem_of_nil in Hin; destruct Hin).

Ltac among := repeat first [apply list_elem_of_here | apply list_elem_of_further].

(** The calls before the last one, for a list of calls written out. *)
Ltac all_but_last :=
  match goal with
  | |- ∃ before, ?l = _ ∧ _ =>
      exists (removelast l); split; [reflexivity|cbn [removelast]]
  end.

(** The paths through the function. *)
Ltac paths D vertex_shader_code fragment_shader_code :=
  unfold gl_load_shader_program, compile_and_attach_shader, fail;
  destruct (Z.eqb_spec (compile_status D (create_shader D GL_VERTEX_SHADER)) 0)
    as [Hvertex|Hvertex];
  [|destruct (Z.eqb_spec (compile_status D (create_shader D GL_FRAGMENT_SHADER)) 0)
      as [Hfragment|Hfragment];
    [|destruct (Z.eqb_spec (link_status D (create_program D)) 0) as [Hlink|Hlink]]];
  cbn [negb app]; intros [= <- <-].

(** X24: the program object on every path. The function returns the
    program that [glCreateProgram] made when the vertex shader and the
    fragment shader compile and the program links, and it does not delete
    it then. In every other case it returns 0, and its last call deletes
    the program; the program is deleted nowhere else. *)
Theorem program_deleted_exactly_on_failure
    (D : driver) (vertex_shader_code fragment_shader_code : Z)
    (result : Z) (calls : list gl_call) :
  gl_load_shader_program D vertex_shader_code fragment_shader_code = (result, calls) →
  let program := create_program D in
  if negb (compile_status D (create_shader D GL_VERTEX_SHADER) =? 0)
     && negb (compile_status D (create_shader D GL_FRAGMENT_SHADER) =? 0)
     && negb (link_status D program =? 0)
  then result = program ∧ ∀ p, DeleteProgram p ∉ calls
  else result = 0 ∧
       ∃ before, calls = before ++ [DeleteProgram program] ∧
                 ∀ p, DeleteProgram p ∉ before.
Proof.
  cbv zeta. paths D vertex_shader_code fragment_shader_code; cbn [negb andb].
  - split; [reflexivity|]. all_but_last. intros p Hin. each_call Hin.
  - split; [reflexivity|]. all_but_last. intros p Hin. each_call Hin.
  - split; [reflexivity|]. all_but_last. intros p Hin. each_call Hin.
  - split; [reflexivity|]. intros p Hin. each_call Hin.
Qed.

(** X25: the shader objects on every path. Every shader that is created is
    deleted by the function itself; a shader is attached to the program
    only when it compiled; the fragment shader is not even created when
    the vertex shader does not compile; the program is linked only when
    both compiled; and a source is listed only when the function fails:
    the source of the shader that does not compile with the line number
    that was found in its log (-1 when none was found), or, when the
    program does not link, both sources with -1, that is in full. *)
Theorem shaders_deleted_on_every_path
    (D : driver) (vertex_shader_code fragment_shader_code : Z)
    (result : Z) (calls : list gl_call) :
  gl_load_shader_program D vertex_shader_code fragment_shader_code = (result, calls) →
  let program := create_program D in
  let vertex := create_shader D GL_VERTEX_SHADER in
  let fragment := create_shader D GL_FRAGMENT_SHADER in
  (∀ type, CreateShader type ∈ calls → DeleteShader (create_shader D type) ∈ calls) ∧
  (∀ p shader, AttachShader p shader ∈ calls →
     p = program ∧ compile_status D shader ≠ 0) ∧
  (CreateShader GL_FRAGMENT_SHADER ∈ calls → compile_status D vertex ≠ 0) ∧
  (∀ p, LinkProgram p ∈ calls →
     compile_status D vertex ≠ 0 ∧ compile_status D fragment ≠ 0) ∧
  (∀ source line, Listing source line ∈ calls →
     result = 0 ∧
     ((source = vertex_shader_code ∧ compile_status D vertex = 0 ∧
       line = default (-1) (scanned_line_number D vertex)) ∨
      (source = fragment_shader_code ∧ compile_status D fragment = 0 ∧
       line = default (-1) (scanned_line_number D fragment)) ∨
      (link_status D program = 0 ∧ line = -1 ∧
       (source = vertex_shader_code ∨ source = fragment_shader_code)))).
Proof.
  cbv zeta. paths D vertex_shader_code fragment_shader_code;
    (split; [|split; [|split; [|split]]]).
  all: try solve [intros type Hin; each_call Hin; among].
  all: try solve [intros p shader Hin; each_call Hin;
                  (split; [reflexivity|assumption])].
  all: try solve [intros Hin; each_call Hin;
                  first [assumption
                        |match goal with
                         | H : GL_VERTEX_SHADER = GL_FRAGMENT_SHADER |- _ =>
                             discriminate H
                         end]].
  all: try solve [intros p Hin; each_call Hin; (split; assumption)].
  all: intros source line Hin; each_call Hin; (split; [reflexivity|]).
  all: first
    [ left; split; [reflexivity|split; [assumption|reflexivity]]
    | right; left; split; [reflexivity|split; [assumption|reflexivity]]
    | right; right; split; [assumption|split; [reflexivity|auto]] ].
Qed.

Lemma program_deleted_exactly_on_failure_witness :
  let program := create_program sample_driver in
  if negb (compile_status sample_driver (create_shader sample_driver GL_VERTEX_SHADER) =? 0)
     && negb (compile_status sample_driver
                (create_shader sample_driver GL_FRAGMENT_SHADER) =? 0)
     && negb (link_status sample_driver program =? 0)
  then (gl_load_shader_program sample_driver 100 200).1 = program ∧
       ∀ p, DeleteProgram p ∉ (gl_load_shader_program sample_driver 100 200).2
  else (gl_load_shader_program sample_driver 100 200).1 = 0 ∧
       ∃ before,
         (gl_load_shader_program sample_driver 100 200).2 =
           before ++ [DeleteProgram program] ∧
         ∀ p, DeleteProgram p ∉ before.
Proof.
  apply (program_deleted_exactly_on_failure sample_driver 100 200
           (gl_load_shader_program sample_driver 100 200).1
           (gl_load_shader_program sample_driver 100 200).2).
  vm_compute. reflexivity.
Defined.

Lemma shaders_deleted_on_every_path_witness :
  let calls := (gl_load_shader_program sample_driver 100 200).2 in
  DeleteShader 1 ∈ calls ∧ DeleteShader 2 ∈ calls ∧
  (gl_load_shader_program sample_driver 100 200).1 = 0 ∧
  Listing 200 136 ∈ calls.
Proof.
  destruct (shaders_deleted_on_every_path sample_driver 100 200
              (gl_load_shader_program sample_driver 100 200).1
              (gl_load_shader_program sample_driver 100 200).2)
    as (Hdeleted & _ & _ & _ & Hlisted).
  - vm_compute. reflexivity.
  - assert (Hin : Listing 200 136 ∈ (gl_load_shader_program sample_driver 100 200).2)
      by (vm_compute; among).
    split; [apply (Hdeleted GL_VERTEX_SHADER); vm_compute; among|].
    split; [apply (Hdeleted GL_FRAGMENT_SHADER); vm_compute; among|].
    split; [apply (Hlisted 200 136 Hin)|exact Hin].
Defined.

End ShaderProgramFacts.
